(** * Authorino: reconciler, host index, identity evaluators and API deep copies

    A shallow embedding of the Go sources
      - controllers/auth_config_controller.go  (module [controllers]),
      - pkg/config/identity/oidc.go            (module [oidc]),
      - pkg/config/identity/api_key.go         (module [api_key]),
      - api/v1beta1/zz_generated.deepcopy.go   (module [v1beta1]),
    followed by the properties proved about them.

    Conventions.  A Go [(T, error)] return is a [result T]; an [error] return
    is an [option error] ([None] is [nil]).  A Go [map] is a [gmap]; the order
    in which [range] visits a map is not fixed by the language, so a function
    that ranges over a map takes the visiting order as an argument and the
    theorems quantify over every order that enumerates the map.  Calls into
    the cluster or the network are answered by an explicit environment.  In
    the part on deep copies, where sharing matters, pointers, slices and maps
    carry the address of the heap cell they refer to. *)

From Stdlib Require Import ZArith Ascii String.
From stdpp Require Import gmap strings list fin_maps.

Set Default Proof Using "Type".
Set Warnings "-register-all".
Generalizable All Variables.
Open Scope string_scope.
Open Scope list_scope.

(* ===================================================================== *)
(** * Part I: the embedding *)
(* ===================================================================== *)

(** ** Go results *)

Definition error := string.

Inductive result (A : Type) : Type :=
| Ok (a : A)
| Err (e : error).
Arguments Ok {A} a.
Arguments Err {A} e.

(** A call either returns or panics (an unrecovered run-time panic unwinds
    through the caller). *)
Inductive outcome (A : Type) : Type :=
| Returns (a : A)
| Panics (msg : string).
Arguments Returns {A} a.
Arguments Panics {A} msg.

(** [fmt.Errorf] with a "%v" verb: the rendering of the operand is left to
    the caller, the message is the prefix followed by it. *)
Definition Errorf (prefix operand : string) : error := prefix +:+ operand.

(** ** pkg/common: the translated rule and property types *)

Module common.

Record JSONPatternMatchingRule := {
  Selector : string;
  Operator : string;
  Value : string;
}.

Record JSONValue := {
  Static : string;
  Pattern : string;
}.

Record JSONProperty := {
  Name : string;
  Value_ : JSONValue;
}.

End common.

(** ** api/v1beta1 as the reconciler reads it *)

Module api.

Record JSONPatternExpression := {
  Selector : string;
  Operator : string;
  Value : string;
}.

(** [JSONPattern] embeds [JSONPatternRef] (the name) and
    [JSONPatternExpression] (the inline triple). *)
Record JSONPattern := {
  JSONPatternName : string;
  JSONPatternExpression_ : JSONPatternExpression;
}.

Record ValueFrom := { AuthJSON : string }.

Record JsonProperty := {
  jp_Name : string;
  jp_Value : string;
  jp_ValueFrom : ValueFrom;
}.

Record StaticOrDynamicValue := {
  sd_Value : string;
  sd_ValueFrom : ValueFrom;
}.

Record Credentials := {
  In : string;
  KeySelector : string;
}.

Record SecretKeyReference := {
  skr_Name : string;
  skr_Key : string;
}.

(** Every evaluator entry sets one of its method fields; [GetType] tells
    which.  The entry is a tagged union here, the tag being what [GetType]
    returns and the payload the fields the reconciler reads. *)
Inductive IdentityMethod : Type :=
| OAuth2 (TokenIntrospectionUrl TokenTypeHint CredentialsName : string)
| Oidc (Endpoint : string) (TTL : Z)
| APIKey (LabelSelectors : gmap string string) (AllNamespaces : bool)
| KubernetesAuth (Audiences : list string)
| Anonymous
| IdentityUnknown.

Record Identity := {
  id_Name : string;
  id_Priority : Z;
  id_Metrics : bool;
  id_Conditions : list JSONPattern;
  id_Credentials : Credentials;
  id_ExtendedProperties : list JsonProperty;
  id_Method : IdentityMethod;
}.

Inductive MetadataMethod : Type :=
| UMA (Endpoint CredentialsName : string)
| UserInfo (IdentitySource : string)
| GenericHTTP (Endpoint Method : string) (Parameters Headers : list JsonProperty)
    (ContentType : string) (SharedSecret : option SecretKeyReference)
    (Credentials_ : Credentials)
| MetadataUnknown.

Record Metadata := {
  md_Name : string;
  md_Priority : Z;
  md_Metrics : bool;
  md_Conditions : list JSONPattern;
  md_Method : MetadataMethod;
}.

Record ExternalRegistry := {
  er_Endpoint : string;
  er_SharedSecret : option SecretKeyReference;
  er_Credentials : Credentials;
  er_TTL : Z;
}.

Record ResourceAttributes := {
  ra_Namespace : StaticOrDynamicValue;
  ra_Group : StaticOrDynamicValue;
  ra_Resource : StaticOrDynamicValue;
  ra_Name : StaticOrDynamicValue;
  ra_SubResource : StaticOrDynamicValue;
  ra_Verb : StaticOrDynamicValue;
}.

Inductive AuthorizationMethod : Type :=
| OPA (InlineRego : string) (ExternalRegistry_ : ExternalRegistry) (AllValues : bool)
| JSONPatternMatching (Rules : list JSONPattern)
| KubernetesAuthz (User : StaticOrDynamicValue) (Groups : list string)
    (ResourceAttributes_ : option ResourceAttributes)
| AuthorizationUnknown.

Record Authorization := {
  az_Name : string;
  az_Priority : Z;
  az_Metrics : bool;
  az_Conditions : list JSONPattern;
  az_Method : AuthorizationMethod;
}.

Record SigningKeyRef := {
  sk_Name : string;
  sk_Algorithm : string;
}.

Inductive ResponseMethod : Type :=
| Wristband (Issuer : string) (CustomClaims : list JsonProperty)
    (TokenDuration : option Z) (SigningKeyRefs : list SigningKeyRef)
| DynamicJSON (Properties : list JsonProperty)
| ResponseUnknown.

Record Response := {
  rs_Name : string;
  rs_Priority : Z;
  rs_Metrics : bool;
  rs_Conditions : list JSONPattern;
  rs_Wrapper : string;
  rs_WrapperKey : string;
  rs_Method : ResponseMethod;
}.

Record DenyWithSpec := {
  dw_Code : Z;
  dw_Message : string;
  dw_Headers : list JsonProperty;
}.

Record DenyWith := {
  Unauthenticated : option DenyWithSpec;
  Unauthorized : option DenyWithSpec;
}.

(** [Patterns] is a Go map; a nil map has no entries. *)
Record AuthConfigSpec := {
  Hosts : list string;
  Patterns : gmap string (list JSONPatternExpression);
  Conditions : list JSONPattern;
  Identity_ : list Identity;
  Metadata_ : list Metadata;
  Authorization_ : list Authorization;
  Response_ : list Response;
  DenyWith_ : option DenyWith;
}.

(** The object: of [ObjectMeta], its namespace, name and labels. *)
Record AuthConfig := {
  Namespace : string;
  Name : string;
  Labels : gmap string string;
  Spec : AuthConfigSpec;
}.

End api.

(** ** Values of type [interface{}] holding decoded JSON *)

Inductive JSON : Type :=
| JNull
| JBool (b : bool)
| JNumber (z : Z)
| JString (s : string)
| JArray (l : list JSON)
| JObject (m : list (string * JSON)).

(** The part of an HTTP request the evaluators look at. *)
Record HttpRequest := {
  Method : string;
  Path : string;
  Headers : gmap string string;
}.

(** [auth.AuthCredentials] is an interface; of its methods the evaluators
    below call [GetCredentialsFromReq] only. *)
Record AuthCredentials := {
  GetCredentialsFromReq : HttpRequest -> result string;
}.

(** [context.Context] as seen through [common.CheckContext]: [ctx.Err()]. *)
Record Context := { ctx_Err : option error }.

Definition CheckContext (ctx : Context) : option error := ctx_Err ctx.

(** ** pkg/cron: the periodic worker behind the OIDC refresher *)

Module cron.

(** A worker is known by its handle. *)
Definition Worker := nat.

(** The scheduler: the workers whose goroutine is alive, and the next
    unused handle. *)
Record Scheduler := {
  running : gset Worker;
  next_worker : Worker;
}.

Definition idle : Scheduler := {| running := ∅; next_worker := 0 |}.

Section Cron.
(** Whether [StartWorker] accepts an interval. *)
Variable accepts : Z -> bool.

(** Modelled from the spec: pkg/cron is not among the sources.  "The
    OIDC refresher [...] implemented as periodic tasks owned by the
    evaluator; their stop-channel is invoked by Clean", with the refresh
    interval given by the identity's TTL.  [StartWorker] either starts a
    new periodic task and hands out its worker, or refuses the interval
    with an error and starts nothing. *)
Definition StartWorker (interval : Z) (s : Scheduler) : result Worker * Scheduler :=
  if accepts interval
  then (Ok (next_worker s),
        {| running := {[ next_worker s ]} ∪ running s;
           next_worker := S (next_worker s) |})
  else (Err "no interval provided", s).

(** Modelled from the spec: [Stop] signals the worker's stop channel,
    after which its task no longer runs. *)
Definition Stop (w : Worker) (s : Scheduler) : option error * Scheduler :=
  (None, {| running := running s ∖ {[ w ]}; next_worker := next_worker s |}).
End Cron.

End cron.

(** ** pkg/config/identity/oidc.go *)

Module oidc.

Definition msg_oidcProviderConfigMissingError := "missing openid connect configuration".
Definition msg_oidcProviderConfigRefreshSuccess := "openid connect configuration updated".
Definition msg_oidcProviderConfigRefreshError :=
  "failed to discovery openid connect configuration".
Definition msg_oidcProviderConfigRefreshDisabled :=
  "auto-refresh of openid connect configuration disabled".

(** [goidc.IDToken]: [Claims] decodes the payload or fails. *)
Record IDToken := { IDToken_Claims : result JSON }.

(** [goidc.Provider], by what the evaluator asks of it: [Claims] decodes
    the discovery document into a map (or fails), and
    [Verifier(cfg).Verify(ctx, token)] checks a raw token. *)
Record Provider := {
  Provider_Claims : result (gmap string JSON);
  Provider_Verify : string -> result IDToken;
}.

Record OIDC := {
  creds : AuthCredentials;
  Endpoint : string;
  provider : option Provider;
  refresher : option cron.Worker;
}.

(** What the evaluator changes outside itself: the scheduler and the log. *)
Record World := {
  sched : cron.Scheduler;
  log : list string;
}.

Definition logf (msg : string) (w : World) : World :=
  {| sched := sched w; log := log w ++ [msg] |}.

Definition set_provider (p : Provider) (o : OIDC) : OIDC :=
  {| creds := creds o; Endpoint := Endpoint o; provider := Some p; refresher := refresher o |}.

Definition set_refresher (r : option cron.Worker) (o : OIDC) : OIDC :=
  {| creds := creds o; Endpoint := Endpoint o; provider := provider o; refresher := r |}.

Section Evaluator.
(** [goidc.NewProvider(ctx, endpoint)]: the answer of the network to a
    discovery request, at the time of the call. *)
Variable NewProvider : string -> result Provider.
(** [url.Parse]. *)
Variable url_Parse : string -> result string.
Variable accepts : Z -> bool.

Definition getProvider (force : bool) (o : OIDC) (w : World)
  : option Provider * OIDC * World :=
  if match provider o with None => true | Some _ => force end
  then
    let endpoint := Endpoint o in
    match NewProvider endpoint with
    | Err err => (provider o, o, logf msg_oidcProviderConfigRefreshError w)
    | Ok p => (Some p, set_provider p o, logf msg_oidcProviderConfigRefreshSuccess w)
    end
  else (provider o, o, w).

Definition verifyToken (accessToken : string) (ctx : Context) (o : OIDC) (w : World)
  : result IDToken * OIDC * World :=
  let '(provider, o, w) := getProvider false o w in
  match provider with
  | None => (Err msg_oidcProviderConfigMissingError, o, w)
  | Some provider =>
      match Provider_Verify provider accessToken with
      | Err err => (Err err, o, w)
      | Ok idToken => (Ok idToken, o, w)
      end
  end.

(** Returns the token together with the claims written through the
    [claims] pointer. *)
Definition decodeAndVerifyToken (accessToken : string) (ctx : Context) (o : OIDC) (w : World)
  : result (IDToken * JSON) * OIDC * World :=
  match CheckContext ctx with
  | Some err => (Err err, o, w)
  | None =>
      let '(r, o, w) := verifyToken accessToken ctx o w in
      match r with
      | Err err => (Err err, o, w)
      | Ok idToken =>
          match IDToken_Claims idToken with
          | Err err => (Err err, o, w)
          | Ok claims => (Ok (idToken, claims), o, w)
          end
      end
  end.

Definition Call (http : HttpRequest) (ctx : Context) (o : OIDC) (w : World)
  : outcome (result JSON) * OIDC * World :=
  match GetCredentialsFromReq (creds o) http with
  | Err err => (Returns (Err err), o, w)
  | Ok accessToken =>
      let '(r, o, w) := decodeAndVerifyToken accessToken ctx o w in
      match r with
      | Err err => (Returns (Err err), o, w)
      | Ok (_, claims) => (Returns (Ok claims), o, w)
      end
  end.

(** [getProvider(...).Claims(&providerClaims)] dereferences its receiver,
    so a nil provider panics; its error is dropped and leaves
    [providerClaims] the nil map.  [providerClaims[name].(string)] is a
    type assertion without the comma-ok form: it panics unless the entry
    is there and holds a string. *)
Definition GetURL (name : string) (ctx : Context) (o : OIDC) (w : World)
  : outcome (result string) * OIDC * World :=
  let '(p, o, w) := getProvider false o w in
  match p with
  | None => (Panics "invalid memory address or nil pointer dereference", o, w)
  | Some p =>
      let providerClaims : gmap string JSON :=
        match Provider_Claims p with Ok m => m | Err _ => ∅ end in
      match providerClaims !! name with
      | Some (JString s) =>
          match url_Parse s with
          | Err err => (Returns (Err err), o, w)
          | Ok endpoint => (Returns (Ok endpoint), o, w)
          end
      | _ => (Panics "interface conversion: interface {} is not string", o, w)
      end
  end.

Definition configureProviderRefresh (ttl : Z) (o : OIDC) (w : World) : OIDC * World :=
  match cron.StartWorker accepts ttl (sched w) with
  | (Ok worker, s) => (set_refresher (Some worker) o, {| sched := s; log := log w |})
  | (Err err, s) =>
      (set_refresher None o,
       logf msg_oidcProviderConfigRefreshDisabled {| sched := s; log := log w |})
  end.

(** The task handed to [cron.StartWorker]: run at every tick while the
    worker is alive. *)
Definition refresh (o : OIDC) (w : World) : OIDC * World :=
  let '(_, o, w) := getProvider true o w in (o, w).

Definition Clean (o : OIDC) (w : World) : option error * World :=
  match refresher o with
  | None => (None, w)
  | Some r =>
      let '(err, s) := cron.Stop r (sched w) in
      (err, {| sched := s; log := log w |})
  end.

Definition NewOIDC (endpoint : string) (creds : AuthCredentials) (ttl : Z) (w : World)
  : OIDC * World :=
  let oidc := {| creds := creds; Endpoint := endpoint; provider := None; refresher := None |} in
  let '(_, oidc, w) := getProvider false oidc w in
  configureProviderRefresh ttl oidc w.
End Evaluator.

End oidc.

(** ** Ranging over a Go map *)

(** [visits m order]: [order] is one of the sequences in which a [range]
    over [m] may visit its entries (each entry once, in any order). *)
Definition visits {V : Type} (m : gmap string V) (order : list (string * V)) : Prop :=
  order ≡ₚ map_to_list m.

(** ** k8s.io/api/core/v1 and the controller-runtime client *)

Module v1.

(** [Data] holds byte strings; [string(secret.Data[k])] is the empty
    string when the key is missing. *)
Record Secret := {
  Namespace : string;
  Name : string;
  Labels : gmap string string;
  Data : gmap string string;
}.

Definition datum (secret : Secret) (k : string) : string :=
  default "" (Data secret !! k).

End v1.

Module client.

Inductive ListOption : Type :=
| MatchingLabels (labels : gmap string string)
| InNamespace (namespace : string).

(** [client.Reader] (and the [client.Client] of the reconciler), for
    secrets. *)
Record Reader := {
  Get : string -> string -> result v1.Secret;
  List : list ListOption -> result (list v1.Secret);
}.

Definition selects (opts : list ListOption) (secret : v1.Secret) : bool :=
  forallb (λ opt,
             match opt with
             | MatchingLabels labels => bool_decide (labels ⊆ v1.Labels secret)
             | InNamespace namespace => bool_decide (v1.Namespace secret = namespace)
             end) opts.

(** The reader of a cluster that holds [secrets]: [List] returns those
    that every option selects, [Get] the one of that namespace and name. *)
Definition cluster (secrets : list v1.Secret) : Reader :=
  {| Get := λ namespace name,
       match List.find (λ s, bool_decide (v1.Namespace s = namespace ∧ v1.Name s = name))
                       secrets with
       | Some secret => Ok secret
       | None => Err ("secret not found: " +:+ name)
       end;
     List := λ opts, Ok (List.filter (selects opts) secrets) |}.

(** What a list call asks for: no [InNamespace] option means every
    namespace. *)
Definition spans_all_namespaces (opts : list ListOption) : Prop :=
  ∀ ns, InNamespace ns ∉ opts.

Definition restricted_to (ns : string) (opts : list ListOption) : Prop :=
  ∀ ns', InNamespace ns' ∈ opts ↔ ns' = ns.

End client.

(** ** k8s.io/apimachinery/pkg/types *)

Module types.

Record NamespacedName := {
  Namespace : string;
  Name : string;
}.

End types.

(** ** pkg/config/identity/api_key.go *)

Module api_key.

Definition apiKeySelector := "api_key".
Definition invalidApiKeyMsg := "the API Key provided is invalid".
Definition credentialsFetchingErrorMsg :=
  "Something went wrong fetching the authorized credentials".

(** [APIKey] embeds [auth.AuthCredentials] and [apiKeyDetails]. *)
Record APIKey := {
  creds : AuthCredentials;
  Name : string;
  LabelSelectors : gmap string string;
  Namespace : string;
  k8sClient : client.Reader;
  authorizedCredentials : gmap string v1.Secret;
}.

Definition set_authorizedCredentials (m : gmap string v1.Secret) (apiKey : APIKey) : APIKey :=
  {| creds := creds apiKey; Name := Name apiKey; LabelSelectors := LabelSelectors apiKey;
     Namespace := Namespace apiKey; k8sClient := k8sClient apiKey;
     authorizedCredentials := m |}.

(** The [opts] of [GetCredentialsFromCluster]. *)
Definition listOptions (apiKey : APIKey) : list client.ListOption :=
  let opts := [client.MatchingLabels (LabelSelectors apiKey)] in
  let namespace := Namespace apiKey in
  if decide (namespace ≠ "") then opts ++ [client.InNamespace namespace] else opts.

Definition parseSecrets (items : list v1.Secret) : gmap string v1.Secret :=
  foldl (λ parsedSecrets secret, <[v1.datum secret apiKeySelector := secret]> parsedSecrets)
        ∅ items.

Definition GetCredentialsFromCluster (apiKey : APIKey) : option error * APIKey :=
  let opts := listOptions apiKey in
  match client.List (k8sClient apiKey) opts with
  | Err err => (Some err, apiKey)
  | Ok secretList =>
      let parsedSecrets := parseSecrets secretList in
      (None, set_authorizedCredentials parsedSecrets apiKey)
  end.

(** Returns the evaluator and what it logged. *)
Definition NewApiKeyIdentity (name : string) (labelSelectors : gmap string string)
    (namespace : string) (authCred : AuthCredentials) (k8sClient : client.Reader)
  : APIKey * list string :=
  let apiKey := {| creds := authCred; Name := name; LabelSelectors := labelSelectors;
                   Namespace := namespace; k8sClient := k8sClient;
                   authorizedCredentials := ∅ |} in
  match GetCredentialsFromCluster apiKey with
  | (Some err, apiKey) => (apiKey, [credentialsFetchingErrorMsg])
  | (None, apiKey) => (apiKey, [])
  end.

(** The authorized-credential set: the secrets held by the evaluator. *)
Definition authorized (apiKey : APIKey) (secret : v1.Secret) : Prop :=
  ∃ key, authorizedCredentials apiKey !! key = Some secret.

(** The loop of [Call] over the entries in the order they are visited. *)
Fixpoint range_find (reqKey : string) (order : list (string * v1.Secret)) : option v1.Secret :=
  match order with
  | [] => None
  | (key, secret) :: rest =>
      if decide (key = reqKey) then Some secret else range_find reqKey rest
  end.

(** [order] is the order in which the range visits
    [authorizedCredentials]. *)
Definition Call (http : HttpRequest) (order : list (string * v1.Secret)) (apiKey : APIKey)
  : result v1.Secret :=
  match GetCredentialsFromReq (creds apiKey) http with
  | Err err => Err err
  | Ok reqKey =>
      match range_find reqKey order with
      | Some secret => Ok secret
      | None => Err invalidApiKeyMsg
      end
  end.

(** [order] is the order in which the range visits
    [authorizedCredentials]; the result is the copy of the secret that
    the loop variable holds, nil when the loop runs to its end. *)
Fixpoint FindSecretByName (lookup : types.NamespacedName) (order : list (string * v1.Secret))
  : option v1.Secret :=
  match order with
  | [] => None
  | (_, secret) :: rest =>
      if decide (v1.Namespace secret = types.Namespace lookup
                 ∧ v1.Name secret = types.Name lookup)
      then Some secret
      else FindSecretByName lookup rest
  end.

End api_key.

(** ** pkg/config: the translated evaluators and the APIConfig *)

Module config.

(** A translated evaluator is allocated once and shared by pointer from
    then on; [handle] stands for its address. *)
Definition handle := nat.

Record OAuth2 := {
  oa_TokenIntrospectionUrl : string;
  oa_TokenTypeHint : string;
  oa_ClientID : string;
  oa_ClientSecret : string;
  oa_creds : AuthCredentials;
}.

Record KubernetesAuth := {
  ka_creds : AuthCredentials;
  ka_Audiences : list string;
}.

Record Noop := { noop_creds : AuthCredentials }.

Record IdentityConfig := {
  id_handle : handle;
  id_Name : string;
  id_Priority : Z;
  id_Conditions : list common.JSONPatternMatchingRule;
  id_ExtendedProperties : list common.JSONProperty;
  id_Metrics : bool;
  id_OAuth2 : option OAuth2;
  id_OIDC : option oidc.OIDC;
  id_APIKey : option api_key.APIKey;
  id_KubernetesAuth : option KubernetesAuth;
  id_Noop : option Noop;
}.

Record UMA := {
  uma_Endpoint : string;
  uma_ClientID : string;
  uma_ClientSecret : string;
}.

Record UserInfo := { ui_OIDC : option oidc.OIDC }.

Record GenericHttp := {
  gh_Endpoint : string;
  gh_Method : string;
  gh_Parameters : list common.JSONProperty;
  gh_Headers : list common.JSONProperty;
  gh_ContentType : string;
  gh_SharedSecret : string;
  gh_creds : AuthCredentials;
}.

Record MetadataConfig := {
  md_handle : handle;
  md_Name : string;
  md_Priority : Z;
  md_Conditions : list common.JSONPatternMatchingRule;
  md_Metrics : bool;
  md_UMA : option UMA;
  md_UserInfo : option UserInfo;
  md_GenericHTTP : option GenericHttp;
}.

Record OPAExternalSource := {
  xs_Endpoint : string;
  xs_SharedSecret : string;
  xs_creds : AuthCredentials;
  xs_TTL : Z;
}.

Record OPA := {
  opa_policyName : string;
  opa_InlineRego : string;
  opa_externalSource : OPAExternalSource;
  opa_AllValues : bool;
  opa_index : nat;
}.

Record JSONPatternMatching := { Rules : list common.JSONPatternMatchingRule }.

Record KubernetesAuthzResourceAttributes := {
  kra_Namespace : common.JSONValue;
  kra_Group : common.JSONValue;
  kra_Resource : common.JSONValue;
  kra_Name : common.JSONValue;
  kra_SubResource : common.JSONValue;
  kra_Verb : common.JSONValue;
}.

Record KubernetesAuthz := {
  kz_User : common.JSONValue;
  kz_Groups : list string;
  kz_ResourceAttributes : option KubernetesAuthzResourceAttributes;
}.

Record AuthorizationConfig := {
  az_handle : handle;
  az_Name : string;
  az_Priority : Z;
  az_Conditions : list common.JSONPatternMatchingRule;
  az_Metrics : bool;
  az_OPA : option OPA;
  az_JSON : option JSONPatternMatching;
  az_KubernetesAuthz : option KubernetesAuthz;
}.

(** [jose.JSONWebKey], by the reference it was built from. *)
Record JSONWebKey := {
  jwk_KeyID : string;
  jwk_Algorithm : string;
  jwk_pem : string;
}.

Record Wristband := {
  wb_Issuer : string;
  wb_CustomClaims : list common.JSONProperty;
  wb_TokenDuration : option Z;
  wb_SigningKeys : list JSONWebKey;
}.

Record DynamicJSON := { dj_Properties : list common.JSONProperty }.

Record ResponseConfig := {
  rs_handle : handle;
  rs_Name : string;
  rs_Priority : Z;
  rs_Conditions : list common.JSONPatternMatchingRule;
  rs_Wrapper : string;
  rs_WrapperKey : string;
  rs_Metrics : bool;
  rs_Wristband : option Wristband;
  rs_DynamicJSON : option DynamicJSON;
}.

Record DenyWithValues := {
  dv_Code : Z;
  dv_Message : string;
  dv_Headers : list common.JSONProperty;
}.

(** The four evaluator lists hold pointers: the copies of an APIConfig
    stored under several hosts share their evaluators. *)
Record APIConfig := {
  Conditions : list common.JSONPatternMatchingRule;
  IdentityConfigs : list IdentityConfig;
  MetadataConfigs : list MetadataConfig;
  AuthorizationConfigs : list AuthorizationConfig;
  ResponseConfigs : list ResponseConfig;
  Labels : gmap string string;
  Unauthenticated : option DenyWithValues;
  Unauthorized : option DenyWithValues;
}.

(** The evaluators of an APIConfig, phase by phase. *)
Definition evaluators (c : APIConfig) : list handle :=
  (id_handle <$> IdentityConfigs c) ++ (md_handle <$> MetadataConfigs c)
  ++ (az_handle <$> AuthorizationConfigs c) ++ (rs_handle <$> ResponseConfigs c).

(** The refresh workers owned by the OIDC identity evaluators. *)
Definition refreshers (c : APIConfig) : list cron.Worker :=
  omap (λ i, o ← id_OIDC i; oidc.refresher o) (IdentityConfigs c).

(** Modelled from the spec: pkg/config/config.go is not among the
    sources.  APIConfig "exposes Clean(ctx) which calls Clean on every
    evaluator"; the OIDC identity evaluator's [Clean] is [oidc.Clean].
    The call is recorded per evaluator in [cleaned] (oldest first). *)
Definition Clean (c : APIConfig) (cleaned : list handle) (w : oidc.World)
  : option error * list handle * oidc.World :=
  let w := foldl (λ w i,
                    match id_OIDC i with
                    | Some o => (oidc.Clean o w).2
                    | None => w
                    end) w (IdentityConfigs c) in
  (None, cleaned ++ evaluators c, w).

End config.

(** ** pkg/cache: the host index *)

Module cache.

Definition Separator : ascii := "/"%char.

(** [strings.Split(s, "/")[0]]: what comes before the first separator,
    all of [s] when there is none. *)
Fixpoint split_head (s : string) : string :=
  match s with
  | EmptyString => EmptyString
  | String c rest => if decide (c = Separator) then EmptyString else String c (split_head rest)
  end.

Section Cache.
Context {V : Type}.

(** Modelled from the spec: pkg/cache is not among the sources.  "Host
    index entry: host -> APIConfig plus reverse map configId ->
    set<host>"; the reverse map lists the hosts of a configId in the
    order they were bound. *)
Record Cache := {
  entries : gmap string (string * V);
  keys : gmap string (list string);
}.

Definition empty : Cache := {| entries := ∅; keys := ∅ |}.

Definition Get (host : string) (c : Cache) : option V := snd <$> entries c !! host.

Definition FindId (host : string) (c : Cache) : option string := fst <$> entries c !! host.

Definition FindKeys (id : string) (c : Cache) : list string := default [] (keys c !! id).

Definition unlink (id host : string) (ks : gmap string (list string))
  : gmap string (list string) :=
  match ks !! id with
  | Some hosts =>
      match filter (λ h, h ≠ host) hosts with
      | [] => delete id ks
      | hosts' => <[id := hosts']> ks
      end
  | None => ks
  end.

Definition link (id host : string) (ks : gmap string (list string))
  : gmap string (list string) :=
  let hosts := default [] (ks !! id) in
  if decide (host ∈ hosts) then ks else <[id := hosts ++ [host]]> ks.

Definition install (id host : string) (v : V) (c : Cache) : Cache :=
  let ks := match entries c !! host with
            | Some (id', _) => if decide (id' = id) then keys c else unlink id' host (keys c)
            | None => keys c
            end in
  {| entries := <[host := (id, v)]> (entries c); keys := link id host ks |}.

(** Modelled from the spec: "Set(configId, host, apiConfig, override):
    installs a host binding; if host already bound to a different
    configId, fails unless override and the existing binding's namespace
    matches". *)
Definition Set_ (id host : string) (v : V) (override : bool) (c : Cache)
  : option error * Cache :=
  match entries c !! host with
  | Some (id', _) =>
      if decide (id' = id) then (None, install id host v c)
      else if override && bool_decide (split_head id' = split_head id)
           then (None, install id host v c)
           else (Some "HostTaken", c)
  | None => (None, install id host v c)
  end.

(** Modelled from the spec: "Delete(configId): removes all host bindings
    of that configId".  The [Clean] of the evicted APIConfig, which the
    spec names in the same sentence, is what the reconciler's
    [cleanConfigs] does before it calls [Delete]; it is modelled there
    and not a second time here. *)
Definition Delete (id : string) (c : Cache) : Cache :=
  {| entries := foldr delete (entries c) (FindKeys id c);
     keys := delete id (keys c) |}.
End Cache.
Arguments Cache : clear implicits.

End cache.

(** ** controllers/auth_config_controller.go *)

Module controllers.

Definition failedToCleanConfig := "failed to clean up all asynchronous workers".

(** [types.NamespacedName]; [String] joins the two with the separator. *)
Record NamespacedName := {
  nn_Namespace : string;
  nn_Name : string;
}.

Definition NamespacedName_String (n : NamespacedName) : string :=
  nn_Namespace n +:+ "/" +:+ nn_Name n.

(** The three ways [r.Get] of the AuthConfig ends. *)
Inductive GetResult : Type :=
| Found (authConfig : api.AuthConfig)
| NotFound (err : error)
| GetFailed (err : error).

(** What the cluster, the network and the evaluator constructors of the
    other packages answer during one reconciliation. *)
Record Env := {
  GetAuthConfig : NamespacedName -> GetResult;
  Client : client.Reader;
  NewProvider : string -> result oidc.Provider;
  cron_accepts : Z -> bool;
  NewAuthCredential : string -> string -> AuthCredentials;
  NewKubernetesAuthIdentity : AuthCredentials -> list string -> result config.KubernetesAuth;
  NewUMAMetadata : string -> string -> string -> result config.UMA;
  NewOPAAuthorization :
    string -> string -> config.OPAExternalSource -> bool -> nat -> result config.OPA;
  NewKubernetesAuthz :
    common.JSONValue -> list string -> option config.KubernetesAuthzResourceAttributes ->
    result config.KubernetesAuthz;
  NewSigningKey : string -> string -> string -> result config.JSONWebKey;
  NewWristbandConfig :
    string -> list common.JSONProperty -> option Z -> list config.JSONWebKey ->
    result config.Wristband;
}.

(** The options of the reconciler; [labels.Selector] by its [Matches]. *)
Record AuthConfigReconciler := {
  LabelSelector : gmap string string -> bool;
  Namespace : string;
}.

(** What a reconciliation reads and writes: the host index, the scheduler
    and log, the record of [Clean] calls per evaluator, and the next free
    evaluator address. *)
Record State := {
  Cache : cache.Cache config.APIConfig;
  world : oidc.World;
  cleaned : list config.handle;
  next_handle : config.handle;
}.

Definition init : State :=
  {| Cache := cache.empty;
     world := {| oidc.sched := cron.idle; oidc.log := [] |};
     cleaned := []; next_handle := 0 |}.

Definition set_Cache (c : cache.Cache config.APIConfig) (s : State) : State :=
  {| Cache := c; world := world s; cleaned := cleaned s; next_handle := next_handle s |}.

Definition set_world (w : oidc.World) (s : State) : State :=
  {| Cache := Cache s; world := w; cleaned := cleaned s; next_handle := next_handle s |}.

Definition logger_Info (msg : string) (s : State) : State :=
  set_world (oidc.logf msg (world s)) s.

Definition logger_Error (msg : string) (s : State) : State :=
  set_world (oidc.logf msg (world s)) s.

(** Modelled from the spec: [Watched] is not among the sources.  The
    "watch label selector (gates which declarative objects are
    admitted)": an object is watched when the selector matches its
    labels. *)
Definition Watched (labels : gmap string string) (selector : gmap string string -> bool)
  : bool :=
  selector labels.

Definition ClusterWide (r : AuthConfigReconciler) : bool :=
  bool_decide (Namespace r = "").

(** *** The translation monad: state and early return of an error *)

Definition T (A : Type) : Type := State -> result A * State.

Definition ret {A} (a : A) : T A := λ s, (Ok a, s).
Definition fail {A} (err : error) : T A := λ s, (Err err, s).
Definition bind {A B} (m : T A) (k : A -> T B) : T B :=
  λ s, match m s with
       | (Ok a, s) => k a s
       | (Err err, s) => (Err err, s)
       end.
Definition try {A} (r : result A) : T A :=
  match r with Ok a => ret a | Err err => fail err end.

Notation "x <~ m ;; k" := (bind m (λ x, k))
  (at level 100, m at next level, right associativity).

(** [&config.XConfig{...}]: a fresh address. *)
Definition new : T config.handle :=
  λ s, (Ok (next_handle s),
        {| Cache := Cache s; world := world s; cleaned := cleaned s;
           next_handle := S (next_handle s) |}).

Definition in_world {A} (f : oidc.World -> A * oidc.World) : T A :=
  λ s, let '(a, w) := f (world s) in (Ok a, set_world w s).

Definition logs (msgs : list string) : T unit :=
  λ s, (Ok tt, foldl (λ s msg, logger_Error msg s) s msgs).

(** A [for i, x := range l] whose body may return an error and otherwise
    appends one element to the slice [acc]. *)
Fixpoint range_append {A B} (body : nat -> A -> T B) (i : nat) (l : list A) (acc : list B)
  : T (list B) :=
  match l with
  | [] => ret acc
  | x :: l => y <~ body i x ;; range_append body (S i) l (acc ++ [y])
  end.

(** *** Helpers of the translation *)

Definition toRule (expression : api.JSONPatternExpression) : common.JSONPatternMatchingRule :=
  {| common.Selector := api.Selector expression;
     common.Operator := api.Operator expression;
     common.Value := api.Value expression |}.

Definition buildJSONPatternExpressions (authConfig : api.AuthConfig)
    (patterns : list api.JSONPattern) : list common.JSONPatternMatchingRule :=
  foldl (λ expressions pattern,
           let expressionsToAdd : list api.JSONPatternExpression :=
             match api.Patterns (api.Spec authConfig) !! api.JSONPatternName pattern with
             | Some expressionsByRef => [] ++ expressionsByRef
             | None => [] ++ [api.JSONPatternExpression_ pattern]
             end in
           foldl (λ expressions expression, expressions ++ [toRule expression])
                 expressions expressionsToAdd)
        [] patterns.

(** The loop that turns API properties into [common.JSONProperty], as it
    is repeated for extended properties, parameters, headers and claims. *)
Definition buildJSONProperties (properties : list api.JsonProperty) : list common.JSONProperty :=
  foldl (λ acc property,
           acc ++ [ {| common.Name := api.jp_Name property;
                       common.Value_ :=
                         {| common.Static := api.jp_Value property;
                            common.Pattern := api.AuthJSON (api.jp_ValueFrom property) |} |} ])
        [] properties.

Definition toJSONValue (v : api.StaticOrDynamicValue) : common.JSONValue :=
  {| common.Static := api.sd_Value v;
     common.Pattern := api.AuthJSON (api.sd_ValueFrom v) |}.

(** [int32(x)] on an [int64]. *)
Definition int32 (z : Z) : Z := ((z + 2 ^ 31) `mod` 2 ^ 32 - 2 ^ 31)%Z.

Definition buildAuthorinoDenyWithValues (denyWithSpec : option api.DenyWithSpec)
  : option config.DenyWithValues :=
  match denyWithSpec with
  | None => None
  | Some denyWithSpec =>
      let headers := buildJSONProperties (api.dw_Headers denyWithSpec) in
      Some {| config.dv_Code := int32 (api.dw_Code denyWithSpec);
              config.dv_Message := api.dw_Message denyWithSpec;
              config.dv_Headers := headers |}
  end.

Fixpoint findIdentityConfigByName (identityConfigs : list config.IdentityConfig) (name : string)
  : result config.IdentityConfig :=
  match identityConfigs with
  | [] => Err (Errorf "missing identity config " name)
  | id :: rest =>
      if decide (config.id_Name id = name) then Ok id
      else findIdentityConfigByName rest name
  end.

Definition getSecret (env : Env) (namespace name : string) : T v1.Secret :=
  try (client.Get (Client env) namespace name).

(** *** translateAuthConfig, one loop body at a time *)

Definition translateIdentity (r : AuthConfigReconciler) (env : Env)
    (authConfig : api.AuthConfig) (identity : api.Identity) : T config.IdentityConfig :=
  let extendedProperties := buildJSONProperties (api.id_ExtendedProperties identity) in
  h <~ new ;;
  let translated oauth2 oidc apiKey kubernetesAuth noop :=
    {| config.id_handle := h;
       config.id_Name := api.id_Name identity;
       config.id_Priority := api.id_Priority identity;
       config.id_Conditions := buildJSONPatternExpressions authConfig (api.id_Conditions identity);
       config.id_ExtendedProperties := extendedProperties;
       config.id_Metrics := api.id_Metrics identity;
       config.id_OAuth2 := oauth2; config.id_OIDC := oidc; config.id_APIKey := apiKey;
       config.id_KubernetesAuth := kubernetesAuth; config.id_Noop := noop |} in
  let authCred := NewAuthCredential env (api.KeySelector (api.id_Credentials identity))
                                    (api.In (api.id_Credentials identity)) in
  match api.id_Method identity with
  | api.OAuth2 TokenIntrospectionUrl TokenTypeHint CredentialsName =>
      secret <~ getSecret env (api.Namespace authConfig) CredentialsName ;;
      ret (translated
             (Some {| config.oa_TokenIntrospectionUrl := TokenIntrospectionUrl;
                      config.oa_TokenTypeHint := TokenTypeHint;
                      config.oa_ClientID := v1.datum secret "clientID";
                      config.oa_ClientSecret := v1.datum secret "clientSecret";
                      config.oa_creds := authCred |})
             None None None None)
  | api.Oidc Endpoint TTL =>
      o <~ in_world (oidc.NewOIDC (NewProvider env) (cron_accepts env) Endpoint authCred TTL) ;;
      ret (translated None (Some o) None None None)
  | api.APIKey LabelSelectors AllNamespaces =>
      let namespace :=
        if AllNamespaces && ClusterWide r then "" else api.Namespace authConfig in
      let '(apiKey, logged) :=
        api_key.NewApiKeyIdentity (api.id_Name identity) LabelSelectors namespace authCred
                                  (Client env) in
      _ <~ logs logged ;;
      ret (translated None None (Some apiKey) None None)
  | api.KubernetesAuth Audiences =>
      k8sAuthConfig <~ try (NewKubernetesAuthIdentity env authCred Audiences) ;;
      ret (translated None None None (Some k8sAuthConfig) None)
  | api.Anonymous =>
      ret (translated None None None None (Some {| config.noop_creds := authCred |}))
  | api.IdentityUnknown =>
      fail (Errorf "unknown identity type " (api.id_Name identity))
  end.

Definition translateMetadata (env : Env) (authConfig : api.AuthConfig)
    (identityConfigs : list config.IdentityConfig) (metadata : api.Metadata)
  : T config.MetadataConfig :=
  h <~ new ;;
  let translated uma userInfo genericHTTP :=
    {| config.md_handle := h;
       config.md_Name := api.md_Name metadata;
       config.md_Priority := api.md_Priority metadata;
       config.md_Conditions := buildJSONPatternExpressions authConfig (api.md_Conditions metadata);
       config.md_Metrics := api.md_Metrics metadata;
       config.md_UMA := uma; config.md_UserInfo := userInfo;
       config.md_GenericHTTP := genericHTTP |} in
  match api.md_Method metadata with
  | api.UMA Endpoint CredentialsName =>
      secret <~ getSecret env (api.Namespace authConfig) CredentialsName ;;
      uma <~ try (NewUMAMetadata env Endpoint (v1.datum secret "clientID")
                                 (v1.datum secret "clientSecret")) ;;
      ret (translated (Some uma) None None)
  | api.UserInfo IdentitySource =>
      idConfig <~ try (findIdentityConfigByName identityConfigs IdentitySource) ;;
      ret (translated None (Some {| config.ui_OIDC := config.id_OIDC idConfig |}) None)
  | api.GenericHTTP Endpoint Method Parameters Headers ContentType sharedSecretRef creds =>
      sharedSecret <~ match sharedSecretRef with
                      | Some ref =>
                          secret <~ getSecret env (api.Namespace authConfig) (api.skr_Name ref) ;;
                          ret (v1.datum secret (api.skr_Key ref))
                      | None => ret ""
                      end ;;
      let params := buildJSONProperties Parameters in
      let headers := buildJSONProperties Headers in
      ret (translated None None
             (Some {| config.gh_Endpoint := Endpoint;
                      config.gh_Method := Method;
                      config.gh_Parameters := params;
                      config.gh_Headers := headers;
                      config.gh_ContentType := ContentType;
                      config.gh_SharedSecret := sharedSecret;
                      config.gh_creds :=
                        NewAuthCredential env (api.KeySelector creds) (api.In creds) |}))
  | api.MetadataUnknown =>
      fail (Errorf "unknown metadata type " (api.md_Name metadata))
  end.

Definition translateAuthorization (env : Env) (authConfig : api.AuthConfig)
    (index : nat) (authorization : api.Authorization) : T config.AuthorizationConfig :=
  h <~ new ;;
  let translated opa json kubernetesAuthz :=
    {| config.az_handle := h;
       config.az_Name := api.az_Name authorization;
       config.az_Priority := api.az_Priority authorization;
       config.az_Conditions :=
         buildJSONPatternExpressions authConfig (api.az_Conditions authorization);
       config.az_Metrics := api.az_Metrics authorization;
       config.az_OPA := opa; config.az_JSON := json;
       config.az_KubernetesAuthz := kubernetesAuthz |} in
  match api.az_Method authorization with
  | api.OPA InlineRego externalRegistry AllValues =>
      let policyName := api.Namespace authConfig +:+ "/" +:+ api.Name authConfig +:+ "/"
                        +:+ api.az_Name authorization in
      sharedSecret <~ match api.er_SharedSecret externalRegistry with
                      | Some ref =>
                          secret <~ getSecret env (api.Namespace authConfig) (api.skr_Name ref) ;;
                          ret (v1.datum secret (api.skr_Key ref))
                      | None => ret ""
                      end ;;
      let externalSource :=
        {| config.xs_Endpoint := api.er_Endpoint externalRegistry;
           config.xs_SharedSecret := sharedSecret;
           config.xs_creds :=
             NewAuthCredential env (api.KeySelector (api.er_Credentials externalRegistry))
                                   (api.In (api.er_Credentials externalRegistry));
           config.xs_TTL := api.er_TTL externalRegistry |} in
      opa <~ try (NewOPAAuthorization env policyName InlineRego externalSource AllValues index) ;;
      ret (translated (Some opa) None None)
  | api.JSONPatternMatching Rules =>
      ret (translated None
             (Some {| config.Rules := buildJSONPatternExpressions authConfig Rules |}) None)
  | api.KubernetesAuthz user Groups resourceAttributes =>
      let authorinoUser := toJSONValue user in
      let authorinoResourceAttributes :=
        match resourceAttributes with
        | Some ra =>
            Some {| config.kra_Namespace := toJSONValue (api.ra_Namespace ra);
                    config.kra_Group := toJSONValue (api.ra_Group ra);
                    config.kra_Resource := toJSONValue (api.ra_Resource ra);
                    config.kra_Name := toJSONValue (api.ra_Name ra);
                    config.kra_SubResource := toJSONValue (api.ra_SubResource ra);
                    config.kra_Verb := toJSONValue (api.ra_Verb ra) |}
        | None => None
        end in
      kz <~ try (NewKubernetesAuthz env authorinoUser Groups authorinoResourceAttributes) ;;
      ret (translated None None (Some kz))
  | api.AuthorizationUnknown =>
      fail (Errorf "unknown authorization type " (api.az_Name authorization))
  end.

Definition translateSigningKey (env : Env) (authConfig : api.AuthConfig)
    (signingKeyRef : api.SigningKeyRef) : T config.JSONWebKey :=
  secret <~ getSecret env (api.Namespace authConfig) (api.sk_Name signingKeyRef) ;;
  try (NewSigningKey env (api.sk_Name signingKeyRef) (api.sk_Algorithm signingKeyRef)
                     (v1.datum secret "key.pem")).

Definition translateResponse (env : Env) (authConfig : api.AuthConfig)
    (response : api.Response) : T config.ResponseConfig :=
  h <~ new ;;
  let translated wristband dynamicJSON :=
    {| config.rs_handle := h;
       config.rs_Name := api.rs_Name response;
       config.rs_Priority := api.rs_Priority response;
       config.rs_Conditions := buildJSONPatternExpressions authConfig (api.rs_Conditions response);
       config.rs_Wrapper := api.rs_Wrapper response;
       config.rs_WrapperKey := api.rs_WrapperKey response;
       config.rs_Metrics := api.rs_Metrics response;
       config.rs_Wristband := wristband; config.rs_DynamicJSON := dynamicJSON |} in
  match api.rs_Method response with
  | api.Wristband Issuer CustomClaims TokenDuration SigningKeyRefs =>
      signingKeys <~ range_append (λ _, translateSigningKey env authConfig) 0 SigningKeyRefs [] ;;
      let customClaims := buildJSONProperties CustomClaims in
      authorinoWristband <~
        try (NewWristbandConfig env Issuer customClaims TokenDuration signingKeys) ;;
      ret (translated (Some authorinoWristband) None)
  | api.DynamicJSON Properties =>
      let jsonProperties := buildJSONProperties Properties in
      ret (translated None (Some {| config.dj_Properties := jsonProperties |}))
  | api.ResponseUnknown =>
      fail (Errorf "unknown response type " (api.rs_Name response))
  end.

Definition translateAuthConfig (r : AuthConfigReconciler) (env : Env)
    (authConfig : api.AuthConfig) : T (gmap string config.APIConfig) :=
  let spec := api.Spec authConfig in
  identityConfigs <~
    range_append (λ _, translateIdentity r env authConfig) 0 (api.Identity_ spec) [] ;;
  metadataConfigs <~
    range_append (λ _, translateMetadata env authConfig identityConfigs) 0
                 (api.Metadata_ spec) [] ;;
  authorizationConfigs <~
    range_append (translateAuthorization env authConfig) 0 (api.Authorization_ spec) [] ;;
  responseConfigs <~
    range_append (λ _, translateResponse env authConfig) 0 (api.Response_ spec) [] ;;
  let denied (pick : api.DenyWith -> option api.DenyWithSpec) :=
    match api.DenyWith_ spec with
    | Some denyWith => buildAuthorinoDenyWithValues (pick denyWith)
    | None => None
    end in
  let apiConfig :=
    {| config.Conditions := buildJSONPatternExpressions authConfig (api.Conditions spec);
       config.IdentityConfigs := identityConfigs;
       config.MetadataConfigs := metadataConfigs;
       config.AuthorizationConfigs := authorizationConfigs;
       config.ResponseConfigs := responseConfigs;
       config.Labels := {[ "namespace" := api.Namespace authConfig;
                           "name" := api.Name authConfig ]};
       config.Unauthenticated := denied api.Unauthenticated;
       config.Unauthorized := denied api.Unauthorized |} in
  ret (foldl (λ config host, <[host := apiConfig]> config) ∅ (api.Hosts spec)).

(** *** Reconcile *)

Definition cleanConfigs (cacheId : string) (s : State) : option error * State :=
  match cache.FindKeys cacheId (Cache s) with
  | host0 :: _ =>
      (* no need to clean for all the hosts as the config should be the same *)
      match cache.Get host0 (Cache s) with
      | Some authConfig =>
          let '(err, cleaned, w) := config.Clean authConfig (cleaned s) (world s) in
          (err, {| Cache := Cache s; world := w; cleaned := cleaned;
                   next_handle := next_handle s |})
      | None => (None, s)
      end
  | [] => (None, s)
  end.

(** [if err := r.cleanConfigs(cacheId, ctx); err != nil { logger.Error(...) }] *)
Definition cleanAndLog (cacheId : string) (s : State) : State :=
  match cleanConfigs cacheId s with
  | (Some err, s) => logger_Error failedToCleanConfig s
  | (None, s) => s
  end.

(** The check for a host collision with another namespace: the host is
    bound, and what precedes the separator in its configId is not the
    namespace of the request. *)
Definition taken (req : NamespacedName) (host : string) (c : cache.Cache config.APIConfig)
  : bool :=
  match cache.FindId host c with
  | Some cachedKey => bool_decide (cache.split_head cachedKey ≠ nn_Namespace req)
  | None => false
  end.

(** The loop [for host, apiConfig := range authConfigByHost], visiting the
    hosts in [order].  [Some r]: the loop returned [r] from [Reconcile];
    [None]: it ran to its end. *)
Fixpoint bindHosts (req : NamespacedName) (cacheId : string)
    (authConfigByHost : gmap string config.APIConfig) (order : list string) (s : State)
  : option (option error) * State :=
  match order with
  | [] => (None, s)
  | host :: order =>
      match authConfigByHost !! host with
      | None => bindHosts req cacheId authConfigByHost order s
      | Some apiConfig =>
          if taken req host (Cache s)
          then (Some None, logger_Info "host already taken in another namespace" s)
          else
            match cache.Set_ cacheId host apiConfig true (Cache s) with
            | (Some err, c) => (Some (Some err), set_Cache c s)
            | (None, c) => bindHosts req cacheId authConfigByHost order (set_Cache c s)
            end
      end
  end.

(** [order]: the order in which the range over the translated map visits
    the hosts. *)
Definition Reconcile (r : AuthConfigReconciler) (env : Env) (order : list string)
    (req : NamespacedName) (s : State) : option error * State :=
  let cacheId := NamespacedName_String req in
  let delete (s : State) :=
    let s := cleanAndLog cacheId s in
    let s := set_Cache (cache.Delete cacheId (Cache s)) s in
    (None, logger_Info "resource reconciled" s) in
  match GetAuthConfig env req with
  | GetFailed err => (Some err, s)
  | NotFound _ => delete s
  | Found authConfig =>
      if negb (Watched (api.Labels authConfig) (LabelSelector r)) then delete s
      else
        let s := cleanAndLog cacheId s in
        match translateAuthConfig r env authConfig s with
        | (Err err, s) => (Some err, s)
        | (Ok authConfigByHost, s) =>
            match bindHosts req cacheId authConfigByHost order s with
            | (Some returned, s) => (returned, s)
            | (None, s) => (None, logger_Info "resource reconciled" s)
            end
        end
  end.

End controllers.

(** ** The life of an OIDC evaluator *)

Module oidc_life.

(** What happens to an evaluator after its construction: the refresher
    ticks, and the pipeline calls [Call], [GetURL] (through the UserInfo
    metadata) or verifies a token.  Each event comes with the answer the
    network would give to a discovery request at that time. *)
Inductive action : Type :=
| Tick
| DoCall (http : HttpRequest) (ctx : Context)
| DoGetURL (name : string) (ctx : Context)
| DoVerify (accessToken : string) (ctx : Context).

Record event := {
  network : string -> result oidc.Provider;
  does : action;
}.

Definition step (url_Parse : string -> result string) (e : event)
    (st : oidc.OIDC * oidc.World) : oidc.OIDC * oidc.World :=
  let '(o, w) := st in
  match does e with
  | Tick => oidc.refresh (network e) o w
  | DoCall http ctx => let '(_, o, w) := oidc.Call (network e) http ctx o w in (o, w)
  | DoGetURL name ctx => let '(_, o, w) := oidc.GetURL (network e) url_Parse name ctx o w in (o, w)
  | DoVerify accessToken ctx =>
      let '(_, o, w) := oidc.verifyToken (network e) accessToken ctx o w in (o, w)
  end.

Definition run (url_Parse : string -> result string) (events : list event)
    (st : oidc.OIDC * oidc.World) : oidc.OIDC * oidc.World :=
  foldl (λ st e, step url_Parse e st) st events.

Definition discovery_fails (e : event) : Prop :=
  ∀ endpoint, ∃ err, network e endpoint = Err err.

End oidc_life.

(** ** api/v1beta1/zz_generated.deepcopy.go *)

Module v1beta1.

(** *** The heap, as far as copying goes *)

(** Every pointer target, slice backing array and map is a cell of the heap,
    known by its address.  A value is written with the contents of the cells
    it reaches in place: two references to the same cell carry the same
    address. *)
Definition addr := nat.

Inductive ptr (A : Type) : Type :=
| nil_ptr
| Ptr (a : addr) (target : A).
Arguments nil_ptr {A}.
Arguments Ptr {A} a target.

Inductive slice (A : Type) : Type :=
| nil_slice
| Slice (a : addr) (elems : list A).
Arguments nil_slice {A}.
Arguments Slice {A} a elems.

(** A map with string keys; the entries are listed in the order in which a
    range visits them. *)
Inductive gomap (A : Type) : Type :=
| nil_map
| Map (a : addr) (entries : list (string * A)).
Arguments nil_map {A}.
Arguments Map {A} a entries.

(** The shape of a value, whatever its type: scalars, structs held by value,
    and references to cells. *)
Inductive scalar : Type :=
| SString (s : string)
| SInt (z : Z)
| SBool (b : bool).

Inductive kind : Type := KPtr | KSlice | KMap.

Inductive node : Type :=
| NScalar (s : scalar)
| NStruct (fields : list node)
| NNil
| NRef (k : kind) (a : addr) (contents : list node).

(** The cells a value reaches. *)
Fixpoint addrs (x : node) : list addr :=
  match x with
  | NScalar _ | NNil => []
  | NStruct fields => flat_map addrs fields
  | NRef _ a contents => a :: flat_map addrs contents
  end.

(** The value with its addresses forgotten: two values are structurally
    equal when they agree up to the addresses of their cells. *)
Fixpoint erase (x : node) : node :=
  match x with
  | NScalar _ | NNil => x
  | NStruct fields => NStruct (map erase fields)
  | NRef k _ contents => NRef k 0 (map erase contents)
  end.

(** A write through a reference to the cell [a]: the cell gets new
    contents, and so does every value that reaches it. *)
Fixpoint write (a : addr) (contents' : list node) (x : node) : node :=
  match x with
  | NScalar _ | NNil => x
  | NStruct fields => NStruct (map (write a contents') fields)
  | NRef k b contents =>
      if decide (b = a) then NRef k b contents'
      else NRef k b (map (write a contents') contents)
  end.

Class Reify (A : Type) := reify : A -> node.
#[global] Hint Mode Reify ! : typeclass_instances.

(** Types whose values hold no reference: copying them bit by bit shares
    nothing. *)
Class Plain (A : Type) `{Reify A} := plain : ∀ x : A, addrs (reify x) = [].
#[global] Hint Mode Plain ! - : typeclass_instances.

#[global] Instance reify_node : Reify node := λ x, x.
#[global] Instance reify_string : Reify string := λ s, NScalar (SString s).
#[global] Instance reify_Z : Reify Z := λ z, NScalar (SInt z).
#[global] Instance reify_bool : Reify bool := λ b, NScalar (SBool b).
#[global] Instance reify_ptr `{Reify A} : Reify (ptr A) := λ p,
  match p with
  | nil_ptr => NNil
  | Ptr a target => NRef KPtr a [reify target]
  end.
#[global] Instance reify_slice `{Reify A} : Reify (slice A) := λ s,
  match s with
  | nil_slice => NNil
  | Slice a elems => NRef KSlice a (map reify elems)
  end.
#[global] Instance reify_entry `{Reify A} : Reify (string * A) := λ e,
  NStruct [reify e.1; reify e.2].
#[global] Instance reify_gomap `{Reify A} : Reify (gomap A) := λ m,
  match m with
  | nil_map => NNil
  | Map a entries => NRef KMap a (map reify entries)
  end.
#[global] Instance reify_scalars : Reify (list scalar) := λ l, NStruct (map NScalar l).

(** *** Allocation *)

(** [new] and [make] take the next unused address. *)
Definition M (A : Type) : Type := addr -> A * addr.

Definition ret {A} (x : A) : M A := λ n, (x, n).
Definition bind {A B} (m : M A) (k : A -> M B) : M B :=
  λ n, let '(x, n) := m n in k x n.
Definition alloc : M addr := λ n, (n, S n).

Notation "x <- m ;; k" := (bind m (λ x, k))
  (at level 100, m at next level, right associativity).

(** A [for i := range] over the elements of a slice. *)
Definition each {A B} (body : A -> M B) : list A -> M (list B) :=
  fix each (l : list A) : M (list B) :=
    match l with
    | [] => ret []
    | x :: l => y <- body x ;; l' <- each l ;; ret (y :: l')
    end.

(** A slice of values copied with [make] and [copy], under [if in != nil]. *)
Definition copy_slice {A} (s : slice A) : M (slice A) :=
  match s with
  | nil_slice => ret nil_slice
  | Slice _ elems => a <- alloc ;; ret (Slice a elems)
  end.

(** A slice copied with [make] and a loop that calls [DeepCopyInto] on
    each element. *)
Definition deepcopy_slice {A} (DeepCopyInto : A -> M A) (s : slice A) : M (slice A) :=
  match s with
  | nil_slice => ret nil_slice
  | Slice _ elems => a <- alloc ;; elems' <- each DeepCopyInto elems ;; ret (Slice a elems')
  end.

(** A pointer copied with [new] and an assignment of the target, under
    [if in != nil]. *)
Definition copy_ptr {A} (p : ptr A) : M (ptr A) :=
  match p with
  | nil_ptr => ret nil_ptr
  | Ptr _ target => a <- alloc ;; ret (Ptr a target)
  end.

(** A pointer copied with [new] and [DeepCopyInto] of the target. *)
Definition deepcopy_ptr {A} (DeepCopyInto : A -> M A) (p : ptr A) : M (ptr A) :=
  match p with
  | nil_ptr => ret nil_ptr
  | Ptr _ target => a <- alloc ;; target' <- DeepCopyInto target ;; ret (Ptr a target')
  end.

Definition copy_entry {A} (copy : A -> M A) (e : string * A) : M (string * A) :=
  val <- copy e.2 ;; ret (e.1, val).

(** A map copied with [make] and a range that stores a copy of each value
    under its key. *)
Definition deepcopy_map {A} (copy : A -> M A) (m : gomap A) : M (gomap A) :=
  match m with
  | nil_map => ret nil_map
  | Map _ entries =>
      a <- alloc ;;
      entries' <- each (copy_entry copy) entries ;;
      ret (Map a entries')
  end.

(** The deep copies of the types of k8s.io/apimachinery and k8s.io/api
    ([ObjectMeta], [metav1.Time], [metav1.LabelSelector],
    [runtime.RawExtension]): a value of such a type is any shape, and its
    [DeepCopyInto] copies every cell it reaches. *)
Definition external := node.

Fixpoint external_DeepCopyInto (x : external) : M external :=
  match x with
  | NScalar _ | NNil => ret x
  | NStruct fields =>
      fields' <- each external_DeepCopyInto fields ;;
      ret (NStruct fields')
  | NRef k _ contents =>
      a <- alloc ;;
      contents' <- each external_DeepCopyInto contents ;;
      ret (NRef k a contents')
  end.

(** *** The API types, as the generated code shows them *)

(** The generated [DeepCopyInto] of a struct starts with the assignment of
    the whole struct and then deals with every field that is not a scalar:
    a field that holds a reference is copied under [if in.X != nil], a
    struct field that holds references is copied by its own [DeepCopyInto],
    and a struct field without references is assigned once more.  The
    records below have those fields, in the order of the code, and gather
    the scalar fields, which the code does not name, in a last field.  A
    struct of scalars only is a list of scalars. *)

Abbreviation ValueFrom := (list scalar) (only parsing).
Abbreviation JSONPatternRef := (list scalar) (only parsing).
Abbreviation JSONPatternExpression := (list scalar) (only parsing).
Abbreviation Credentials := (list scalar) (only parsing).
Abbreviation SecretKeyReference := (list scalar) (only parsing).
Abbreviation SigningKeyRef := (list scalar) (only parsing).
Abbreviation LocalObjectReference := (list scalar) (only parsing).
Abbreviation Identity_OidcConfig := (list scalar) (only parsing).
Abbreviation Identity_Anonymous := (list scalar) (only parsing).
Abbreviation Identity_Plain := (list scalar) (only parsing).
Abbreviation Metadata_UserInfo := (list scalar) (only parsing).
Abbreviation TypeMeta := (list scalar) (only parsing).
Abbreviation GenericHTTP_Method := string (only parsing).

Record StaticOrDynamicValue := {
  StaticOrDynamicValue__ValueFrom : ValueFrom;
  StaticOrDynamicValue__scalars : list scalar;
}.

#[global] Instance reify_StaticOrDynamicValue : Reify StaticOrDynamicValue := λ x,
  NStruct [reify (StaticOrDynamicValue__ValueFrom x); reify (StaticOrDynamicValue__scalars x)].

Definition StaticOrDynamicValue_DeepCopyInto
  (in_ : StaticOrDynamicValue) : M StaticOrDynamicValue :=
  ret in_.

Record JSONPattern := {
  JSONPattern__JSONPatternRef : JSONPatternRef;
  JSONPattern__JSONPatternExpression : JSONPatternExpression;
  JSONPattern__scalars : list scalar;
}.

#[global] Instance reify_JSONPattern : Reify JSONPattern := λ x,
  NStruct [reify (JSONPattern__JSONPatternRef x); reify (JSONPattern__JSONPatternExpression x);
           reify (JSONPattern__scalars x)].

Definition JSONPattern_DeepCopyInto (in_ : JSONPattern) : M JSONPattern :=
  ret in_.

Record EvaluatorCaching := {
  EvaluatorCaching__Key : StaticOrDynamicValue;
  EvaluatorCaching__scalars : list scalar;
}.

#[global] Instance reify_EvaluatorCaching : Reify EvaluatorCaching := λ x,
  NStruct [reify (EvaluatorCaching__Key x); reify (EvaluatorCaching__scalars x)].

Definition EvaluatorCaching_DeepCopyInto (in_ : EvaluatorCaching) : M EvaluatorCaching :=
  ret in_.

Record JsonProperty := {
  JsonProperty__Value : external;
  JsonProperty__ValueFrom : ValueFrom;
  JsonProperty__scalars : list scalar;
}.

#[global] Instance reify_JsonProperty : Reify JsonProperty := λ x,
  NStruct [reify (JsonProperty__Value x); reify (JsonProperty__ValueFrom x);
           reify (JsonProperty__scalars x)].

Definition JsonProperty_DeepCopyInto (in_ : JsonProperty) : M JsonProperty :=
  Value' <- external_DeepCopyInto (JsonProperty__Value in_) ;;
  ret {| JsonProperty__Value := Value'; JsonProperty__ValueFrom := JsonProperty__ValueFrom in_;
         JsonProperty__scalars := JsonProperty__scalars in_ |}.

Record Identity_OAuth2Config := {
  Identity_OAuth2Config__Credentials : ptr LocalObjectReference;
  Identity_OAuth2Config__scalars : list scalar;
}.

#[global] Instance reify_Identity_OAuth2Config : Reify Identity_OAuth2Config := λ x,
  NStruct [reify (Identity_OAuth2Config__Credentials x);
           reify (Identity_OAuth2Config__scalars x)].

Definition Identity_OAuth2Config_DeepCopyInto
  (in_ : Identity_OAuth2Config) : M Identity_OAuth2Config :=
  Credentials' <- copy_ptr (Identity_OAuth2Config__Credentials in_) ;;
  ret {| Identity_OAuth2Config__Credentials := Credentials';
         Identity_OAuth2Config__scalars := Identity_OAuth2Config__scalars in_ |}.

Record Identity_APIKey := {
  Identity_APIKey__Selector : ptr external;
  Identity_APIKey__scalars : list scalar;
}.

#[global] Instance reify_Identity_APIKey : Reify Identity_APIKey := λ x,
  NStruct [reify (Identity_APIKey__Selector x); reify (Identity_APIKey__scalars x)].

Definition Identity_APIKey_DeepCopyInto (in_ : Identity_APIKey) : M Identity_APIKey :=
  Selector' <- deepcopy_ptr external_DeepCopyInto (Identity_APIKey__Selector in_) ;;
  ret {| Identity_APIKey__Selector := Selector';
         Identity_APIKey__scalars := Identity_APIKey__scalars in_ |}.

Record Identity_MTLS := {
  Identity_MTLS__Selector : ptr external;
  Identity_MTLS__scalars : list scalar;
}.

#[global] Instance reify_Identity_MTLS : Reify Identity_MTLS := λ x,
  NStruct [reify (Identity_MTLS__Selector x); reify (Identity_MTLS__scalars x)].

Definition Identity_MTLS_DeepCopyInto (in_ : Identity_MTLS) : M Identity_MTLS :=
  Selector' <- deepcopy_ptr external_DeepCopyInto (Identity_MTLS__Selector in_) ;;
  ret {| Identity_MTLS__Selector := Selector';
         Identity_MTLS__scalars := Identity_MTLS__scalars in_ |}.

Record Identity_KubernetesAuth := {
  Identity_KubernetesAuth__Audiences : slice string;
  Identity_KubernetesAuth__scalars : list scalar;
}.

#[global] Instance reify_Identity_KubernetesAuth : Reify Identity_KubernetesAuth := λ x,
  NStruct [reify (Identity_KubernetesAuth__Audiences x);
           reify (Identity_KubernetesAuth__scalars x)].

Definition Identity_KubernetesAuth_DeepCopyInto
  (in_ : Identity_KubernetesAuth) : M Identity_KubernetesAuth :=
  Audiences' <- copy_slice (Identity_KubernetesAuth__Audiences in_) ;;
  ret {| Identity_KubernetesAuth__Audiences := Audiences';
         Identity_KubernetesAuth__scalars := Identity_KubernetesAuth__scalars in_ |}.

Record Identity := {
  Identity__Conditions : slice JSONPattern;
  Identity__Cache : ptr EvaluatorCaching;
  Identity__Credentials : Credentials;
  Identity__ExtendedProperties : slice JsonProperty;
  Identity__OAuth2 : ptr Identity_OAuth2Config;
  Identity__Oidc : ptr Identity_OidcConfig;
  Identity__APIKey : ptr Identity_APIKey;
  Identity__MTLS : ptr Identity_MTLS;
  Identity__KubernetesAuth : ptr Identity_KubernetesAuth;
  Identity__Anonymous : ptr Identity_Anonymous;
  Identity__Plain : ptr Identity_Plain;
  Identity__scalars : list scalar;
}.

#[global] Instance reify_Identity : Reify Identity := λ x,
  NStruct [reify (Identity__Conditions x); reify (Identity__Cache x);
           reify (Identity__Credentials x); reify (Identity__ExtendedProperties x);
           reify (Identity__OAuth2 x); reify (Identity__Oidc x); reify (Identity__APIKey x);
           reify (Identity__MTLS x); reify (Identity__KubernetesAuth x);
           reify (Identity__Anonymous x); reify (Identity__Plain x); reify (Identity__scalars x)].

Definition Identity_DeepCopyInto (in_ : Identity) : M Identity :=
  Conditions' <- copy_slice (Identity__Conditions in_) ;;
  Cache' <- copy_ptr (Identity__Cache in_) ;;
  ExtendedProperties' <-
    deepcopy_slice JsonProperty_DeepCopyInto (Identity__ExtendedProperties in_) ;;
  OAuth2' <- deepcopy_ptr Identity_OAuth2Config_DeepCopyInto (Identity__OAuth2 in_) ;;
  Oidc' <- copy_ptr (Identity__Oidc in_) ;;
  APIKey' <- deepcopy_ptr Identity_APIKey_DeepCopyInto (Identity__APIKey in_) ;;
  MTLS' <- deepcopy_ptr Identity_MTLS_DeepCopyInto (Identity__MTLS in_) ;;
  KubernetesAuth' <-
    deepcopy_ptr Identity_KubernetesAuth_DeepCopyInto (Identity__KubernetesAuth in_) ;;
  Anonymous' <- copy_ptr (Identity__Anonymous in_) ;;
  Plain' <- copy_ptr (Identity__Plain in_) ;;
  ret {| Identity__Conditions := Conditions'; Identity__Cache := Cache';
         Identity__Credentials := Identity__Credentials in_;
         Identity__ExtendedProperties := ExtendedProperties'; Identity__OAuth2 := OAuth2';
         Identity__Oidc := Oidc'; Identity__APIKey := APIKey'; Identity__MTLS := MTLS';
         Identity__KubernetesAuth := KubernetesAuth'; Identity__Anonymous := Anonymous';
         Identity__Plain := Plain'; Identity__scalars := Identity__scalars in_ |}.

Record Metadata_UMA := {
  Metadata_UMA__Credentials : ptr LocalObjectReference;
  Metadata_UMA__scalars : list scalar;
}.

#[global] Instance reify_Metadata_UMA : Reify Metadata_UMA := λ x,
  NStruct [reify (Metadata_UMA__Credentials x); reify (Metadata_UMA__scalars x)].

Definition Metadata_UMA_DeepCopyInto (in_ : Metadata_UMA) : M Metadata_UMA :=
  Credentials' <- copy_ptr (Metadata_UMA__Credentials in_) ;;
  ret {| Metadata_UMA__Credentials := Credentials';
         Metadata_UMA__scalars := Metadata_UMA__scalars in_ |}.

Record OAuth2ClientAuthentication := {
  OAuth2ClientAuthentication__ClientSecret : SecretKeyReference;
  OAuth2ClientAuthentication__Scopes : slice string;
  OAuth2ClientAuthentication__ExtraParams : gomap string;
  OAuth2ClientAuthentication__Cache : ptr bool;
  OAuth2ClientAuthentication__scalars : list scalar;
}.

#[global] Instance reify_OAuth2ClientAuthentication : Reify OAuth2ClientAuthentication := λ x,
  NStruct [reify (OAuth2ClientAuthentication__ClientSecret x);
           reify (OAuth2ClientAuthentication__Scopes x);
           reify (OAuth2ClientAuthentication__ExtraParams x);
           reify (OAuth2ClientAuthentication__Cache x);
           reify (OAuth2ClientAuthentication__scalars x)].

Definition OAuth2ClientAuthentication_DeepCopyInto
  (in_ : OAuth2ClientAuthentication) : M OAuth2ClientAuthentication :=
  Scopes' <- copy_slice (OAuth2ClientAuthentication__Scopes in_) ;;
  ExtraParams' <- deepcopy_map ret (OAuth2ClientAuthentication__ExtraParams in_) ;;
  Cache' <- copy_ptr (OAuth2ClientAuthentication__Cache in_) ;;
  ret {|
         OAuth2ClientAuthentication__ClientSecret := OAuth2ClientAuthentication__ClientSecret in_;
         OAuth2ClientAuthentication__Scopes := Scopes';
         OAuth2ClientAuthentication__ExtraParams := ExtraParams';
         OAuth2ClientAuthentication__Cache := Cache';
         OAuth2ClientAuthentication__scalars := OAuth2ClientAuthentication__scalars in_ |}.

Record Metadata_GenericHTTP := {
  Metadata_GenericHTTP__Method : ptr GenericHTTP_Method;
  Metadata_GenericHTTP__Body : ptr StaticOrDynamicValue;
  Metadata_GenericHTTP__Parameters : slice JsonProperty;
  Metadata_GenericHTTP__Headers : slice JsonProperty;
  Metadata_GenericHTTP__SharedSecret : ptr SecretKeyReference;
  Metadata_GenericHTTP__OAuth2 : ptr OAuth2ClientAuthentication;
  Metadata_GenericHTTP__Credentials : Credentials;
  Metadata_GenericHTTP__scalars : list scalar;
}.

#[global] Instance reify_Metadata_GenericHTTP : Reify Metadata_GenericHTTP := λ x,
  NStruct [reify (Metadata_GenericHTTP__Method x); reify (Metadata_GenericHTTP__Body x);
           reify (Metadata_GenericHTTP__Parameters x); reify (Metadata_GenericHTTP__Headers x);
           reify (Metadata_GenericHTTP__SharedSecret x); reify (Metadata_GenericHTTP__OAuth2 x);
           reify (Metadata_GenericHTTP__Credentials x); reify (Metadata_GenericHTTP__scalars x)].

Definition Metadata_GenericHTTP_DeepCopyInto
  (in_ : Metadata_GenericHTTP) : M Metadata_GenericHTTP :=
  Method' <- copy_ptr (Metadata_GenericHTTP__Method in_) ;;
  Body' <- copy_ptr (Metadata_GenericHTTP__Body in_) ;;
  Parameters' <-
    deepcopy_slice JsonProperty_DeepCopyInto (Metadata_GenericHTTP__Parameters in_) ;;
  Headers' <- deepcopy_slice JsonProperty_DeepCopyInto (Metadata_GenericHTTP__Headers in_) ;;
  SharedSecret' <- copy_ptr (Metadata_GenericHTTP__SharedSecret in_) ;;
  OAuth2' <-
    deepcopy_ptr OAuth2ClientAuthentication_DeepCopyInto (Metadata_GenericHTTP__OAuth2 in_) ;;
  ret {| Metadata_GenericHTTP__Method := Method'; Metadata_GenericHTTP__Body := Body';
         Metadata_GenericHTTP__Parameters := Parameters';
         Metadata_GenericHTTP__Headers := Headers';
         Metadata_GenericHTTP__SharedSecret := SharedSecret';
         Metadata_GenericHTTP__OAuth2 := OAuth2';
         Metadata_GenericHTTP__Credentials := Metadata_GenericHTTP__Credentials in_;
         Metadata_GenericHTTP__scalars := Metadata_GenericHTTP__scalars in_ |}.

Record Metadata := {
  Metadata__Conditions : slice JSONPattern;
  Metadata__Cache : ptr EvaluatorCaching;
  Metadata__UserInfo : ptr Metadata_UserInfo;
  Metadata__UMA : ptr Metadata_UMA;
  Metadata__GenericHTTP : ptr Metadata_GenericHTTP;
  Metadata__scalars : list scalar;
}.

#[global] Instance reify_Metadata : Reify Metadata := λ x,
  NStruct [reify (Metadata__Conditions x); reify (Metadata__Cache x);
           reify (Metadata__UserInfo x); reify (Metadata__UMA x);
           reify (Metadata__GenericHTTP x); reify (Metadata__scalars x)].

Definition Metadata_DeepCopyInto (in_ : Metadata) : M Metadata :=
  Conditions' <- copy_slice (Metadata__Conditions in_) ;;
  Cache' <- copy_ptr (Metadata__Cache in_) ;;
  UserInfo' <- copy_ptr (Metadata__UserInfo in_) ;;
  UMA' <- deepcopy_ptr Metadata_UMA_DeepCopyInto (Metadata__UMA in_) ;;
  GenericHTTP' <- deepcopy_ptr Metadata_GenericHTTP_DeepCopyInto (Metadata__GenericHTTP in_) ;;
  ret {| Metadata__Conditions := Conditions'; Metadata__Cache := Cache';
         Metadata__UserInfo := UserInfo'; Metadata__UMA := UMA';
         Metadata__GenericHTTP := GenericHTTP'; Metadata__scalars := Metadata__scalars in_ |}.

Record ExternalRegistry := {
  ExternalRegistry__SharedSecret : ptr SecretKeyReference;
  ExternalRegistry__Credentials : Credentials;
  ExternalRegistry__scalars : list scalar;
}.

#[global] Instance reify_ExternalRegistry : Reify ExternalRegistry := λ x,
  NStruct [reify (ExternalRegistry__SharedSecret x); reify (ExternalRegistry__Credentials x);
           reify (ExternalRegistry__scalars x)].

Definition ExternalRegistry_DeepCopyInto (in_ : ExternalRegistry) : M ExternalRegistry :=
  SharedSecret' <- copy_ptr (ExternalRegistry__SharedSecret in_) ;;
  ret {| ExternalRegistry__SharedSecret := SharedSecret';
         ExternalRegistry__Credentials := ExternalRegistry__Credentials in_;
         ExternalRegistry__scalars := ExternalRegistry__scalars in_ |}.

Record Authorization_OPA := {
  Authorization_OPA__ExternalRegistry : ExternalRegistry;
  Authorization_OPA__scalars : list scalar;
}.

#[global] Instance reify_Authorization_OPA : Reify Authorization_OPA := λ x,
  NStruct [reify (Authorization_OPA__ExternalRegistry x); reify (Authorization_OPA__scalars x)].

Definition Authorization_OPA_DeepCopyInto (in_ : Authorization_OPA) : M Authorization_OPA :=
  ExternalRegistry' <-
    ExternalRegistry_DeepCopyInto (Authorization_OPA__ExternalRegistry in_) ;;
  ret {| Authorization_OPA__ExternalRegistry := ExternalRegistry';
         Authorization_OPA__scalars := Authorization_OPA__scalars in_ |}.

Record Authorization_JSONPatternMatching := {
  Authorization_JSONPatternMatching__Rules : slice JSONPattern;
  Authorization_JSONPatternMatching__scalars : list scalar;
}.

#[global] Instance reify_Authorization_JSONPatternMatching :
  Reify Authorization_JSONPatternMatching := λ x,
  NStruct [reify (Authorization_JSONPatternMatching__Rules x);
           reify (Authorization_JSONPatternMatching__scalars x)].

Definition Authorization_JSONPatternMatching_DeepCopyInto
  (in_ : Authorization_JSONPatternMatching) : M Authorization_JSONPatternMatching :=
  Rules' <- copy_slice (Authorization_JSONPatternMatching__Rules in_) ;;
  ret {| Authorization_JSONPatternMatching__Rules := Rules';
         Authorization_JSONPatternMatching__scalars :=
           Authorization_JSONPatternMatching__scalars in_ |}.

Record Authorization_KubernetesAuthz_ResourceAttributes := {
  ResourceAttributes__Namespace : StaticOrDynamicValue;
  ResourceAttributes__Group : StaticOrDynamicValue;
  ResourceAttributes__Resource : StaticOrDynamicValue;
  ResourceAttributes__Name : StaticOrDynamicValue;
  ResourceAttributes__SubResource : StaticOrDynamicValue;
  ResourceAttributes__Verb : StaticOrDynamicValue;
  ResourceAttributes__scalars : list scalar;
}.

#[global] Instance reify_Authorization_KubernetesAuthz_ResourceAttributes :
  Reify Authorization_KubernetesAuthz_ResourceAttributes := λ x,
  NStruct [reify (ResourceAttributes__Namespace x); reify (ResourceAttributes__Group x);
           reify (ResourceAttributes__Resource x); reify (ResourceAttributes__Name x);
           reify (ResourceAttributes__SubResource x); reify (ResourceAttributes__Verb x);
           reify (ResourceAttributes__scalars x)].

Definition Authorization_KubernetesAuthz_ResourceAttributes_DeepCopyInto
  (in_ : Authorization_KubernetesAuthz_ResourceAttributes)
  : M Authorization_KubernetesAuthz_ResourceAttributes :=
  ret in_.

Record Authorization_KubernetesAuthz := {
  Authorization_KubernetesAuthz__User : StaticOrDynamicValue;
  Authorization_KubernetesAuthz__Groups : slice string;
  Authorization_KubernetesAuthz__ResourceAttributes :
    ptr Authorization_KubernetesAuthz_ResourceAttributes;
  Authorization_KubernetesAuthz__scalars : list scalar;
}.

#[global] Instance reify_Authorization_KubernetesAuthz :
  Reify Authorization_KubernetesAuthz := λ x,
  NStruct [reify (Authorization_KubernetesAuthz__User x);
           reify (Authorization_KubernetesAuthz__Groups x);
           reify (Authorization_KubernetesAuthz__ResourceAttributes x);
           reify (Authorization_KubernetesAuthz__scalars x)].

Definition Authorization_KubernetesAuthz_DeepCopyInto
  (in_ : Authorization_KubernetesAuthz) : M Authorization_KubernetesAuthz :=
  Groups' <- copy_slice (Authorization_KubernetesAuthz__Groups in_) ;;
  ResourceAttributes' <- copy_ptr (Authorization_KubernetesAuthz__ResourceAttributes in_) ;;
  ret {| Authorization_KubernetesAuthz__User := Authorization_KubernetesAuthz__User in_;
         Authorization_KubernetesAuthz__Groups := Groups';
         Authorization_KubernetesAuthz__ResourceAttributes := ResourceAttributes';
         Authorization_KubernetesAuthz__scalars := Authorization_KubernetesAuthz__scalars in_ |}.

Record AuthzedObject := {
  AuthzedObject__Name : StaticOrDynamicValue;
  AuthzedObject__Kind : StaticOrDynamicValue;
  AuthzedObject__scalars : list scalar;
}.

#[global] Instance reify_AuthzedObject : Reify AuthzedObject := λ x,
  NStruct [reify (AuthzedObject__Name x); reify (AuthzedObject__Kind x);
           reify (AuthzedObject__scalars x)].

Definition AuthzedObject_DeepCopyInto (in_ : AuthzedObject) : M AuthzedObject :=
  ret in_.

Record Authorization_Authzed := {
  Authorization_Authzed__SharedSecret : ptr SecretKeyReference;
  Authorization_Authzed__Subject : ptr AuthzedObject;
  Authorization_Authzed__Resource : ptr AuthzedObject;
  Authorization_Authzed__Permission : StaticOrDynamicValue;
  Authorization_Authzed__scalars : list scalar;
}.

#[global] Instance reify_Authorization_Authzed : Reify Authorization_Authzed := λ x,
  NStruct [reify (Authorization_Authzed__SharedSecret x);
           reify (Authorization_Authzed__Subject x); reify (Authorization_Authzed__Resource x);
           reify (Authorization_Authzed__Permission x); reify (Authorization_Authzed__scalars x)].

Definition Authorization_Authzed_DeepCopyInto
  (in_ : Authorization_Authzed) : M Authorization_Authzed :=
  SharedSecret' <- copy_ptr (Authorization_Authzed__SharedSecret in_) ;;
  Subject' <- copy_ptr (Authorization_Authzed__Subject in_) ;;
  Resource' <- copy_ptr (Authorization_Authzed__Resource in_) ;;
  ret {| Authorization_Authzed__SharedSecret := SharedSecret';
         Authorization_Authzed__Subject := Subject';
         Authorization_Authzed__Resource := Resource';
         Authorization_Authzed__Permission := Authorization_Authzed__Permission in_;
         Authorization_Authzed__scalars := Authorization_Authzed__scalars in_ |}.

Record Authorization := {
  Authorization__Conditions : slice JSONPattern;
  Authorization__Cache : ptr EvaluatorCaching;
  Authorization__OPA : ptr Authorization_OPA;
  Authorization__JSON : ptr Authorization_JSONPatternMatching;
  Authorization__KubernetesAuthz : ptr Authorization_KubernetesAuthz;
  Authorization__Authzed : ptr Authorization_Authzed;
  Authorization__scalars : list scalar;
}.

#[global] Instance reify_Authorization : Reify Authorization := λ x,
  NStruct [reify (Authorization__Conditions x); reify (Authorization__Cache x);
           reify (Authorization__OPA x); reify (Authorization__JSON x);
           reify (Authorization__KubernetesAuthz x); reify (Authorization__Authzed x);
           reify (Authorization__scalars x)].

Definition Authorization_DeepCopyInto (in_ : Authorization) : M Authorization :=
  Conditions' <- copy_slice (Authorization__Conditions in_) ;;
  Cache' <- copy_ptr (Authorization__Cache in_) ;;
  OPA' <- deepcopy_ptr Authorization_OPA_DeepCopyInto (Authorization__OPA in_) ;;
  JSON' <-
    deepcopy_ptr Authorization_JSONPatternMatching_DeepCopyInto (Authorization__JSON in_) ;;
  KubernetesAuthz' <-
    deepcopy_ptr Authorization_KubernetesAuthz_DeepCopyInto (Authorization__KubernetesAuthz in_) ;;
  Authzed' <- deepcopy_ptr Authorization_Authzed_DeepCopyInto (Authorization__Authzed in_) ;;
  ret {| Authorization__Conditions := Conditions'; Authorization__Cache := Cache';
         Authorization__OPA := OPA'; Authorization__JSON := JSON';
         Authorization__KubernetesAuthz := KubernetesAuthz'; Authorization__Authzed := Authzed';
         Authorization__scalars := Authorization__scalars in_ |}.

Record Response_Wristband := {
  Response_Wristband__CustomClaims : slice JsonProperty;
  Response_Wristband__TokenDuration : ptr Z;
  Response_Wristband__SigningKeyRefs : slice (ptr SigningKeyRef);
  Response_Wristband__scalars : list scalar;
}.

#[global] Instance reify_Response_Wristband : Reify Response_Wristband := λ x,
  NStruct [reify (Response_Wristband__CustomClaims x);
           reify (Response_Wristband__TokenDuration x);
           reify (Response_Wristband__SigningKeyRefs x); reify (Response_Wristband__scalars x)].

Definition Response_Wristband_DeepCopyInto (in_ : Response_Wristband) : M Response_Wristband :=
  CustomClaims' <-
    deepcopy_slice JsonProperty_DeepCopyInto (Response_Wristband__CustomClaims in_) ;;
  TokenDuration' <- copy_ptr (Response_Wristband__TokenDuration in_) ;;
  SigningKeyRefs' <- deepcopy_slice copy_ptr (Response_Wristband__SigningKeyRefs in_) ;;
  ret {| Response_Wristband__CustomClaims := CustomClaims';
         Response_Wristband__TokenDuration := TokenDuration';
         Response_Wristband__SigningKeyRefs := SigningKeyRefs';
         Response_Wristband__scalars := Response_Wristband__scalars in_ |}.

Record Response_DynamicJSON := {
  Response_DynamicJSON__Properties : slice JsonProperty;
  Response_DynamicJSON__scalars : list scalar;
}.

#[global] Instance reify_Response_DynamicJSON : Reify Response_DynamicJSON := λ x,
  NStruct [reify (Response_DynamicJSON__Properties x); reify (Response_DynamicJSON__scalars x)].

Definition Response_DynamicJSON_DeepCopyInto
  (in_ : Response_DynamicJSON) : M Response_DynamicJSON :=
  Properties' <-
    deepcopy_slice JsonProperty_DeepCopyInto (Response_DynamicJSON__Properties in_) ;;
  ret {| Response_DynamicJSON__Properties := Properties';
         Response_DynamicJSON__scalars := Response_DynamicJSON__scalars in_ |}.

Record Response_Plain := {
  Response_Plain__ValueFrom : ValueFrom;
  Response_Plain__scalars : list scalar;
}.

#[global] Instance reify_Response_Plain : Reify Response_Plain := λ x,
  NStruct [reify (Response_Plain__ValueFrom x); reify (Response_Plain__scalars x)].

Definition Response_Plain_DeepCopyInto (in_ : Response_Plain) : M Response_Plain :=
  ret in_.

Record Response := {
  Response__Conditions : slice JSONPattern;
  Response__Cache : ptr EvaluatorCaching;
  Response__Wristband : ptr Response_Wristband;
  Response__JSON : ptr Response_DynamicJSON;
  Response__Plain : ptr Response_Plain;
  Response__scalars : list scalar;
}.

#[global] Instance reify_Response : Reify Response := λ x,
  NStruct [reify (Response__Conditions x); reify (Response__Cache x);
           reify (Response__Wristband x); reify (Response__JSON x); reify (Response__Plain x);
           reify (Response__scalars x)].

Definition Response_DeepCopyInto (in_ : Response) : M Response :=
  Conditions' <- copy_slice (Response__Conditions in_) ;;
  Cache' <- copy_ptr (Response__Cache in_) ;;
  Wristband' <- deepcopy_ptr Response_Wristband_DeepCopyInto (Response__Wristband in_) ;;
  JSON' <- deepcopy_ptr Response_DynamicJSON_DeepCopyInto (Response__JSON in_) ;;
  Plain' <- copy_ptr (Response__Plain in_) ;;
  ret {| Response__Conditions := Conditions'; Response__Cache := Cache';
         Response__Wristband := Wristband'; Response__JSON := JSON'; Response__Plain := Plain';
         Response__scalars := Response__scalars in_ |}.

Record Callback := {
  Callback__Conditions : slice JSONPattern;
  Callback__HTTP : ptr Metadata_GenericHTTP;
  Callback__scalars : list scalar;
}.

#[global] Instance reify_Callback : Reify Callback := λ x,
  NStruct [reify (Callback__Conditions x); reify (Callback__HTTP x); reify (Callback__scalars x)].

Definition Callback_DeepCopyInto (in_ : Callback) : M Callback :=
  Conditions' <- copy_slice (Callback__Conditions in_) ;;
  HTTP' <- deepcopy_ptr Metadata_GenericHTTP_DeepCopyInto (Callback__HTTP in_) ;;
  ret {| Callback__Conditions := Conditions'; Callback__HTTP := HTTP';
         Callback__scalars := Callback__scalars in_ |}.

Record DenyWithSpec := {
  DenyWithSpec__Message : ptr StaticOrDynamicValue;
  DenyWithSpec__Headers : slice JsonProperty;
  DenyWithSpec__Body : ptr StaticOrDynamicValue;
  DenyWithSpec__scalars : list scalar;
}.

#[global] Instance reify_DenyWithSpec : Reify DenyWithSpec := λ x,
  NStruct [reify (DenyWithSpec__Message x); reify (DenyWithSpec__Headers x);
           reify (DenyWithSpec__Body x); reify (DenyWithSpec__scalars x)].

Definition DenyWithSpec_DeepCopyInto (in_ : DenyWithSpec) : M DenyWithSpec :=
  Message' <- copy_ptr (DenyWithSpec__Message in_) ;;
  Headers' <- deepcopy_slice JsonProperty_DeepCopyInto (DenyWithSpec__Headers in_) ;;
  Body' <- copy_ptr (DenyWithSpec__Body in_) ;;
  ret {| DenyWithSpec__Message := Message'; DenyWithSpec__Headers := Headers';
         DenyWithSpec__Body := Body'; DenyWithSpec__scalars := DenyWithSpec__scalars in_ |}.

Record DenyWith := {
  DenyWith__Unauthenticated : ptr DenyWithSpec;
  DenyWith__Unauthorized : ptr DenyWithSpec;
  DenyWith__scalars : list scalar;
}.

#[global] Instance reify_DenyWith : Reify DenyWith := λ x,
  NStruct [reify (DenyWith__Unauthenticated x); reify (DenyWith__Unauthorized x);
           reify (DenyWith__scalars x)].

Definition DenyWith_DeepCopyInto (in_ : DenyWith) : M DenyWith :=
  Unauthenticated' <- deepcopy_ptr DenyWithSpec_DeepCopyInto (DenyWith__Unauthenticated in_) ;;
  Unauthorized' <- deepcopy_ptr DenyWithSpec_DeepCopyInto (DenyWith__Unauthorized in_) ;;
  ret {| DenyWith__Unauthenticated := Unauthenticated'; DenyWith__Unauthorized := Unauthorized';
         DenyWith__scalars := DenyWith__scalars in_ |}.

Record AuthConfigSpec := {
  AuthConfigSpec__Hosts : slice string;
  AuthConfigSpec__Patterns : gomap (slice JSONPatternExpression);
  AuthConfigSpec__Conditions : slice JSONPattern;
  AuthConfigSpec__Identity : slice (ptr Identity);
  AuthConfigSpec__Metadata : slice (ptr Metadata);
  AuthConfigSpec__Authorization : slice (ptr Authorization);
  AuthConfigSpec__Response : slice (ptr Response);
  AuthConfigSpec__Callbacks : slice (ptr Callback);
  AuthConfigSpec__DenyWith : ptr DenyWith;
  AuthConfigSpec__scalars : list scalar;
}.

#[global] Instance reify_AuthConfigSpec : Reify AuthConfigSpec := λ x,
  NStruct [reify (AuthConfigSpec__Hosts x); reify (AuthConfigSpec__Patterns x);
           reify (AuthConfigSpec__Conditions x); reify (AuthConfigSpec__Identity x);
           reify (AuthConfigSpec__Metadata x); reify (AuthConfigSpec__Authorization x);
           reify (AuthConfigSpec__Response x); reify (AuthConfigSpec__Callbacks x);
           reify (AuthConfigSpec__DenyWith x); reify (AuthConfigSpec__scalars x)].

Definition AuthConfigSpec_DeepCopyInto (in_ : AuthConfigSpec) : M AuthConfigSpec :=
  Hosts' <- copy_slice (AuthConfigSpec__Hosts in_) ;;
  Patterns' <- deepcopy_map copy_slice (AuthConfigSpec__Patterns in_) ;;
  Conditions' <- copy_slice (AuthConfigSpec__Conditions in_) ;;
  Identity' <-
    deepcopy_slice (deepcopy_ptr Identity_DeepCopyInto) (AuthConfigSpec__Identity in_) ;;
  Metadata' <-
    deepcopy_slice (deepcopy_ptr Metadata_DeepCopyInto) (AuthConfigSpec__Metadata in_) ;;
  Authorization' <-
    deepcopy_slice (deepcopy_ptr Authorization_DeepCopyInto) (AuthConfigSpec__Authorization in_) ;;
  Response' <-
    deepcopy_slice (deepcopy_ptr Response_DeepCopyInto) (AuthConfigSpec__Response in_) ;;
  Callbacks' <-
    deepcopy_slice (deepcopy_ptr Callback_DeepCopyInto) (AuthConfigSpec__Callbacks in_) ;;
  DenyWith' <- deepcopy_ptr DenyWith_DeepCopyInto (AuthConfigSpec__DenyWith in_) ;;
  ret {| AuthConfigSpec__Hosts := Hosts'; AuthConfigSpec__Patterns := Patterns';
         AuthConfigSpec__Conditions := Conditions'; AuthConfigSpec__Identity := Identity';
         AuthConfigSpec__Metadata := Metadata'; AuthConfigSpec__Authorization := Authorization';
         AuthConfigSpec__Response := Response'; AuthConfigSpec__Callbacks := Callbacks';
         AuthConfigSpec__DenyWith := DenyWith';
         AuthConfigSpec__scalars := AuthConfigSpec__scalars in_ |}.

Record Summary := {
  Summary__HostsReady : slice string;
  Summary__scalars : list scalar;
}.

#[global] Instance reify_Summary : Reify Summary := λ x,
  NStruct [reify (Summary__HostsReady x); reify (Summary__scalars x)].

Definition Summary_DeepCopyInto (in_ : Summary) : M Summary :=
  HostsReady' <- copy_slice (Summary__HostsReady in_) ;;
  ret {| Summary__HostsReady := HostsReady'; Summary__scalars := Summary__scalars in_ |}.

Record Condition := {
  Condition__LastTransitionTime : external;
  Condition__LastUpdatedTime : ptr external;
  Condition__scalars : list scalar;
}.

#[global] Instance reify_Condition : Reify Condition := λ x,
  NStruct [reify (Condition__LastTransitionTime x); reify (Condition__LastUpdatedTime x);
           reify (Condition__scalars x)].

Definition Condition_DeepCopyInto (in_ : Condition) : M Condition :=
  LastTransitionTime' <- external_DeepCopyInto (Condition__LastTransitionTime in_) ;;
  LastUpdatedTime' <- deepcopy_ptr external_DeepCopyInto (Condition__LastUpdatedTime in_) ;;
  ret {| Condition__LastTransitionTime := LastTransitionTime';
         Condition__LastUpdatedTime := LastUpdatedTime';
         Condition__scalars := Condition__scalars in_ |}.

Record AuthConfigStatus := {
  AuthConfigStatus__Conditions : slice Condition;
  AuthConfigStatus__Summary : Summary;
  AuthConfigStatus__scalars : list scalar;
}.

#[global] Instance reify_AuthConfigStatus : Reify AuthConfigStatus := λ x,
  NStruct [reify (AuthConfigStatus__Conditions x); reify (AuthConfigStatus__Summary x);
           reify (AuthConfigStatus__scalars x)].

Definition AuthConfigStatus_DeepCopyInto (in_ : AuthConfigStatus) : M AuthConfigStatus :=
  Conditions' <- deepcopy_slice Condition_DeepCopyInto (AuthConfigStatus__Conditions in_) ;;
  Summary' <- Summary_DeepCopyInto (AuthConfigStatus__Summary in_) ;;
  ret {| AuthConfigStatus__Conditions := Conditions'; AuthConfigStatus__Summary := Summary';
         AuthConfigStatus__scalars := AuthConfigStatus__scalars in_ |}.

Record AuthConfig := {
  AuthConfig__TypeMeta : TypeMeta;
  AuthConfig__ObjectMeta : external;
  AuthConfig__Spec : AuthConfigSpec;
  AuthConfig__Status : AuthConfigStatus;
  AuthConfig__scalars : list scalar;
}.

#[global] Instance reify_AuthConfig : Reify AuthConfig := λ x,
  NStruct [reify (AuthConfig__TypeMeta x); reify (AuthConfig__ObjectMeta x);
           reify (AuthConfig__Spec x); reify (AuthConfig__Status x);
           reify (AuthConfig__scalars x)].

Definition AuthConfig_DeepCopyInto (in_ : AuthConfig) : M AuthConfig :=
  ObjectMeta' <- external_DeepCopyInto (AuthConfig__ObjectMeta in_) ;;
  Spec' <- AuthConfigSpec_DeepCopyInto (AuthConfig__Spec in_) ;;
  Status' <- AuthConfigStatus_DeepCopyInto (AuthConfig__Status in_) ;;
  ret {| AuthConfig__TypeMeta := AuthConfig__TypeMeta in_;
         AuthConfig__ObjectMeta := ObjectMeta'; AuthConfig__Spec := Spec';
         AuthConfig__Status := Status'; AuthConfig__scalars := AuthConfig__scalars in_ |}.

(** The cell a reference points to, if it is not nil. *)
Definition ptr_cell {A} (p : ptr A) : list addr :=
  match p with nil_ptr => [] | Ptr a _ => [a] end.

Definition slice_cell {A} (s : slice A) : list addr :=
  match s with nil_slice => [] | Slice a _ => [a] end.

Definition map_cell {A} (m : gomap A) : list addr :=
  match m with nil_map => [] | Map a _ => [a] end.

(** The cells of the slices, of the map and of the pointer that are fields
    of an [AuthConfigSpec]. *)
Definition AuthConfigSpec_cells (spec : AuthConfigSpec) : list addr :=
  slice_cell (AuthConfigSpec__Hosts spec) ++ map_cell (AuthConfigSpec__Patterns spec)
  ++ slice_cell (AuthConfigSpec__Conditions spec) ++ slice_cell (AuthConfigSpec__Identity spec)
  ++ slice_cell (AuthConfigSpec__Metadata spec)
  ++ slice_cell (AuthConfigSpec__Authorization spec)
  ++ slice_cell (AuthConfigSpec__Response spec) ++ slice_cell (AuthConfigSpec__Callbacks spec)
  ++ ptr_cell (AuthConfigSpec__DenyWith spec).

(** [DeepCopy]: nil for nil, else a new struct filled by [DeepCopyInto]. *)
Definition AuthConfigSpec_DeepCopy : ptr AuthConfigSpec -> M (ptr AuthConfigSpec) :=
  deepcopy_ptr AuthConfigSpec_DeepCopyInto.

Definition AuthConfig_DeepCopy : ptr AuthConfig -> M (ptr AuthConfig) :=
  deepcopy_ptr AuthConfig_DeepCopyInto.

(** *** What it means for a copy to be deep *)

(** The addresses [l] were all allocated from [n] on and before [n']. *)
Definition within (n n' : addr) (l : list addr) : Prop := Forall (λ a, n ≤ a < n')%nat l.

(** A copy is deep at [x] when, started with [n] as the next unused
    address, it returns a value that is structurally equal to [x] and
    reaches only cells allocated during the call. *)
Definition DeepAt `{Reify A} (f : A -> M A) (x : A) : Prop :=
  ∀ n : addr,
    (n ≤ (f x n).2)%nat
    ∧ erase (reify (f x n).1) = erase (reify x)
    ∧ within n (f x n).2 (addrs (reify (f x n).1)).

Definition Deep `{Reify A} (f : A -> M A) : Prop := ∀ x : A, DeepAt f x.
Existing Class Deep.

(** *** The lists of AuthConfigs, the slice types and [DeepCopyObject] *)

(** [AuthConfigList]: the [ListMeta] has a deep copy of its own, and
    [Items] is an [AuthConfigSlice], a slice of AuthConfig values. *)
Record AuthConfigList := {
  AuthConfigList__TypeMeta : TypeMeta;
  AuthConfigList__ListMeta : external;
  AuthConfigList__Items : slice AuthConfig;
  AuthConfigList__scalars : list scalar;
}.

#[global] Instance reify_AuthConfigList : Reify AuthConfigList := λ x,
  NStruct [reify (AuthConfigList__TypeMeta x); reify (AuthConfigList__ListMeta x);
           reify (AuthConfigList__Items x); reify (AuthConfigList__scalars x)].

Definition AuthConfigList_DeepCopyInto (in_ : AuthConfigList) : M AuthConfigList :=
  ListMeta' <- external_DeepCopyInto (AuthConfigList__ListMeta in_) ;;
  Items' <- deepcopy_slice AuthConfig_DeepCopyInto (AuthConfigList__Items in_) ;;
  ret {| AuthConfigList__TypeMeta := AuthConfigList__TypeMeta in_;
         AuthConfigList__ListMeta := ListMeta'; AuthConfigList__Items := Items';
         AuthConfigList__scalars := AuthConfigList__scalars in_ |}.

Definition AuthConfigList_DeepCopy : ptr AuthConfigList -> M (ptr AuthConfigList) :=
  deepcopy_ptr AuthConfigList_DeepCopyInto.

(** The elements a range over a slice visits: none for the nil slice, whose
    length is 0. *)
Definition elems_of {A} (s : slice A) : list A :=
  match s with nil_slice => [] | Slice _ elems => elems end.

(** The [DeepCopyInto] of a slice type has a value receiver and no test for
    nil: it makes a slice of the length of the receiver and fills it. *)
Definition AuthConfigSlice_DeepCopyInto (in_ : slice AuthConfig) : M (slice AuthConfig) :=
  a <- alloc ;;
  elems' <- each AuthConfig_DeepCopyInto (elems_of in_) ;;
  ret (Slice a elems').

(** The [DeepCopy] of a slice type: nil for nil, else a new slice header
    filled by [DeepCopyInto], of which the slice is returned. *)
Definition AuthConfigSlice_DeepCopy (in_ : slice AuthConfig) : M (slice AuthConfig) :=
  match in_ with
  | nil_slice => ret nil_slice
  | Slice _ _ => _ <- alloc ;; AuthConfigSlice_DeepCopyInto in_
  end.

Definition JSONPatternExpressions_DeepCopyInto (in_ : slice JSONPatternExpression)
  : M (slice JSONPatternExpression) :=
  a <- alloc ;; ret (Slice a (elems_of in_)).

Definition JSONPatternExpressions_DeepCopy (in_ : slice JSONPatternExpression)
  : M (slice JSONPatternExpression) :=
  match in_ with
  | nil_slice => ret nil_slice
  | Slice _ _ => _ <- alloc ;; JSONPatternExpressions_DeepCopyInto in_
  end.

(** [runtime.Object]: a value of the interface is nil or holds a pointer
    of one of the two types that implement it; a pointer held may itself
    be nil. *)
Inductive Object : Type :=
| nil_Object
| Object_AuthConfig (p : ptr AuthConfig)
| Object_AuthConfigList (p : ptr AuthConfigList).

Definition AuthConfig_DeepCopyObject (in_ : ptr AuthConfig) : M Object :=
  c <- AuthConfig_DeepCopy in_ ;;
  match c with
  | Ptr _ _ => ret (Object_AuthConfig c)
  | nil_ptr => ret nil_Object
  end.

Definition AuthConfigList_DeepCopyObject (in_ : ptr AuthConfigList) : M Object :=
  c <- AuthConfigList_DeepCopy in_ ;;
  match c with
  | Ptr _ _ => ret (Object_AuthConfigList c)
  | nil_ptr => ret nil_Object
  end.

(** The [DeepCopy] of the types an AuthConfig is made of. *)
Definition Identity_DeepCopy : ptr Identity -> M (ptr Identity) :=
  deepcopy_ptr Identity_DeepCopyInto.

Definition Metadata_DeepCopy : ptr Metadata -> M (ptr Metadata) :=
  deepcopy_ptr Metadata_DeepCopyInto.

Definition Authorization_DeepCopy : ptr Authorization -> M (ptr Authorization) :=
  deepcopy_ptr Authorization_DeepCopyInto.

Definition Response_DeepCopy : ptr Response -> M (ptr Response) :=
  deepcopy_ptr Response_DeepCopyInto.

Definition Callback_DeepCopy : ptr Callback -> M (ptr Callback) :=
  deepcopy_ptr Callback_DeepCopyInto.

Definition DenyWith_DeepCopy : ptr DenyWith -> M (ptr DenyWith) :=
  deepcopy_ptr DenyWith_DeepCopyInto.

Definition AuthConfigStatus_DeepCopy : ptr AuthConfigStatus -> M (ptr AuthConfigStatus) :=
  deepcopy_ptr AuthConfigStatus_DeepCopyInto.

(** [copy] is an independent copy of [original]: equal to it up to
    addresses, reaching none of its cells, so that a write through a
    reference of the one leaves the other as it is. *)
Definition independent (original copy : node) : Prop :=
  erase copy = erase original
  ∧ (∀ c, c ∈ addrs copy -> c ∉ addrs original)
  ∧ (∀ c contents', c ∈ addrs copy -> write c contents' original = original)
  ∧ (∀ c contents', c ∈ addrs original -> write c contents' copy = copy).

(** What a [DeepCopy] method does, for a receiver that lives below the
    next unused address: nil for nil without an allocation, and else a
    pointer to an independent copy. *)
Definition copies_independently `{Reify A} (DeepCopy : ptr A -> M (ptr A)) : Prop :=
  ∀ n : addr,
    DeepCopy nil_ptr n = (nil_ptr, n)
    ∧ ∀ a x, within 0 n (addrs (reify (Ptr a x))) ->
             ∃ a' x', (DeepCopy (Ptr a x) n).1 = Ptr a' x'
                      ∧ independent (reify (Ptr a x)) (reify (Ptr a' x')).

(** *** Counting the allocations *)

(** A copy is exact at [x] when it takes one new cell for every reference
    that [x] holds, in the order in which [x] reaches them, and nothing
    else: started with [n] as the next unused address, the cells of the
    result are [n], [n + 1], ... in this order. *)
Definition ExactAt `{Reify A} (f : A -> M A) (x : A) : Prop :=
  ∀ n : addr,
    addrs (reify (f x n).1) = seq n (length (addrs (reify x)))
    ∧ (f x n).2 = (n + length (addrs (reify x)))%nat.

Definition Exact `{Reify A} (f : A -> M A) : Prop := ∀ x : A, ExactAt f x.
Existing Class Exact.

(** The fields of a copied struct against those of the original, from the
    address [n] on and up to [n']. *)
Fixpoint chain (n : addr) (olds news : list node) (n' : addr) : Prop :=
  match olds, news with
  | [], [] => n' = n
  | o :: olds, w :: news =>
      addrs w = seq n (length (addrs o)) ∧ chain (n + length (addrs o)) olds news n'
  | _, _ => False
  end.

End v1beta1.

(** ** Sample data *)

Module sample.

(** Credentials read from the [authorization] header, taken whole. *)
Definition bearer : AuthCredentials :=
  {| GetCredentialsFromReq := λ http,
       match Headers http !! "authorization" with
       | Some v => Ok v
       | None => Err "credential not found"
       end |}.

Definition unreachable : string -> result oidc.Provider := λ _, Err "connection refused".

(** A discovery document without a [userinfo_endpoint]. *)
Definition provider : oidc.Provider :=
  {| oidc.Provider_Claims :=
       Ok {[ "issuer" := JString "https://idp.example.com";
             "jwks_uri" := JString "https://idp.example.com/jwks" ]};
     oidc.Provider_Verify := λ token,
       if decide (token = "good") then Ok {| oidc.IDToken_Claims := Ok (JObject []) |}
       else Err "oidc: malformed jwt" |}.

Definition discovered : oidc.OIDC :=
  {| oidc.creds := bearer; oidc.Endpoint := "https://idp.example.com";
     oidc.provider := Some provider; oidc.refresher := Some 0 |}.

Definition undiscovered : oidc.OIDC :=
  {| oidc.creds := bearer; oidc.Endpoint := "https://idp.example.com";
     oidc.provider := None; oidc.refresher := None |}.

Definition quiet : oidc.World := {| oidc.sched := cron.idle; oidc.log := [] |}.

Definition background : Context := {| ctx_Err := None |}.

Definition secret (namespace name key : string) : v1.Secret :=
  {| v1.Namespace := namespace; v1.Name := name;
     v1.Labels := {[ "group" := "friends" ]};
     v1.Data := {[ "api_key" := key ]} |}.

Definition secrets : list v1.Secret :=
  [secret "red" "alice" "k1"; secret "red" "bob" "k2"; secret "blue" "carol" "k3"].

Definition request (credential : string) : HttpRequest :=
  {| Method := "GET"; Path := "/things";
     Headers := {[ "authorization" := credential ]} |}.

Definition friends : api_key.APIKey :=
  (api_key.NewApiKeyIdentity "friends" {[ "group" := "friends" ]} "red" bearer
                             (client.cluster secrets)).1.

(** A cluster-wide reconciler that watches every AuthConfig. *)
Definition clusterWide : controllers.AuthConfigReconciler :=
  {| controllers.LabelSelector := λ _, true; controllers.Namespace := "" |}.

(** An environment in which the AuthConfig requested is [found], the
    cluster holds [secrets], the OIDC issuer is unreachable, and the
    constructors of the other evaluators succeed. *)
Definition env (found : controllers.GetResult) : controllers.Env :=
  {| controllers.GetAuthConfig := λ _, found;
     controllers.Client := client.cluster secrets;
     controllers.NewProvider := unreachable;
     controllers.cron_accepts := λ ttl, bool_decide (0 < ttl)%Z;
     controllers.NewAuthCredential := λ _ _, bearer;
     controllers.NewKubernetesAuthIdentity := λ authCred audiences,
       Ok {| config.ka_creds := authCred; config.ka_Audiences := audiences |};
     controllers.NewUMAMetadata := λ endpoint clientID clientSecret,
       Ok {| config.uma_Endpoint := endpoint; config.uma_ClientID := clientID;
             config.uma_ClientSecret := clientSecret |};
     controllers.NewOPAAuthorization := λ policyName rego externalSource allValues index,
       Ok {| config.opa_policyName := policyName; config.opa_InlineRego := rego;
             config.opa_externalSource := externalSource;
             config.opa_AllValues := allValues; config.opa_index := index |};
     controllers.NewKubernetesAuthz := λ user groups resourceAttributes,
       Ok {| config.kz_User := user; config.kz_Groups := groups;
             config.kz_ResourceAttributes := resourceAttributes |};
     controllers.NewSigningKey := λ name algorithm pem,
       Ok {| config.jwk_KeyID := name; config.jwk_Algorithm := algorithm;
             config.jwk_pem := pem |};
     controllers.NewWristbandConfig := λ issuer customClaims tokenDuration signingKeys,
       Ok {| config.wb_Issuer := issuer; config.wb_CustomClaims := customClaims;
             config.wb_TokenDuration := tokenDuration;
             config.wb_SigningKeys := signingKeys |} |}.

Definition identity (name : string) (method : api.IdentityMethod) : api.Identity :=
  {| api.id_Name := name; api.id_Priority := 0; api.id_Metrics := false;
     api.id_Conditions := [];
     api.id_Credentials := {| api.In := "authorization_header"; api.KeySelector := "APIKEY" |};
     api.id_ExtendedProperties := [];
     api.id_Method := method |}.

Definition metadata (name : string) (method : api.MetadataMethod) : api.Metadata :=
  {| api.md_Name := name; api.md_Priority := 0; api.md_Metrics := false;
     api.md_Conditions := []; api.md_Method := method |}.

Definition authConfig (namespace name : string) (hosts : list string)
    (identities : list api.Identity) (metadata : list api.Metadata) : api.AuthConfig :=
  {| api.Namespace := namespace; api.Name := name; api.Labels := ∅;
     api.Spec := {| api.Hosts := hosts; api.Patterns := ∅; api.Conditions := [];
                    api.Identity_ := identities; api.Metadata_ := metadata;
                    api.Authorization_ := []; api.Response_ := [];
                    api.DenyWith_ := None |} |}.

Definition named (namespace name : string) : controllers.NamespacedName :=
  {| controllers.nn_Namespace := namespace; controllers.nn_Name := name |}.

(** One reconciliation of the AuthConfig [namespace/name] with the given
    hosts (visited in the order given) and identities. *)
Definition reconcile (namespace name : string) (hosts : list string)
    (identities : list api.Identity) (metadata : list api.Metadata)
    (s : controllers.State) : option error * controllers.State :=
  controllers.Reconcile clusterWide
    (env (controllers.Found (authConfig namespace name hosts identities metadata)))
    hosts (named namespace name) s.

(** An AuthConfig object in a heap whose cells 0 to 6 are in use. *)
Definition spec : v1beta1.AuthConfigSpec :=
  {| v1beta1.AuthConfigSpec__Hosts := v1beta1.Slice 1 ["api.example.com"];
     v1beta1.AuthConfigSpec__Patterns :=
       v1beta1.Map 2 [("get", v1beta1.Slice 3 [[v1beta1.SString "context.request.http.method";
                                               v1beta1.SString "eq"; v1beta1.SString "GET"]])];
     v1beta1.AuthConfigSpec__Conditions := v1beta1.nil_slice;
     v1beta1.AuthConfigSpec__Identity := v1beta1.nil_slice;
     v1beta1.AuthConfigSpec__Metadata := v1beta1.nil_slice;
     v1beta1.AuthConfigSpec__Authorization := v1beta1.nil_slice;
     v1beta1.AuthConfigSpec__Response := v1beta1.nil_slice;
     v1beta1.AuthConfigSpec__Callbacks := v1beta1.nil_slice;
     v1beta1.AuthConfigSpec__DenyWith :=
       v1beta1.Ptr 4
         {| v1beta1.DenyWith__Unauthenticated :=
              v1beta1.Ptr 5
                {| v1beta1.DenyWithSpec__Message := v1beta1.nil_ptr;
                   v1beta1.DenyWithSpec__Headers := v1beta1.nil_slice;
                   v1beta1.DenyWithSpec__Body := v1beta1.nil_ptr;
                   v1beta1.DenyWithSpec__scalars := [v1beta1.SInt 401] |};
            v1beta1.DenyWith__Unauthorized := v1beta1.nil_ptr;
            v1beta1.DenyWith__scalars := [] |};
     v1beta1.AuthConfigSpec__scalars := [] |}.

Definition object : v1beta1.AuthConfig :=
  {| v1beta1.AuthConfig__TypeMeta := [v1beta1.SString "AuthConfig";
                                      v1beta1.SString "authorino.kuadrant.io/v1beta1"];
     v1beta1.AuthConfig__ObjectMeta :=
       v1beta1.NStruct [v1beta1.NScalar (v1beta1.SString "red");
                        v1beta1.NScalar (v1beta1.SString "a");
                        v1beta1.NRef v1beta1.KMap 6 []];
     v1beta1.AuthConfig__Spec := spec;
     v1beta1.AuthConfig__Status :=
       {| v1beta1.AuthConfigStatus__Conditions := v1beta1.nil_slice;
          v1beta1.AuthConfigStatus__Summary :=
            {| v1beta1.Summary__HostsReady := v1beta1.nil_slice;
               v1beta1.Summary__scalars := [] |};
          v1beta1.AuthConfigStatus__scalars := [] |};
     v1beta1.AuthConfig__scalars := [] |}.

Definition failed_tick : oidc_life.event :=
  {| oidc_life.network := unreachable; oidc_life.does := oidc_life.Tick |}.

(** The identity config of an anonymous identity. *)
Definition anyone : config.IdentityConfig :=
  {| config.id_handle := 0; config.id_Name := "anyone"; config.id_Priority := 0;
     config.id_Conditions := []; config.id_ExtendedProperties := [];
     config.id_Metrics := false;
     config.id_OAuth2 := None; config.id_OIDC := None; config.id_APIKey := None;
     config.id_KubernetesAuth := None;
     config.id_Noop := Some {| config.noop_creds := bearer |} |}.

(** A secret that matches the selector of [friends] and has no [api_key]
    datum. *)
Definition keyless : v1.Secret :=
  {| v1.Namespace := "red"; v1.Name := "dave";
     v1.Labels := {[ "group" := "friends" ]};
     v1.Data := {[ "token" := "k4" ]} |}.

End sample.

(** ** What can go wrong in a translation *)

Module translation.
Import controllers.

(** A step of the translation that neither touches the host index nor
    calls [Clean]. *)
Definition keeps_index {A} (m : T A) : Prop :=
  ∀ s, Cache (m s).2 = Cache s ∧ cleaned (m s).2 = cleaned s.

(** A step that returns an error from every state. *)
Definition fails {A} (m : T A) : Prop :=
  ∀ s, ∃ err, (m s).1 = Err err.

Definition unfetchable (env : Env) (authConfig : api.AuthConfig) (name : string) : Prop :=
  ∃ err, client.Get (Client env) (api.Namespace authConfig) name = Err err.

(** The secrets an evaluator entry refers to. *)
Definition identity_secrets (identity : api.Identity) : list string :=
  match api.id_Method identity with
  | api.OAuth2 _ _ CredentialsName => [CredentialsName]
  | _ => []
  end.

Definition metadata_secrets (metadata : api.Metadata) : list string :=
  match api.md_Method metadata with
  | api.UMA _ CredentialsName => [CredentialsName]
  | api.GenericHTTP _ _ _ _ _ (Some ref) _ => [api.skr_Name ref]
  | _ => []
  end.

Definition authorization_secrets (authorization : api.Authorization) : list string :=
  match api.az_Method authorization with
  | api.OPA _ externalRegistry _ =>
      match api.er_SharedSecret externalRegistry with
      | Some ref => [api.skr_Name ref]
      | None => []
      end
  | _ => []
  end.

Definition response_secrets (response : api.Response) : list string :=
  match api.rs_Method response with
  | api.Wristband _ _ _ SigningKeyRefs => api.sk_Name <$> SigningKeyRefs
  | _ => []
  end.

(** The three failures of a translation named by the specification: "a
    referenced secret cannot be fetched, an evaluator kind is unknown, or
    a UserInfo metadata evaluator names a missing identity". *)
Definition bad_identity (env : Env) (authConfig : api.AuthConfig) (identity : api.Identity)
  : Prop :=
  api.id_Method identity = api.IdentityUnknown
  ∨ ∃ name, name ∈ identity_secrets identity ∧ unfetchable env authConfig name.

Definition bad_metadata (env : Env) (authConfig : api.AuthConfig) (metadata : api.Metadata)
  : Prop :=
  api.md_Method metadata = api.MetadataUnknown
  ∨ (∃ name, name ∈ metadata_secrets metadata ∧ unfetchable env authConfig name)
  ∨ ∃ IdentitySource,
      api.md_Method metadata = api.UserInfo IdentitySource
      ∧ ∀ identity, identity ∈ api.Identity_ (api.Spec authConfig) ->
                    api.id_Name identity ≠ IdentitySource.

Definition bad_authorization (env : Env) (authConfig : api.AuthConfig)
    (authorization : api.Authorization) : Prop :=
  api.az_Method authorization = api.AuthorizationUnknown
  ∨ ∃ name, name ∈ authorization_secrets authorization ∧ unfetchable env authConfig name.

Definition bad_response (env : Env) (authConfig : api.AuthConfig) (response : api.Response)
  : Prop :=
  api.rs_Method response = api.ResponseUnknown
  ∨ ∃ name, name ∈ response_secrets response ∧ unfetchable env authConfig name.

Definition invalid (env : Env) (authConfig : api.AuthConfig) : Prop :=
  let spec := api.Spec authConfig in
  (∃ identity, identity ∈ api.Identity_ spec ∧ bad_identity env authConfig identity)
  ∨ (∃ metadata, metadata ∈ api.Metadata_ spec ∧ bad_metadata env authConfig metadata)
  ∨ (∃ authorization, authorization ∈ api.Authorization_ spec
                      ∧ bad_authorization env authConfig authorization)
  ∨ (∃ response, response ∈ api.Response_ spec ∧ bad_response env authConfig response).

(** An environment in which the constructors of the other packages that
    can return an error do not. *)
Definition reliable (env : Env) : Prop :=
  (∀ authCred audiences, ∃ k, NewKubernetesAuthIdentity env authCred audiences = Ok k)
  ∧ (∀ endpoint clientID clientSecret,
       ∃ uma, NewUMAMetadata env endpoint clientID clientSecret = Ok uma)
  ∧ (∀ policyName rego externalSource allValues index,
       ∃ opa, NewOPAAuthorization env policyName rego externalSource allValues index = Ok opa)
  ∧ (∀ user groups resourceAttributes,
       ∃ kz, NewKubernetesAuthz env user groups resourceAttributes = Ok kz)
  ∧ (∀ name algorithm pem, ∃ key, NewSigningKey env name algorithm pem = Ok key)
  ∧ (∀ issuer customClaims tokenDuration signingKeys,
       ∃ wristband,
         NewWristbandConfig env issuer customClaims tokenDuration signingKeys = Ok wristband).

(** The [common.JSONProperty] that the translation makes of an API
    property. *)
Definition toJSONProperty (property : api.JsonProperty) : common.JSONProperty :=
  {| common.Name := api.jp_Name property;
     common.Value_ := {| common.Static := api.jp_Value property;
                         common.Pattern := api.AuthJSON (api.jp_ValueFrom property) |} |}.

(** Which of the method fields of a translated evaluator are set, and
    which one the kind of an entry calls for. *)
Definition identity_methods (cfg : config.IdentityConfig) : list bool :=
  [bool_decide (is_Some (config.id_OAuth2 cfg)); bool_decide (is_Some (config.id_OIDC cfg));
   bool_decide (is_Some (config.id_APIKey cfg));
   bool_decide (is_Some (config.id_KubernetesAuth cfg));
   bool_decide (is_Some (config.id_Noop cfg))].

Definition identity_kind (method : api.IdentityMethod) : list bool :=
  match method with
  | api.OAuth2 _ _ _ => [true; false; false; false; false]
  | api.Oidc _ _ => [false; true; false; false; false]
  | api.APIKey _ _ => [false; false; true; false; false]
  | api.KubernetesAuth _ => [false; false; false; true; false]
  | api.Anonymous => [false; false; false; false; true]
  | api.IdentityUnknown => [false; false; false; false; false]
  end.

Definition metadata_methods (cfg : config.MetadataConfig) : list bool :=
  [bool_decide (is_Some (config.md_UMA cfg)); bool_decide (is_Some (config.md_UserInfo cfg));
   bool_decide (is_Some (config.md_GenericHTTP cfg))].

Definition metadata_kind (method : api.MetadataMethod) : list bool :=
  match method with
  | api.UMA _ _ => [true; false; false]
  | api.UserInfo _ => [false; true; false]
  | api.GenericHTTP _ _ _ _ _ _ _ => [false; false; true]
  | api.MetadataUnknown => [false; false; false]
  end.

Definition authorization_methods (cfg : config.AuthorizationConfig) : list bool :=
  [bool_decide (is_Some (config.az_OPA cfg)); bool_decide (is_Some (config.az_JSON cfg));
   bool_decide (is_Some (config.az_KubernetesAuthz cfg))].

Definition authorization_kind (method : api.AuthorizationMethod) : list bool :=
  match method with
  | api.OPA _ _ _ => [true; false; false]
  | api.JSONPatternMatching _ => [false; true; false]
  | api.KubernetesAuthz _ _ _ => [false; false; true]
  | api.AuthorizationUnknown => [false; false; false]
  end.

Definition response_methods (cfg : config.ResponseConfig) : list bool :=
  [bool_decide (is_Some (config.rs_Wristband cfg));
   bool_decide (is_Some (config.rs_DynamicJSON cfg))].

Definition response_kind (method : api.ResponseMethod) : list bool :=
  match method with
  | api.Wristband _ _ _ _ => [true; false]
  | api.DynamicJSON _ => [false; true]
  | api.ResponseUnknown => [false; false]
  end.

(** A translated evaluator against the entry it was made of: the common
    fields are carried over, the conditions are expanded, and the method
    field that is set is the one of the entry's kind. *)
Definition same_identity (authConfig : api.AuthConfig) (identity : api.Identity)
    (cfg : config.IdentityConfig) : Prop :=
  config.id_Name cfg = api.id_Name identity
  ∧ config.id_Priority cfg = api.id_Priority identity
  ∧ config.id_Metrics cfg = api.id_Metrics identity
  ∧ config.id_Conditions cfg
    = buildJSONPatternExpressions authConfig (api.id_Conditions identity)
  ∧ config.id_ExtendedProperties cfg = toJSONProperty <$> api.id_ExtendedProperties identity
  ∧ identity_methods cfg = identity_kind (api.id_Method identity).

Definition same_metadata (authConfig : api.AuthConfig) (metadata : api.Metadata)
    (cfg : config.MetadataConfig) : Prop :=
  config.md_Name cfg = api.md_Name metadata
  ∧ config.md_Priority cfg = api.md_Priority metadata
  ∧ config.md_Metrics cfg = api.md_Metrics metadata
  ∧ config.md_Conditions cfg
    = buildJSONPatternExpressions authConfig (api.md_Conditions metadata)
  ∧ metadata_methods cfg = metadata_kind (api.md_Method metadata).

Definition same_authorization (authConfig : api.AuthConfig) (authorization : api.Authorization)
    (cfg : config.AuthorizationConfig) : Prop :=
  config.az_Name cfg = api.az_Name authorization
  ∧ config.az_Priority cfg = api.az_Priority authorization
  ∧ config.az_Metrics cfg = api.az_Metrics authorization
  ∧ config.az_Conditions cfg
    = buildJSONPatternExpressions authConfig (api.az_Conditions authorization)
  ∧ authorization_methods cfg = authorization_kind (api.az_Method authorization).

Definition same_response (authConfig : api.AuthConfig) (response : api.Response)
    (cfg : config.ResponseConfig) : Prop :=
  config.rs_Name cfg = api.rs_Name response
  ∧ config.rs_Priority cfg = api.rs_Priority response
  ∧ config.rs_Metrics cfg = api.rs_Metrics response
  ∧ config.rs_Wrapper cfg = api.rs_Wrapper response
  ∧ config.rs_WrapperKey cfg = api.rs_WrapperKey response
  ∧ config.rs_Conditions cfg
    = buildJSONPatternExpressions authConfig (api.rs_Conditions response)
  ∧ response_methods cfg = response_kind (api.rs_Method response).

End translation.

(** ** The specification's reading of a pattern rule *)

Module spec.

(** "A PatternRule is either an inline expression or a named-pattern
    reference (which expands to the conjunction of its expressions)." *)
Definition expandRule (authConfig : api.AuthConfig) (rule : api.JSONPattern)
  : list common.JSONPatternMatchingRule :=
  match api.Patterns (api.Spec authConfig) !! api.JSONPatternName rule with
  | Some expressions => controllers.toRule <$> expressions
  | None => [controllers.toRule (api.JSONPatternExpression_ rule)]
  end.

End spec.

(* ===================================================================== *)
(** * Part II: properties *)
(* ===================================================================== *)

(** ** Pattern rules (buildJSONPatternExpressions) *)

Section PatternRules.
Import controllers.

Lemma append_each {A B} (f : A -> B) (l : list A) (acc : list B) :
  foldl (λ acc x, acc ++ [f x]) acc l = acc ++ (f <$> l).
Proof.
  revert acc. induction l as [|x l IH]; intros acc; simpl.
  - by rewrite app_nil_r.
  - by rewrite IH, <- app_assoc.
Qed.

Lemma buildJSONPatternExpressions_from authConfig patterns acc :
  foldl (λ expressions pattern,
           let expressionsToAdd : list api.JSONPatternExpression :=
             match api.Patterns (api.Spec authConfig) !! api.JSONPatternName pattern with
             | Some expressionsByRef => [] ++ expressionsByRef
             | None => [] ++ [api.JSONPatternExpression_ pattern]
             end in
           foldl (λ expressions expression, expressions ++ [toRule expression])
                 expressions expressionsToAdd)
        acc patterns
  = acc ++ concat (spec.expandRule authConfig <$> patterns).
Proof.
  revert acc. induction patterns as [|p ps IH]; intros acc; simpl.
  - by rewrite app_nil_r.
  - rewrite IH, append_each, <- app_assoc. f_equal. f_equal.
    unfold spec.expandRule. by destruct (_ !! _).
Qed.

Lemma buildJSONPatternExpressions_concat authConfig patterns :
  buildJSONPatternExpressions authConfig patterns
  = [] ++ concat (spec.expandRule authConfig <$> patterns).
Proof. apply buildJSONPatternExpressions_from. Qed.

Lemma buildJSONPatternExpressions_app authConfig ps qs :
  buildJSONPatternExpressions authConfig (ps ++ qs)
  = buildJSONPatternExpressions authConfig ps ++ buildJSONPatternExpressions authConfig qs.
Proof. by rewrite !buildJSONPatternExpressions_concat, fmap_app, concat_app. Qed.

Lemma buildJSONPatternExpressions_named authConfig rule expressions :
  api.Patterns (api.Spec authConfig) !! api.JSONPatternName rule = Some expressions ->
  buildJSONPatternExpressions authConfig [rule] = toRule <$> expressions.
Proof.
  intros H. rewrite buildJSONPatternExpressions_concat. simpl.
  unfold spec.expandRule. by rewrite H, app_nil_r.
Qed.

Lemma buildJSONPatternExpressions_inline authConfig rule :
  api.Patterns (api.Spec authConfig) !! api.JSONPatternName rule = None ->
  buildJSONPatternExpressions authConfig [rule] = [toRule (api.JSONPatternExpression_ rule)].
Proof.
  intros H. rewrite buildJSONPatternExpressions_concat. simpl.
  unfold spec.expandRule. by rewrite H.
Qed.

(** C6.  Building the matching rules replaces every rule whose name is a
    named pattern of the AuthConfig by the whole list of that pattern's
    expressions and every other rule by its single inline (selector,
    operator, value) expression, in the order of the rules. *)
Theorem buildJSONPatternExpressions_expands authConfig patterns :
  buildJSONPatternExpressions authConfig patterns
  = concat (spec.expandRule authConfig <$> patterns).
Proof. unfold buildJSONPatternExpressions. by rewrite buildJSONPatternExpressions_from. Qed.
End PatternRules.

(** ** The OIDC identity evaluator *)

Section OIDC.
Import oidc.

Lemma getProvider_returns_stored net force o w :
  (getProvider net force o w).1.1 = provider (getProvider net force o w).1.2.
Proof.
  unfold getProvider.
  destruct (match provider o with None => true | Some _ => force end); [|done].
  by destruct (net (Endpoint o)).
Qed.

Lemma getProvider_failed_discovery net force o w err :
  net (Endpoint o) = Err err -> (getProvider net force o w).1 = (provider o, o).
Proof.
  intros H. unfold getProvider.
  destruct (match provider o with None => true | Some _ => force end); [|done].
  by rewrite H.
Qed.

Lemma getProvider_keeps_some net force o w :
  is_Some (provider o) -> is_Some (provider (getProvider net force o w).1.2).
Proof.
  intros H. unfold getProvider.
  destruct (match provider o with None => true | Some _ => force end); [|done].
  destruct (net (Endpoint o)); simpl; eauto.
Qed.

Lemma getProvider_keeps_rest net force o w :
  let o' := (getProvider net force o w).1.2 in
  Endpoint o' = Endpoint o ∧ refresher o' = refresher o ∧ creds o' = creds o.
Proof.
  unfold getProvider.
  destruct (match provider o with None => true | Some _ => force end); [|done].
  by destruct (net (Endpoint o)).
Qed.

(** Every operation of the evaluator reaches the stored provider through
    [getProvider] only. *)
Lemma step_through_getProvider url_Parse e o w :
  ∃ force, (oidc_life.step url_Parse e (o, w)).1
           = (getProvider (oidc_life.network e) force o w).1.2
           ∨ (oidc_life.step url_Parse e (o, w)).1 = o.
Proof.
  unfold oidc_life.step. destruct (oidc_life.does e) as [|http ctx|name ctx|token ctx].
  - exists true. left. unfold refresh.
    by destruct (getProvider _ true o w) as [[? ?] ?].
  - exists false. unfold Call. destruct (GetCredentialsFromReq _ _) as [token|err]; [|by right].
    unfold decodeAndVerifyToken. destruct (CheckContext ctx); [by right|].
    left. unfold verifyToken.
    destruct (getProvider _ false o w) as [[[p|] o'] w']; simpl; [|done].
    destruct (Provider_Verify p token) as [t|]; [|done].
    by destruct (IDToken_Claims t).
  - exists false. left. unfold GetURL.
    destruct (getProvider _ false o w) as [[[p|] o'] w']; simpl; [|done].
    destruct (_ !! name) as [[]|]; try done. by destruct (url_Parse _).
  - exists false. left. unfold verifyToken.
    destruct (getProvider _ false o w) as [[[p|] o'] w']; simpl; [|done].
    by destruct (Provider_Verify p token).
Qed.

Lemma step_keeps_some url_Parse e o w :
  is_Some (provider o) -> is_Some (provider (oidc_life.step url_Parse e (o, w)).1).
Proof.
  intros H. destruct (step_through_getProvider url_Parse e o w) as (force & [-> | ->]).
  - by apply getProvider_keeps_some.
  - done.
Qed.

Lemma step_failed_discovery url_Parse e o w :
  oidc_life.discovery_fails e -> (oidc_life.step url_Parse e (o, w)).1 = o.
Proof.
  intros Hf. destruct (step_through_getProvider url_Parse e o w) as (force & [-> | ->]).
  - destruct (Hf (Endpoint o)) as [err Herr].
    by rewrite (surjective_pairing (getProvider _ _ _ _).1),
               (getProvider_failed_discovery _ _ _ _ _ Herr).
  - done.
Qed.

Lemma run_cons url_Parse e events st :
  oidc_life.run url_Parse (e :: events) st
  = oidc_life.run url_Parse events (oidc_life.step url_Parse e st).
Proof. done. Qed.

Lemma run_keeps_some url_Parse events o w :
  is_Some (provider o) -> is_Some (provider (oidc_life.run url_Parse events (o, w)).1).
Proof.
  revert o w. induction events as [|e events IH]; intros o w H; [done|].
  rewrite run_cons.
  destruct (oidc_life.step url_Parse e (o, w)) as [o1 w1] eqn:E.
  apply IH. by rewrite <- (f_equal fst E : _ = o1); apply step_keeps_some.
Qed.

Lemma run_failed_discovery url_Parse events o w :
  Forall oidc_life.discovery_fails events -> (oidc_life.run url_Parse events (o, w)).1 = o.
Proof.
  intros Hf. revert o w. induction Hf as [|e events He _ IH]; intros o w; [done|].
  rewrite run_cons.
  destruct (oidc_life.step url_Parse e (o, w)) as [o1 w1] eqn:E.
  rewrite <- (step_failed_discovery url_Parse e o w He), E. apply IH.
Qed.

Lemma verifyToken_with_provider net accessToken ctx o w p :
  provider o = Some p ->
  verifyToken net accessToken ctx o w = (Provider_Verify p accessToken, o, w).
Proof.
  intros H. unfold verifyToken, getProvider. rewrite H.
  by destruct (Provider_Verify p accessToken).
Qed.

(** C10.  A failed discovery never discards a discovered provider:
    [getProvider] leaves the evaluator as it is when the discovery fails,
    so whatever the refresher and the pipeline do afterwards, a provider
    that was once stored is never nil again; as long as the discoveries
    fail it is the same provider, and tokens are verified against it. *)
Theorem provider_survives_failed_refresh url_Parse events o w p :
  provider o = Some p ->
  (∀ net force err, net (Endpoint o) = Err err ->
     (getProvider net force o w).1 = (Some p, o))
  ∧ is_Some (provider (oidc_life.run url_Parse events (o, w)).1)
  ∧ (Forall oidc_life.discovery_fails events ->
     ∀ net accessToken ctx,
       let st := oidc_life.run url_Parse events (o, w) in
       provider st.1 = Some p
       ∧ (verifyToken net accessToken ctx st.1 st.2).1.1 = Provider_Verify p accessToken).
Proof.
  intros Hp. split; [|split].
  - intros net force err Herr. by rewrite (getProvider_failed_discovery _ _ _ _ _ Herr), Hp.
  - apply run_keeps_some. by rewrite Hp.
  - intros Hf net accessToken ctx st.
    assert (provider st.1 = Some p) as Hst.
    { subst st. by rewrite run_failed_discovery. }
    split; [done|]. by rewrite (verifyToken_with_provider _ _ _ _ _ _ Hst).
Qed.
Lemma provider_survives_failed_refresh_witness :
  provider sample.discovered = Some sample.provider
  ∧ provider (oidc_life.run Ok [sample.failed_tick; sample.failed_tick]
                            (sample.discovered, sample.quiet)).1
    = Some sample.provider.
Proof.
  split; [reflexivity|].
  refine (proj1 (proj2 (proj2
    (provider_survives_failed_refresh Ok [sample.failed_tick; sample.failed_tick]
       sample.discovered sample.quiet sample.provider eq_refl)) _
    sample.unreachable "good" sample.background)).
  repeat constructor; intros endpoint; by exists "connection refused".
Defined.

(** C8.  [Clean] stops the refresh worker that the construction started,
    when it started one, and returns nil and changes nothing when it
    started none. *)
Theorem Clean_stops_refresher net accepts endpoint creds ttl w :
  let built := NewOIDC net accepts endpoint creds ttl w in
  match refresher built.1 with
  | Some worker =>
      accepts ttl = true
      ∧ worker = cron.next_worker (sched w)
      ∧ worker ∈ cron.running (sched built.2)
      ∧ (Clean built.1 built.2).1 = None
      ∧ cron.running (sched (Clean built.1 built.2).2)
        = cron.running (sched built.2) ∖ {[ worker ]}
      ∧ worker ∉ cron.running (sched (Clean built.1 built.2).2)
  | None =>
      accepts ttl = false
      ∧ sched built.2 = sched w
      ∧ Clean built.1 built.2 = (None, built.2)
  end.
Proof.
  unfold NewOIDC.
  destruct (getProvider net false _ w) as [[p o] w1] eqn:E. simpl.
  assert (sched w1 = sched w) as Hs.
  { revert E. unfold getProvider. simpl. destruct (net endpoint); by intros [= <- <- <-]. }
  unfold configureProviderRefresh, cron.StartWorker.
  destruct (accepts ttl); simpl.
  - rewrite Hs. repeat split.
    + apply elem_of_union_l, elem_of_singleton. reflexivity.
    + intros [_ Hn]%elem_of_difference. apply Hn, elem_of_singleton. reflexivity.
  - by rewrite Hs.
Qed.

Lemma Clean_without_refresher o w :
  refresher o = None -> Clean o w = (None, w).
Proof. intros H. unfold Clean. by rewrite H. Qed.

Lemma Call_returns net http ctx o w :
  ∃ r, (Call net http ctx o w).1.1 = Returns r.
Proof.
  unfold Call. destruct (GetCredentialsFromReq _ _); [|by eexists].
  destruct (decodeAndVerifyToken _ _ _ _ _) as [[[[? ?]|] ?] ?]; by eexists.
Qed.

Lemma GetURL_nil_provider_panics net url_Parse name ctx o w err :
  provider o = None -> net (Endpoint o) = Err err ->
  ∃ msg, (GetURL net url_Parse name ctx o w).1.1 = Panics msg.
Proof.
  intros Hp Hn. unfold GetURL, getProvider. rewrite Hp, Hn. simpl. by eexists.
Qed.

Lemma GetURL_missing_claim_panics net url_Parse name ctx o w p claims :
  provider o = Some p -> Provider_Claims p = Ok claims -> claims !! name = None ->
  ∃ msg, (GetURL net url_Parse name ctx o w).1.1 = Panics msg.
Proof.
  intros Hp Hc Hn. unfold GetURL, getProvider. rewrite Hp. simpl. rewrite Hc, Hn.
  by eexists.
Qed.

(** C2 (the code departs from it).  [GetURL] panics instead of returning
    an error, both when the discovery document of the provider has no
    entry for the requested name and when there is no provider at all. *)
Theorem GetURL_panics :
  (GetURL sample.unreachable Ok "userinfo_endpoint" sample.background
          sample.discovered sample.quiet).1.1
  = Panics "interface conversion: interface {} is not string"
  ∧ (GetURL sample.unreachable Ok "userinfo_endpoint" sample.background
            sample.undiscovered sample.quiet).1.1
    = Panics "invalid memory address or nil pointer dereference".
Proof. split; vm_compute; reflexivity. Qed.
End OIDC.

(** ** The API key identity evaluator *)

Section APIKey.
Import api_key.

Lemma range_find_Some reqKey (order : list (string * v1.Secret)) secret :
  NoDup order.*1 ->
  range_find reqKey order = Some secret ↔ (reqKey, secret) ∈ order.
Proof.
  induction order as [|[key sec] order IH]; simpl; intros Hnd.
  - split; [done|]. by intros ?%elem_of_nil.
  - apply NoDup_cons in Hnd as [Hnotin Hnd]. case_decide as Hk.
    + subst key. split.
      * intros [= ->]. apply list_elem_of_here.
      * intros [[= ->]|Hin]%elem_of_cons; [done|].
        exfalso. apply Hnotin. apply list_elem_of_fmap. by exists (reqKey, secret).
    + rewrite (IH Hnd). split.
      * intros Hin. by apply list_elem_of_further.
      * intros [[= -> ->]|Hin]%elem_of_cons; done.
Qed.

(** Whatever the order of the visit, the loop of [Call] is a lookup. *)
Lemma range_find_lookup (m : gmap string v1.Secret) order reqKey :
  visits m order -> range_find reqKey order = m !! reqKey.
Proof.
  unfold visits. intros Hp.
  assert (NoDup order.*1) as Hnd.
  { rewrite Hp. apply NoDup_fst_map_to_list. }
  destruct (m !! reqKey) as [secret|] eqn:E.
  - apply range_find_Some; [done|]. rewrite Hp. by apply elem_of_map_to_list.
  - destruct (range_find reqKey order) as [secret|] eqn:F; [|done].
    apply range_find_Some in F; [|done]. rewrite Hp in F.
    apply elem_of_map_to_list in F. congruence.
Qed.

Lemma parseSecrets_from (items : list v1.Secret) (acc : gmap string v1.Secret) key secret :
  (∀ k s, acc !! k = Some s -> v1.datum s apiKeySelector = k) ->
  foldl (λ parsedSecrets secret, <[v1.datum secret apiKeySelector := secret]> parsedSecrets)
        acc items !! key = Some secret ->
  v1.datum secret apiKeySelector = key ∧ (secret ∈ items ∨ acc !! key = Some secret).
Proof.
  revert acc. induction items as [|item items IH]; simpl; intros acc Hacc H.
  - split; [by eapply Hacc|by right].
  - apply IH in H as [Hk [Hin|Hl]].
    + split; [done|]. left. by apply list_elem_of_further.
    + split; [done|]. destruct (decide (v1.datum item apiKeySelector = key)) as [<-|Hne].
      * rewrite lookup_insert_eq in Hl. injection Hl as ->. left. apply list_elem_of_here.
      * rewrite lookup_insert_ne in Hl by done. by right.
    + intros k s. destruct (decide (v1.datum item apiKeySelector = k)) as [<-|Hne].
      * rewrite lookup_insert_eq. by intros [= ->].
      * rewrite lookup_insert_ne by done. apply Hacc.
Qed.

(** Every entry of the parsed map is a listed secret, filed under its own
    [api_key] datum. *)
Lemma parseSecrets_keyed items key secret :
  parseSecrets items !! key = Some secret ->
  v1.datum secret apiKeySelector = key ∧ secret ∈ items.
Proof.
  intros H. apply parseSecrets_from in H as [Hk [Hin|Hl]]; [done| |].
  - by rewrite lookup_empty in Hl.
  - intros k s. by rewrite lookup_empty.
Qed.

Lemma parseSecrets_kept (after : list v1.Secret) (acc : gmap string v1.Secret) secret :
  (∀ s, s ∈ after -> v1.datum s apiKeySelector ≠ v1.datum secret apiKeySelector) ->
  acc !! v1.datum secret apiKeySelector = Some secret ->
  foldl (λ parsedSecrets secret, <[v1.datum secret apiKeySelector := secret]> parsedSecrets)
        acc after !! v1.datum secret apiKeySelector = Some secret.
Proof.
  revert acc. induction after as [|a after IH]; simpl; intros acc Hafter Hacc; [done|].
  apply IH.
  - intros s Hs. apply Hafter. by apply list_elem_of_further.
  - rewrite lookup_insert_ne; [done|]. apply Hafter, list_elem_of_here.
Qed.

(** A listed secret is authorized unless a later one has the same key. *)
Lemma parseSecrets_last before secret after :
  (∀ s, s ∈ after -> v1.datum s apiKeySelector ≠ v1.datum secret apiKeySelector) ->
  parseSecrets (before ++ secret :: after) !! v1.datum secret apiKeySelector = Some secret.
Proof.
  intros Hafter. unfold parseSecrets. rewrite foldl_app. simpl.
  apply parseSecrets_kept; [done|]. apply lookup_insert_eq.
Qed.

Lemma NewApiKeyIdentity_credentials name labelSelectors namespace authCred k8sClient :
  let apiKey := (NewApiKeyIdentity name labelSelectors namespace authCred k8sClient).1 in
  creds apiKey = authCred
  ∧ LabelSelectors apiKey = labelSelectors
  ∧ Namespace apiKey = namespace
  ∧ authorizedCredentials apiKey
    = match client.List k8sClient (listOptions apiKey) with
      | Ok items => parseSecrets items
      | Err _ => ∅
      end.
Proof.
  unfold NewApiKeyIdentity, GetCredentialsFromCluster.
  set (apiKey0 := {| creds := authCred; Name := name; LabelSelectors := labelSelectors;
                     Namespace := namespace; k8sClient := k8sClient;
                     authorizedCredentials := ∅ |}).
  destruct (client.List k8sClient (listOptions apiKey0)) eqn:E; subst apiKey0;
    unfold set_authorizedCredentials, listOptions in *; simpl in *;
    rewrite E; simpl; by rewrite E.
Qed.

(** C3.  For an evaluator as constructed and a request whose credential
    is [reqKey]: when [reqKey] is the [api_key] datum of an authorized
    secret, [Call] returns that secret; when it is the datum of none,
    [Call] fails with "the API Key provided is invalid"; and the latter is
    the case for every request when the fetch at construction failed,
    which leaves the authorized-credential set empty. *)
Theorem Call_checks_api_key name labelSelectors namespace authCred k8sClient
    http reqKey order :
  let apiKey := (NewApiKeyIdentity name labelSelectors namespace authCred k8sClient).1 in
  GetCredentialsFromReq authCred http = Ok reqKey ->
  visits (authorizedCredentials apiKey) order ->
  (∀ secret, authorized apiKey secret -> v1.datum secret apiKeySelector = reqKey ->
     Call http order apiKey = Ok secret)
  ∧ ((∀ secret, authorized apiKey secret -> v1.datum secret apiKeySelector ≠ reqKey) ->
     Call http order apiKey = Err invalidApiKeyMsg)
  ∧ (∀ err, client.List k8sClient (listOptions apiKey) = Err err ->
     authorizedCredentials apiKey = ∅ ∧ Call http order apiKey = Err invalidApiKeyMsg).
Proof.
  intros apiKey Hreq Hvisit.
  destruct (NewApiKeyIdentity_credentials name labelSelectors namespace authCred k8sClient)
    as (Hc & _ & _ & Ha). fold apiKey in Hc, Ha.
  assert (∀ key secret, authorizedCredentials apiKey !! key = Some secret ->
                        v1.datum secret apiKeySelector = key) as Hkeyed.
  { intros key secret. rewrite Ha. destruct (client.List _ _) as [items|].
    - by intros [? _]%parseSecrets_keyed.
    - by rewrite lookup_empty. }
  assert (Call http order apiKey
          = match authorizedCredentials apiKey !! reqKey with
            | Some secret => Ok secret
            | None => Err invalidApiKeyMsg
            end) as HCall.
  { unfold Call. by rewrite Hc, Hreq, (range_find_lookup _ _ _ Hvisit). }
  split; [|split].
  - intros secret [key Hs] Hd. rewrite HCall.
    rewrite <- Hd, (Hkeyed _ _ Hs). by rewrite Hs.
  - intros Hnone. rewrite HCall.
    destruct (authorizedCredentials apiKey !! reqKey) as [secret|] eqn:E; [|done].
    exfalso. apply (Hnone secret); [by exists reqKey|by eapply Hkeyed].
  - intros err Herr. rewrite HCall, Ha, Herr. by rewrite lookup_empty.
Qed.
Lemma Call_checks_api_key_witness :
  GetCredentialsFromReq sample.bearer (sample.request "k1") = Ok "k1"
  ∧ Call (sample.request "k1") (map_to_list (authorizedCredentials sample.friends))
         sample.friends
    = Ok (sample.secret "red" "alice" "k1").
Proof.
  split; [reflexivity|].
  refine (proj1 (Call_checks_api_key "friends" {[ "group" := "friends" ]} "red"
                   sample.bearer (client.cluster sample.secrets)
                   (sample.request "k1") "k1" _ eq_refl _)
                (sample.secret "red" "alice" "k1") _ eq_refl).
  - unfold visits. reflexivity.
  - exists "k1". vm_compute. reflexivity.
Defined.

Example Call_unknown_key :
  Call (sample.request "k3") (map_to_list (authorizedCredentials sample.friends))
       sample.friends
  = Err invalidApiKeyMsg.
Proof. vm_compute. reflexivity. Qed.
End APIKey.

(** ** The namespace of the API key lookup *)

Section LookupScope.
Import controllers.

Lemma listOptions_scope (apiKey : api_key.APIKey) :
  (client.spans_all_namespaces (api_key.listOptions apiKey)
   ↔ api_key.Namespace apiKey = "")
  ∧ (api_key.Namespace apiKey ≠ "" ->
     client.restricted_to (api_key.Namespace apiKey) (api_key.listOptions apiKey)).
Proof.
  unfold api_key.listOptions, client.spans_all_namespaces, client.restricted_to.
  case_decide as Hns; simpl.
  - split.
    + split; [|done]. intros H. exfalso. apply (H (api_key.Namespace apiKey)).
      apply list_elem_of_further, list_elem_of_here.
    + intros _ ns'. rewrite !elem_of_cons, elem_of_nil. split.
      * intros [?|[[= ->]|[]]]; done.
      * intros ->. right. by left.
  - split; [|done]. split; [done|].
    intros _ ns. rewrite elem_of_cons, elem_of_nil. by intros [?|[]].
Qed.

(** The API key branch of the identity loop never fails; its evaluator is
    the one [NewApiKeyIdentity] builds for the chosen namespace. *)
Lemma translateIdentity_apiKey r env authConfig identity LabelSelectors AllNamespaces s :
  api.id_Method identity = api.APIKey LabelSelectors AllNamespaces ->
  ∃ cfg,
    (translateIdentity r env authConfig identity s).1 = Ok cfg
    ∧ config.id_APIKey cfg
      = Some (api_key.NewApiKeyIdentity (api.id_Name identity) LabelSelectors
                (if AllNamespaces && ClusterWide r then "" else api.Namespace authConfig)
                (NewAuthCredential env (api.KeySelector (api.id_Credentials identity))
                                       (api.In (api.id_Credentials identity)))
                (Client env)).1.
Proof.
  intros Hm. unfold translateIdentity. rewrite Hm.
  destruct (api_key.NewApiKeyIdentity _ _ _ _ _) as [apiKey logged].
  eexists. split; reflexivity.
Qed.

(** C7.  For an API key identity of an AuthConfig (whose namespace, as
    that of every namespaced object, is not empty): the secrets are
    looked up in all namespaces exactly when the identity sets
    AllNamespaces and the reconciler's Namespace option is empty;
    otherwise the lookup is restricted to the namespace of the
    AuthConfig. *)
Theorem apiKey_lookup_scope r env authConfig identity LabelSelectors AllNamespaces s :
  api.Namespace authConfig ≠ "" ->
  api.id_Method identity = api.APIKey LabelSelectors AllNamespaces ->
  ∃ cfg apiKey,
    (translateIdentity r env authConfig identity s).1 = Ok cfg
    ∧ config.id_APIKey cfg = Some apiKey
    ∧ api_key.authorizedCredentials apiKey
      = match client.List (Client env) (api_key.listOptions apiKey) with
        | Ok items => api_key.parseSecrets items
        | Err _ => ∅
        end
    ∧ (client.spans_all_namespaces (api_key.listOptions apiKey)
       ↔ AllNamespaces = true ∧ Namespace r = "")
    ∧ (¬ (AllNamespaces = true ∧ Namespace r = "") ->
       client.restricted_to (api.Namespace authConfig) (api_key.listOptions apiKey)).
Proof.
  intros Hns Hm.
  destruct (translateIdentity_apiKey r env authConfig identity _ _ s Hm) as (cfg & Hcfg & Hk).
  exists cfg. eexists. split; [done|]. split; [done|].
  match goal with |- context [api_key.NewApiKeyIdentity ?n ?l ?ns ?c ?k] =>
    destruct (NewApiKeyIdentity_credentials n l ns c k) as (_ & _ & Hnsk & Hauth);
    set (apiKey := (api_key.NewApiKeyIdentity n l ns c k).1) in *
  end.
  split; [done|].
  destruct (listOptions_scope apiKey) as [Hall Hone].
  assert (ClusterWide r = true ↔ Namespace r = "") as Hcw.
  { unfold ClusterWide. by rewrite bool_decide_eq_true. }
  destruct AllNamespaces; simpl in Hnsk.
  - destruct (ClusterWide r) eqn:Hc.
    + split.
      * rewrite Hall, Hnsk. split; [|done]. intros _. split; [done|]. by apply Hcw.
      * intros Hnot. exfalso. apply Hnot. split; [done|]. by apply Hcw.
    + assert (Namespace r ≠ "") as Hr by (intros Hr%Hcw; congruence).
      split.
      * rewrite Hall, Hnsk. split; [done|]. by intros [_ ?].
      * intros _. rewrite <- Hnsk. apply Hone. by rewrite Hnsk.
  - split.
    + rewrite Hall, Hnsk. split; [done|]. by intros [? _].
    + intros _. rewrite <- Hnsk. apply Hone. by rewrite Hnsk.
Qed.
Lemma apiKey_lookup_scope_witness :
  "red" ≠ ""
  ∧ ∃ cfg apiKey,
      (translateIdentity sample.clusterWide (sample.env (NotFound "gone"))
         (sample.authConfig "red" "a" ["h1.com"] [] [])
         (sample.identity "friends" (api.APIKey {[ "group" := "friends" ]} true)) init).1
      = Ok cfg
      ∧ config.id_APIKey cfg = Some apiKey
      ∧ client.spans_all_namespaces (api_key.listOptions apiKey).
Proof.
  assert ("red" ≠ "") as Hns by discriminate.
  split; [exact Hns|].
  destruct (apiKey_lookup_scope sample.clusterWide (sample.env (NotFound "gone"))
              (sample.authConfig "red" "a" ["h1.com"] [] [])
              (sample.identity "friends" (api.APIKey {[ "group" := "friends" ]} true))
              {[ "group" := "friends" ]} true init Hns eq_refl)
    as (cfg & apiKey & H1 & H2 & _ & H3 & _).
  exists cfg, apiKey. split; [exact H1|]. split; [exact H2|].
  apply H3. split; reflexivity.
Defined.
End LookupScope.

(** ** The translation leaves the host index alone *)

Section Frame.
Import controllers translation.

Lemma keeps_ret {A} (a : A) : keeps_index (ret a).
Proof. done. Qed.

Lemma keeps_fail {A} err : keeps_index (@fail A err).
Proof. done. Qed.

Lemma keeps_try {A} (r : result A) : keeps_index (try r).
Proof. by destruct r. Qed.

Lemma keeps_new : keeps_index new.
Proof. done. Qed.

Lemma keeps_in_world {A} (f : oidc.World -> A * oidc.World) : keeps_index (in_world f).
Proof. intros s. unfold in_world. by destruct (f (world s)). Qed.

Lemma keeps_logs msgs : keeps_index (logs msgs).
Proof.
  intros s. unfold logs. simpl. revert s.
  induction msgs as [|msg msgs IH]; intros s; [done|]. simpl.
  destruct (IH (logger_Error msg s)) as [-> ->]. done.
Qed.

Lemma keeps_bind {A B} (m : T A) (k : A -> T B) :
  keeps_index m -> (∀ a, keeps_index (k a)) -> keeps_index (bind m k).
Proof.
  intros Hm Hk s. unfold bind. destruct (Hm s) as [Hc Hl].
  destruct (m s) as [[a|err] s1]; simpl in *; [|done].
  destruct (Hk a s1) as [-> ->]. done.
Qed.

Lemma keeps_range_append {A B} (body : nat -> A -> T B) i l acc :
  (∀ i x, keeps_index (body i x)) -> keeps_index (range_append body i l acc).
Proof.
  intros Hb. revert i acc. induction l as [|x l IH]; intros i acc; simpl.
  - apply keeps_ret.
  - apply keeps_bind; [apply Hb|]. intros y. apply IH.
Qed.

Lemma keeps_getSecret env namespace name : keeps_index (getSecret env namespace name).
Proof. apply keeps_try. Qed.

Ltac keeps :=
  repeat first
    [ apply keeps_ret | apply keeps_fail | apply keeps_try | apply keeps_new
    | apply keeps_in_world | apply keeps_logs | apply keeps_getSecret
    | apply keeps_range_append; intros
    | apply keeps_bind; [|intros]
    | match goal with
      | |- keeps_index (match ?x with _ => _ end) => destruct x
      | |- keeps_index (let '(_, _) := ?x in _) => destruct x
      end ].

Lemma keeps_translateIdentity r env authConfig identity :
  keeps_index (translateIdentity r env authConfig identity).
Proof. unfold translateIdentity. keeps. Qed.

Lemma keeps_translateMetadata env authConfig identityConfigs metadata :
  keeps_index (translateMetadata env authConfig identityConfigs metadata).
Proof. unfold translateMetadata. keeps. Qed.

Lemma keeps_translateAuthorization env authConfig index authorization :
  keeps_index (translateAuthorization env authConfig index authorization).
Proof. unfold translateAuthorization. keeps. Qed.

Lemma keeps_translateResponse env authConfig response :
  keeps_index (translateResponse env authConfig response).
Proof. unfold translateResponse, translateSigningKey. keeps. Qed.

Lemma keeps_translateAuthConfig r env authConfig :
  keeps_index (translateAuthConfig r env authConfig).
Proof.
  unfold translateAuthConfig.
  repeat (apply keeps_bind; [apply keeps_range_append; intros|intros]);
    auto using keeps_translateIdentity, keeps_translateMetadata,
               keeps_translateAuthorization, keeps_translateResponse, keeps_ret.
Qed.

Lemma cleanConfigs_Cache cacheId s : Cache (cleanConfigs cacheId s).2 = Cache s.
Proof.
  unfold cleanConfigs. destruct (cache.FindKeys _ _) as [|host0 ?]; [done|].
  destruct (cache.Get host0 _) as [c|]; [|done].
  by destruct (config.Clean c _ _) as [[? ?] ?].
Qed.

Lemma cleanAndLog_Cache cacheId s : Cache (cleanAndLog cacheId s) = Cache s.
Proof.
  unfold cleanAndLog. pose proof (cleanConfigs_Cache cacheId s) as H.
  by destruct (cleanConfigs cacheId s) as [[err|] s1].
Qed.

(** [cleanConfigs] calls [Clean] once, on the APIConfig bound to the first
    host of the configId, and not at all when it has no host. *)
Lemma cleanAndLog_cleaned cacheId s :
  cleaned (cleanAndLog cacheId s)
  = cleaned s ++ match cache.FindKeys cacheId (Cache s) with
                 | host0 :: _ =>
                     match cache.Get host0 (Cache s) with
                     | Some c => config.evaluators c
                     | None => []
                     end
                 | [] => []
                 end.
Proof.
  unfold cleanAndLog, cleanConfigs.
  destruct (cache.FindKeys _ _) as [|host0 ?]; [by rewrite app_nil_r|].
  destruct (cache.Get host0 _) as [c|]; [|by rewrite app_nil_r].
  done.
Qed.

Lemma bindHosts_cleaned req cacheId byHost order s :
  cleaned (bindHosts req cacheId byHost order s).2 = cleaned s.
Proof.
  revert s. induction order as [|host order IH]; intros s; simpl; [done|].
  destruct (byHost !! host) as [apiConfig|]; [|apply IH].
  destruct (taken req host (Cache s)); [done|].
  destruct (cache.Set_ _ _ _ _ _) as [[err|] c]; [done|].
  by rewrite IH.
Qed.
End Frame.

(** ** A failed translation fails the reconciliation *)

Section TranslationFailure.
Import controllers translation.

Lemma fails_fail {A} err : fails (@fail A err).
Proof. intros s. by exists err. Qed.

Lemma fails_bind_l {A B} (m : T A) (k : A -> T B) : fails m -> fails (bind m k).
Proof.
  intros Hm s. destruct (Hm s) as [err H]. exists err. unfold bind.
  destruct (m s) as [[a|e] s1]; simpl in *; congruence.
Qed.

(** The continuation fails on everything the first step can return. *)
Lemma fails_bind_post {A B} (P : A -> Prop) (m : T A) (k : A -> T B) :
  (∀ s a s', m s = (Ok a, s') -> P a) -> (∀ a, P a -> fails (k a)) -> fails (bind m k).
Proof.
  intros Hm Hk s. unfold bind. destruct (m s) as [[a|e] s1] eqn:E.
  - apply Hk. by eapply Hm.
  - by exists e.
Qed.

Lemma fails_bind_r {A B} (m : T A) (k : A -> T B) : (∀ a, fails (k a)) -> fails (bind m k).
Proof. intros Hk. apply (fails_bind_post (λ _, True)); auto. Qed.

Lemma fails_range_append {A B} (body : nat -> A -> T B) x l :
  x ∈ l -> (∀ i, fails (body i x)) -> ∀ i acc, fails (range_append body i l acc).
Proof.
  intros Hin Hx. induction l as [|y l IH]; intros i acc; [by apply elem_of_nil in Hin|].
  simpl. apply elem_of_cons in Hin as [<-|Hin].
  - apply fails_bind_l, Hx.
  - apply fails_bind_r. intros b. by apply IH.
Qed.

Lemma fails_getSecret env authConfig name :
  unfetchable env authConfig name -> fails (getSecret env (api.Namespace authConfig) name).
Proof. intros [err H] s. exists err. unfold getSecret. by rewrite H. Qed.

Lemma range_append_Forall2 {A B} (R : A -> B -> Prop) (body : nat -> A -> T B) l :
  (∀ i x s y s', body i x s = (Ok y, s') -> R x y) ->
  ∀ i acc s out s',
    range_append body i l acc s = (Ok out, s') -> ∃ ys, out = acc ++ ys ∧ Forall2 R l ys.
Proof.
  intros Hb. induction l as [|x l IH]; intros i acc s out s'; simpl.
  - intros [= <- <-]. exists []. by rewrite app_nil_r.
  - unfold bind at 1. destruct (body i x s) as [[y|e] s1] eqn:E; [|done].
    intros (ys & -> & Hys)%IH. exists (y :: ys). rewrite <- app_assoc. split; [done|].
    constructor; [by eapply Hb|done].
Qed.

Lemma translateIdentity_name r env authConfig identity s cfg s' :
  translateIdentity r env authConfig identity s = (Ok cfg, s') ->
  config.id_Name cfg = api.id_Name identity.
Proof.
  unfold translateIdentity, bind, new, ret, fail, getSecret, try, in_world, logs.
  intros H. repeat (case_match; simplify_eq/=); done.
Qed.

Lemma findIdentityConfigByName_missing identityConfigs name :
  (∀ c, c ∈ identityConfigs -> config.id_Name c ≠ name) ->
  ∃ err, findIdentityConfigByName identityConfigs name = Err err.
Proof.
  induction identityConfigs as [|c cs IH]; simpl; intros H; [by eexists|].
  case_decide as Hc.
  - exfalso. by apply (H c); [apply list_elem_of_here|].
  - apply IH. intros c' Hc'. apply H. by apply list_elem_of_further.
Qed.

Lemma fails_translateIdentity r env authConfig identity :
  bad_identity env authConfig identity -> fails (translateIdentity r env authConfig identity).
Proof.
  unfold bad_identity, identity_secrets, translateIdentity.
  intros [Hm|(name & Hin & Hf)]; apply fails_bind_r; intros h.
  - rewrite Hm. apply fails_fail.
  - destruct (api.id_Method identity); try by apply elem_of_nil in Hin.
    apply list_elem_of_singleton in Hin as ->. by apply fails_bind_l, fails_getSecret.
Qed.

Lemma fails_translateMetadata env authConfig identityConfigs metadata :
  config.id_Name <$> identityConfigs = api.id_Name <$> api.Identity_ (api.Spec authConfig) ->
  bad_metadata env authConfig metadata ->
  fails (translateMetadata env authConfig identityConfigs metadata).
Proof.
  unfold bad_metadata, metadata_secrets, translateMetadata.
  intros Hnames [Hm|[(name & Hin & Hf)|(src & Hm & Hmiss)]]; apply fails_bind_r; intros h.
  - rewrite Hm. apply fails_fail.
  - destruct (api.md_Method metadata) as [| |? ? ? ? ? [ref|] ?|];
      try by apply elem_of_nil in Hin.
    + apply list_elem_of_singleton in Hin as ->. by apply fails_bind_l, fails_getSecret.
    + apply list_elem_of_singleton in Hin as ->.
      by apply fails_bind_l, fails_bind_l, fails_getSecret.
  - rewrite Hm. apply fails_bind_l.
    destruct (findIdentityConfigByName_missing identityConfigs src) as [err Herr].
    + intros c Hc Hn.
      assert (src ∈ config.id_Name <$> identityConfigs) as Hin.
      { apply list_elem_of_fmap. by exists c. }
      rewrite Hnames in Hin. apply list_elem_of_fmap in Hin as (i & Hi & Hin).
      by apply (Hmiss i).
    + rewrite Herr. apply fails_fail.
Qed.

Lemma fails_translateAuthorization env authConfig index authorization :
  bad_authorization env authConfig authorization ->
  fails (translateAuthorization env authConfig index authorization).
Proof.
  unfold bad_authorization, authorization_secrets, translateAuthorization.
  intros [Hm|(name & Hin & Hf)]; apply fails_bind_r; intros h.
  - rewrite Hm. apply fails_fail.
  - destruct (api.az_Method authorization) as [? er ?| | |]; try by apply elem_of_nil in Hin.
    destruct (api.er_SharedSecret er) as [ref|]; [|by apply elem_of_nil in Hin].
    apply list_elem_of_singleton in Hin as ->.
    by apply fails_bind_l, fails_bind_l, fails_getSecret.
Qed.

Lemma fails_translateResponse env authConfig response :
  bad_response env authConfig response ->
  fails (translateResponse env authConfig response).
Proof.
  unfold bad_response, response_secrets, translateResponse.
  intros [Hm|(name & Hin & Hf)]; apply fails_bind_r; intros h.
  - rewrite Hm. apply fails_fail.
  - destruct (api.rs_Method response) as [? ? ? refs| |]; try by apply elem_of_nil in Hin.
    apply list_elem_of_fmap in Hin as (ref & -> & Hin).
    apply fails_bind_l. apply (fails_range_append _ ref); [done|].
    intros _. unfold translateSigningKey. by apply fails_bind_l, fails_getSecret.
Qed.

Lemma identity_loop_names r env authConfig l s out s' :
  range_append (λ _, translateIdentity r env authConfig) 0 l [] s = (Ok out, s') ->
  config.id_Name <$> out = api.id_Name <$> l.
Proof.
  intros H.
  apply (range_append_Forall2 (λ i c, config.id_Name c = api.id_Name i)) in H
    as (ys & -> & Hys).
  - simpl. induction Hys as [|i c l ys Hic _ IH]; [done|]. rewrite !fmap_cons. by f_equal.
  - intros _ i s0 c s0'. apply translateIdentity_name.
Qed.

Lemma fails_translateAuthConfig r env authConfig :
  invalid env authConfig -> fails (translateAuthConfig r env authConfig).
Proof.
  unfold invalid, translateAuthConfig.
  intros [(i & Hin & Hbad)|[(md & Hin & Hbad)|[(az & Hin & Hbad)|(rs & Hin & Hbad)]]].
  - apply fails_bind_l, (fails_range_append _ i); [done|].
    intros _. by apply fails_translateIdentity.
  - eapply fails_bind_post; [intros s ids s'; apply identity_loop_names|].
    intros ids Hnames. apply fails_bind_l, (fails_range_append _ md); [done|].
    intros _. by apply fails_translateMetadata.
  - apply fails_bind_r; intros ids. apply fails_bind_r; intros mds.
    apply fails_bind_l, (fails_range_append _ az); [done|].
    intros index. by apply fails_translateAuthorization.
  - apply fails_bind_r; intros ids. apply fails_bind_r; intros mds.
    apply fails_bind_r; intros azs.
    apply fails_bind_l, (fails_range_append _ rs); [done|].
    intros _. by apply fails_translateResponse.
Qed.

Lemma hosts_map_from {V} (v : V) hosts (acc : gmap string V) host :
  foldl (λ config host, <[host := v]> config) acc hosts !! host
  = if decide (host ∈ hosts) then Some v else acc !! host.
Proof.
  revert acc. induction hosts as [|h hosts IH]; intros acc; simpl; [done|].
  rewrite IH. destruct (decide (host ∈ hosts)) as [Hin|Hnin].
  - rewrite decide_True; [done|]. by apply list_elem_of_further.
  - destruct (decide (h = host)) as [->|Hne].
    + rewrite decide_True by apply list_elem_of_here. apply lookup_insert_eq.
    + rewrite decide_False, lookup_insert_ne; [done..|].
      by intros [?|?]%elem_of_cons.
Qed.

(** What a successful translation returns: one APIConfig, the same under
    every host of the AuthConfig and under no other, whose identity
    evaluators are those the loop body builds, in order. *)
Lemma translateAuthConfig_returns r env authConfig s byHost s' :
  translateAuthConfig r env authConfig s = (Ok byHost, s') ->
  ∃ apiConfig,
    (∀ host, byHost !! host
             = if decide (host ∈ api.Hosts (api.Spec authConfig)) then Some apiConfig
               else None)
    ∧ Forall2 (λ identity cfg,
                 ∃ s1 s2, translateIdentity r env authConfig identity s1 = (Ok cfg, s2))
              (api.Identity_ (api.Spec authConfig)) (config.IdentityConfigs apiConfig).
Proof.
  unfold translateAuthConfig. unfold bind at 1.
  destruct (range_append _ 0 (api.Identity_ _) [] s) as [[ids|?] s1] eqn:Eid; [|done].
  unfold bind at 1. destruct (range_append _ 0 (api.Metadata_ _) [] s1) as [[mds|?] s2]; [|done].
  unfold bind at 1.
  destruct (range_append _ 0 (api.Authorization_ _) [] s2) as [[azs|?] s3]; [|done].
  unfold bind at 1. destruct (range_append _ 0 (api.Response_ _) [] s3) as [[rss|?] s4]; [|done].
  intros [= <- <-]. eexists. split.
  - intros host. rewrite hosts_map_from. by rewrite lookup_empty.
  - simpl.
    apply (range_append_Forall2
             (λ identity cfg,
                ∃ s1 s2, translateIdentity r env authConfig identity s1 = (Ok cfg, s2)))
      in Eid as (ys & -> & Hys); [done|].
    intros _ identity s5 cfg s6 H. by exists s5, s6.
Qed.

Lemma Reconcile_translation_error r env order req s authConfig err s' :
  GetAuthConfig env req = Found authConfig ->
  Watched (api.Labels authConfig) (LabelSelector r) = true ->
  translateAuthConfig r env authConfig (cleanAndLog (NamespacedName_String req) s)
  = (Err err, s') ->
  Reconcile r env order req s = (Some err, s') ∧ Cache s' = Cache s.
Proof.
  intros Hget Hw Ht. unfold Reconcile. rewrite Hget, Hw. simpl. rewrite Ht.
  split; [done|].
  destruct (keeps_translateAuthConfig r env authConfig
              (cleanAndLog (NamespacedName_String req) s)) as [Hc _].
  rewrite Ht in Hc. simpl in Hc. by rewrite Hc, cleanAndLog_Cache.
Qed.

(** C4.  When the translation of a watched AuthConfig fails (and it does
    whenever a referenced secret cannot be fetched, an evaluator entry
    has an unknown kind, or a UserInfo metadata names an identity that is
    not there), [Reconcile] returns the error of the translation and the
    host index is left as it was: no host is bound, and every host still
    resolves to the APIConfig it had. *)
Theorem Reconcile_translation_failure r env order req s authConfig :
  GetAuthConfig env req = Found authConfig ->
  Watched (api.Labels authConfig) (LabelSelector r) = true ->
  let translated :=
    translateAuthConfig r env authConfig (cleanAndLog (NamespacedName_String req) s) in
  (∀ err, translated.1 = Err err ->
     (Reconcile r env order req s).1 = Some err
     ∧ Cache (Reconcile r env order req s).2 = Cache s
     ∧ ∀ host, cache.Get host (Cache (Reconcile r env order req s).2)
               = cache.Get host (Cache s)
               ∧ cache.FindId host (Cache (Reconcile r env order req s).2)
                 = cache.FindId host (Cache s))
  ∧ (invalid env authConfig -> ∃ err, translated.1 = Err err).
Proof.
  intros Hget Hw translated. split.
  - intros err Herr. subst translated.
    destruct (translateAuthConfig _ _ _ _) as [res s'] eqn:Ht. simpl in Herr. subst res.
    destruct (Reconcile_translation_error r env order req s authConfig err s' Hget Hw Ht)
      as [-> Hc].
    simpl. by rewrite Hc.
  - intros Hinv. by apply fails_translateAuthConfig.
Qed.
Lemma Reconcile_translation_failure_witness :
  let ids := [sample.identity "anyone" api.Anonymous] in
  let dangling := [sample.metadata "userinfo" (api.UserInfo "nobody")] in
  let s := (sample.reconcile "red" "a" ["h1.com"] ids [] init).2 in
  (sample.reconcile "red" "a" ["h1.com"] ids dangling s).1
  = Some "missing identity config nobody"
  ∧ Cache (sample.reconcile "red" "a" ["h1.com"] ids dangling s).2 = Cache s.
Proof.
  intros ids dangling s.
  destruct (proj1 (Reconcile_translation_failure sample.clusterWide
                     (sample.env (Found (sample.authConfig "red" "a" ["h1.com"] ids dangling)))
                     ["h1.com"] (sample.named "red" "a") s
                     (sample.authConfig "red" "a" ["h1.com"] ids dangling)
                     eq_refl eq_refl)
                  "missing identity config nobody" ltac:(vm_compute; reflexivity))
    as (H1 & H2 & _).
  split; [exact H1|exact H2].
Defined.
End TranslationFailure.

(** ** Host collisions *)

Section HostCollision.
Import controllers translation.

Lemma split_head_join namespace name :
  cache.split_head (namespace +:+ "/" +:+ name) = cache.split_head namespace.
Proof.
  induction namespace as [|c namespace IH]; simpl; [done|].
  case_decide; [done|]. by rewrite IH.
Qed.

Lemma install_other {V} id host (v : V) c host' :
  host ≠ host' ->
  cache.entries (cache.install id host v c) !! host' = cache.entries c !! host'.
Proof. intros H. unfold cache.install. simpl. by rewrite lookup_insert_ne. Qed.

Lemma Set_other {V} id host (v : V) override c host' :
  host ≠ host' ->
  cache.entries (cache.Set_ id host v override c).2 !! host' = cache.entries c !! host'.
Proof.
  intros H. unfold cache.Set_.
  destruct (cache.entries c !! host) as [[id' v']|]; [|by apply install_other].
  case_decide; [by apply install_other|].
  destruct (override && _); [by apply install_other|done].
Qed.

(** Past the check, the index accepts the binding. *)
Lemma Set_after_check req host apiConfig c :
  cache.split_head (nn_Namespace req) = nn_Namespace req ->
  taken req host c = false ->
  (cache.Set_ (NamespacedName_String req) host apiConfig true c).1 = None.
Proof.
  unfold taken, cache.FindId, cache.Set_. intros Hns Ht.
  destruct (cache.entries c !! host) as [[id' v']|]; [|done]. simpl in *.
  destruct (decide (id' = _)); [done|].
  apply bool_decide_eq_false in Ht. apply dec_stable in Ht.
  unfold NamespacedName_String. rewrite split_head_join, Hns, Ht.
  by rewrite bool_decide_eq_true_2.
Qed.

Lemma bindHosts_keeps_foreign req cacheId byHost order s host entry :
  cache.entries (Cache s) !! host = Some entry ->
  cache.split_head entry.1 ≠ nn_Namespace req ->
  cache.entries (Cache (bindHosts req cacheId byHost order s).2) !! host = Some entry.
Proof.
  intros He Hns. revert s He. induction order as [|h order IH]; intros s He; simpl; [done|].
  destruct (byHost !! h) as [apiConfig|]; [|by apply IH].
  destruct (taken req h (Cache s)) eqn:Ht; [done|].
  assert (h ≠ host) as Hne.
  { intros ->. unfold taken, cache.FindId in Ht. rewrite He in Ht. simpl in Ht.
    by apply bool_decide_eq_false in Ht. }
  pose proof (Set_other cacheId h apiConfig true (Cache s) host Hne) as Hs.
  destruct (cache.Set_ cacheId h apiConfig true (Cache s)) as [[err|] c]; simpl in *.
  - by rewrite Hs.
  - apply IH. simpl. by rewrite Hs.
Qed.

Lemma bindHosts_stops_at_taken req byHost order s host entry :
  cache.split_head (nn_Namespace req) = nn_Namespace req ->
  host ∈ order -> is_Some (byHost !! host) ->
  cache.entries (Cache s) !! host = Some entry ->
  cache.split_head entry.1 ≠ nn_Namespace req ->
  (bindHosts req (NamespacedName_String req) byHost order s).1 = Some None.
Proof.
  intros Hreq Hin [apiConfig Hb] He Hns. revert s He.
  induction order as [|h order IH]; intros s He; [by apply elem_of_nil in Hin|]. simpl.
  destruct (decide (h = host)) as [->|Hne].
  - rewrite Hb. unfold taken, cache.FindId. rewrite He. simpl.
    by rewrite bool_decide_eq_true_2.
  - apply elem_of_cons in Hin as [->|Hin]; [done|].
    destruct (byHost !! h) as [apiConfig'|]; [|by apply IH].
    destruct (taken req h (Cache s)) eqn:Ht; [done|].
    pose proof (Set_after_check req h apiConfig' (Cache s) Hreq Ht) as Hok.
    pose proof (Set_other (NamespacedName_String req) h apiConfig' true (Cache s) host Hne)
      as Hs.
    destruct (cache.Set_ _ h apiConfig' true (Cache s)) as [[err|] c]; [done|].
    apply IH; [done|]. simpl in *. by rewrite Hs.
Qed.

(** The part of the collision rule that the code keeps, whatever the
    order of the visit: when the translation succeeds and one of the hosts
    of the AuthConfig is bound to a configId of another namespace, the
    binding of that host stays as it is and the reconciliation returns no
    error. *)
Lemma Reconcile_host_taken r env order req s authConfig host entry :
  GetAuthConfig env req = Found authConfig ->
  Watched (api.Labels authConfig) (LabelSelector r) = true ->
  (∃ byHost,
     (translateAuthConfig r env authConfig (cleanAndLog (NamespacedName_String req) s)).1
     = Ok byHost) ->
  cache.split_head (nn_Namespace req) = nn_Namespace req ->
  host ∈ api.Hosts (api.Spec authConfig) -> host ∈ order ->
  cache.entries (Cache s) !! host = Some entry ->
  cache.split_head entry.1 ≠ nn_Namespace req ->
  (Reconcile r env order req s).1 = None
  ∧ cache.FindId host (Cache (Reconcile r env order req s).2) = Some entry.1
  ∧ cache.Get host (Cache (Reconcile r env order req s).2) = Some entry.2.
Proof.
  intros Hget Hw [byHost Ht] Hreq Hhost Hin He Hns.
  destruct (translateAuthConfig r env authConfig _) as [res s1] eqn:Et.
  simpl in Ht. subst res.
  assert (is_Some (byHost !! host)) as Hb.
  { destruct (translateAuthConfig_returns _ _ _ _ _ _ Et) as (apiConfig & Hhosts & _).
    rewrite Hhosts, decide_True by done. by eexists. }
  assert (Cache s1 = Cache s) as Hc1.
  { destruct (keeps_translateAuthConfig r env authConfig
                (cleanAndLog (NamespacedName_String req) s)) as [Hc _].
    rewrite Et in Hc. simpl in Hc. by rewrite Hc, cleanAndLog_Cache. }
  rewrite <- Hc1 in He.
  pose proof (bindHosts_stops_at_taken req byHost order s1 host entry Hreq Hin Hb He Hns)
    as Hstop.
  pose proof (bindHosts_keeps_foreign req (NamespacedName_String req) byHost order s1 host
                entry He Hns) as Hkeep.
  unfold Reconcile. rewrite Hget, Hw. simpl. rewrite Et.
  destruct (bindHosts req _ byHost order s1) as [[returned|] s2]; simpl in *; [|done].
  injection Hstop as ->. unfold cache.FindId, cache.Get. by rewrite Hkeep.
Qed.

(** C1 (the code departs from it).  configA of namespace red owns
    foo.com; configB of namespace blue claims a.com and foo.com.  When the
    range visits a.com before foo.com, the reconciliation binds a.com to
    configB and only then meets the collision: it logs it and returns nil,
    foo.com still resolves to configA, but configB has obtained a binding.
    When foo.com is visited first, configB obtains none. *)
Theorem Reconcile_collision_binds_earlier_hosts :
  let anyone := [sample.identity "anyone" api.Anonymous] in
  let owned := (sample.reconcile "red" "a" ["foo.com"] anyone [] init).2 in
  let late := sample.reconcile "blue" "b" ["a.com"; "foo.com"] anyone [] owned in
  let early := sample.reconcile "blue" "b" ["foo.com"; "a.com"] anyone [] owned in
  cache.FindId "foo.com" (Cache owned) = Some "red/a"
  ∧ late.1 = None
  ∧ cache.FindId "foo.com" (Cache late.2) = Some "red/a"
  ∧ cache.Get "foo.com" (Cache late.2) = cache.Get "foo.com" (Cache owned)
  ∧ cache.FindId "a.com" (Cache late.2) = Some "blue/b"
  ∧ cache.FindKeys "blue/b" (Cache late.2) = ["a.com"]
  ∧ oidc.log (world late.2)
    = oidc.log (world owned) ++ ["host already taken in another namespace"]
  ∧ early.1 = None
  ∧ cache.FindKeys "blue/b" (Cache early.2) = [].
Proof. vm_compute. repeat split; reflexivity. Qed.
End HostCollision.

(** ** Cleaning the displaced APIConfig *)

Section Cleanup.
Import controllers translation.

(** What the code keeps of the cleanup rule: a reconciliation that finds
    the AuthConfig or finds it gone calls [Clean] exactly once, on the
    APIConfig bound to the first host of the configId, however many hosts
    the configId has. *)
Lemma Reconcile_cleans_first_host r env order req s host0 hosts c :
  (∀ err, GetAuthConfig env req ≠ GetFailed err) ->
  cache.FindKeys (NamespacedName_String req) (Cache s) = host0 :: hosts ->
  cache.Get host0 (Cache s) = Some c ->
  cleaned (Reconcile r env order req s).2 = cleaned s ++ config.evaluators c.
Proof.
  intros Hget Hk Hc.
  pose proof (cleanAndLog_cleaned (NamespacedName_String req) s) as Hcl.
  rewrite Hk, Hc in Hcl.
  unfold Reconcile. destruct (GetAuthConfig env req) as [authConfig|err|err].
  - destruct (negb _); [done|].
    pose proof (keeps_translateAuthConfig r env authConfig
                  (cleanAndLog (NamespacedName_String req) s)) as [_ Ht].
    destruct (translateAuthConfig _ _ _ _) as [[byHost|err] s1]; simpl in Ht.
    + pose proof (bindHosts_cleaned req (NamespacedName_String req) byHost order s1) as Hb.
      destruct (bindHosts _ _ _ _ _) as [[returned|] s2]; simpl in *; congruence.
    + simpl. congruence.
  - done.
  - by destruct (Hget err).
Qed.

(** C5 (the code departs from it).  An AuthConfig with an OIDC identity is
    reconciled with host h1.com, then with host h2.com instead, then once
    more.  The second reconciliation leaves the first APIConfig bound to
    h1.com; the third one replaces the APIConfig of h2.com (evaluator 1 by
    evaluator 2) but calls [Clean] on the APIConfig of h1.com again: the
    evaluator of the displaced APIConfig is never cleaned and its refresh
    worker keeps running, while evaluator 0 is cleaned twice. *)
Theorem Reconcile_cleans_stale_config :
  let idp := [sample.identity "idp" (api.Oidc "https://idp.example.com" 60)] in
  let first := (sample.reconcile "red" "a" ["h1.com"] idp [] init).2 in
  let second := (sample.reconcile "red" "a" ["h2.com"] idp [] first).2 in
  let third := (sample.reconcile "red" "a" ["h2.com"] idp [] second).2 in
  config.evaluators <$> cache.Get "h1.com" (Cache second) = Some [0]
  ∧ config.evaluators <$> cache.Get "h2.com" (Cache second) = Some [1]
  ∧ config.refreshers <$> cache.Get "h2.com" (Cache second) = Some [1]
  ∧ cache.FindKeys "red/a" (Cache second) = ["h1.com"; "h2.com"]
  ∧ cleaned second = [0]
  ∧ config.evaluators <$> cache.Get "h2.com" (Cache third) = Some [2]
  ∧ cleaned third = [0; 0]
  ∧ elements (cron.running (oidc.sched (world third))) = [2; 1].
Proof. vm_compute. repeat split; reflexivity. Qed.

(** The same evaluators are cleaned twice when a reconciliation fails in
    the translation, which happens after [cleanConfigs], and is retried. *)
Example Reconcile_cleans_again_after_failure :
  let anyone := [sample.identity "anyone" api.Anonymous] in
  let dangling := [sample.metadata "userinfo" (api.UserInfo "nobody")] in
  let first := (sample.reconcile "red" "a" ["h1.com"] anyone [] init).2 in
  let failed := sample.reconcile "red" "a" ["h1.com"] anyone dangling first in
  let retried := sample.reconcile "red" "a" ["h1.com"] anyone [] failed.2 in
  failed.1 = Some "missing identity config nobody"
  ∧ cleaned failed.2 = [0]
  ∧ config.evaluators <$> cache.Get "h1.com" (Cache failed.2) = Some [0]
  ∧ retried.1 = None
  ∧ cleaned retried.2 = [0; 0].
Proof. vm_compute. repeat split; reflexivity. Qed.
End Cleanup.

(** ** The OIDC identity evaluator: calls, discovery on demand, construction *)

Section OIDCCalls.
Import oidc.

Lemma getProvider_with_provider net o w p :
  provider o = Some p -> getProvider net false o w = (Some p, o, w).
Proof. intros H. unfold getProvider. by rewrite H. Qed.

(** What [Call] answers once the token is read and the context is live:
    the claims of the token as the provider verifies it. *)
Lemma Call_verifies net http ctx o w accessToken :
  GetCredentialsFromReq (creds o) http = Ok accessToken ->
  CheckContext ctx = None ->
  Call net http ctx o w
  = let '(p, o', w') := getProvider net false o w in
    (Returns match p with
             | None => Err msg_oidcProviderConfigMissingError
             | Some p =>
                 match Provider_Verify p accessToken with
                 | Ok idToken => IDToken_Claims idToken
                 | Err err => Err err
                 end
             end, o', w').
Proof.
  intros Hc Hx. unfold Call, decodeAndVerifyToken, verifyToken. rewrite Hc, Hx.
  destruct (getProvider net false o w) as [[[p|] o'] w']; [|done].
  destruct (Provider_Verify p accessToken) as [idToken|]; [|done].
  by destruct (IDToken_Claims idToken).
Qed.

(** X1.  With a provider in store, [Call] sends no discovery request and
    changes nothing: its answer is the same whatever the network would
    say, the evaluator and the log are as before, and the answer to a
    request with a token, under a live context, is the claims of the token
    as the stored provider verifies it. *)
Theorem Call_with_stored_provider net net' http ctx o w p :
  provider o = Some p ->
  Call net http ctx o w = Call net' http ctx o w
  ∧ (Call net http ctx o w).1.2 = o
  ∧ (Call net http ctx o w).2 = w
  ∧ ∀ accessToken,
      GetCredentialsFromReq (creds o) http = Ok accessToken ->
      CheckContext ctx = None ->
      (Call net http ctx o w).1.1
      = Returns match Provider_Verify p accessToken with
                | Ok idToken => IDToken_Claims idToken
                | Err err => Err err
                end.
Proof.
  intros Hp.
  assert (∀ net, Call net http ctx o w
                 = ((Call net http ctx o w).1.1, o, w)
                   ∧ (Call net http ctx o w).1.1 = (Call net' http ctx o w).1.1) as H.
  { intros net0. unfold Call.
    destruct (GetCredentialsFromReq (creds o) http) as [accessToken|err]; [|done].
    unfold decodeAndVerifyToken. destruct (CheckContext ctx) as [err|]; [done|].
    rewrite !(verifyToken_with_provider _ _ _ _ _ _ Hp).
    destruct (Provider_Verify p accessToken) as [idToken|]; [|done].
    by destruct (IDToken_Claims idToken). }
  destruct (H net) as [E1 E2]. destruct (H net') as [E1' _].
  split; [by rewrite E1, E1', E2|]. split; [by rewrite E1|]. split; [by rewrite E1|].
  intros accessToken Hc Hx. rewrite (Call_verifies _ _ _ _ _ _ Hc Hx).
  by rewrite (getProvider_with_provider _ _ _ _ Hp).
Qed.
Lemma Call_with_stored_provider_witness :
  provider sample.discovered = Some sample.provider
  ∧ (Call sample.unreachable (sample.request "good") sample.background
          sample.discovered sample.quiet).1.1
    = Returns (Ok (JObject [])).
Proof.
  split; [reflexivity|].
  exact (proj2 (proj2 (proj2
           (Call_with_stored_provider sample.unreachable sample.unreachable
              (sample.request "good") sample.background sample.discovered sample.quiet
              sample.provider eq_refl)))
           "good" eq_refl eq_refl).
Defined.

(** X2.  Without a provider in store, a [Call] that has read the token
    under a live context first tries the discovery.  When it fails, the
    answer is the error "missing openid connect configuration", the
    evaluator is unchanged and the failure is logged; when it succeeds,
    the provider is stored and the token is verified against it. *)
Theorem Call_discovers_on_demand net http ctx o w accessToken :
  provider o = None ->
  GetCredentialsFromReq (creds o) http = Ok accessToken ->
  CheckContext ctx = None ->
  Call net http ctx o w
  = match net (Endpoint o) with
    | Err _ =>
        (Returns (Err msg_oidcProviderConfigMissingError), o,
         logf msg_oidcProviderConfigRefreshError w)
    | Ok p =>
        (Returns match Provider_Verify p accessToken with
                 | Ok idToken => IDToken_Claims idToken
                 | Err err => Err err
                 end,
         set_provider p o, logf msg_oidcProviderConfigRefreshSuccess w)
    end.
Proof.
  intros Hp Hc Hx. rewrite (Call_verifies _ _ _ _ _ _ Hc Hx).
  unfold getProvider. rewrite Hp. by destruct (net (Endpoint o)).
Qed.
Lemma Call_discovers_on_demand_witness :
  provider sample.undiscovered = None
  ∧ Call sample.unreachable (sample.request "good") sample.background
         sample.undiscovered sample.quiet
    = (Returns (Err msg_oidcProviderConfigMissingError), sample.undiscovered,
       logf msg_oidcProviderConfigRefreshError sample.quiet).
Proof.
  split; [reflexivity|].
  exact (Call_discovers_on_demand sample.unreachable (sample.request "good")
           sample.background sample.undiscovered sample.quiet "good"
           eq_refl eq_refl eq_refl).
Defined.

(** X3.  [Call] looks at the request before anything else, and at the
    context before the provider: a request without credentials, and a
    context that is done, are answered with their own error, without a
    discovery request even when no provider is in store, and with the
    evaluator and the log unchanged. *)
Theorem Call_checks_request_first net http ctx o w err :
  GetCredentialsFromReq (creds o) http = Err err
  ∨ (∃ accessToken, GetCredentialsFromReq (creds o) http = Ok accessToken)
    ∧ CheckContext ctx = Some err ->
  Call net http ctx o w = (Returns (Err err), o, w).
Proof.
  unfold Call, decodeAndVerifyToken. intros [->|[[accessToken ->] ->]]; done.
Qed.
Lemma Call_checks_request_first_witness :
  Call sample.unreachable (sample.request "good") {| ctx_Err := Some "context canceled" |}
       sample.undiscovered sample.quiet
  = (Returns (Err "context canceled"), sample.undiscovered, sample.quiet).
Proof.
  apply Call_checks_request_first. right. split; [by exists "good"|reflexivity].
Defined.

Lemma getProvider_provenance net force o w :
  provider (getProvider net force o w).1.2 = provider o
  ∨ ∃ p, net (Endpoint o) = Ok p ∧ provider (getProvider net force o w).1.2 = Some p.
Proof.
  unfold getProvider.
  destruct (match provider o with None => true | Some _ => force end); [|by left].
  destruct (net (Endpoint o)) as [p|err]; [right; by exists p|by left].
Qed.

Lemma step_provenance url_Parse e o w :
  let o1 := (oidc_life.step url_Parse e (o, w)).1 in
  Endpoint o1 = Endpoint o ∧ creds o1 = creds o ∧ refresher o1 = refresher o
  ∧ (provider o1 = provider o
     ∨ ∃ p, oidc_life.network e (Endpoint o) = Ok p ∧ provider o1 = Some p).
Proof.
  cbn zeta. destruct (step_through_getProvider url_Parse e o w) as (force & [-> | ->]);
    [|by auto].
  destruct (getProvider_keeps_rest (oidc_life.network e) force o w) as (? & ? & ?).
  pose proof (getProvider_provenance (oidc_life.network e) force o w). auto.
Qed.

Lemma getProvider_world net force o w :
  sched (getProvider net force o w).2 = sched w
  ∧ ∃ more, log (getProvider net force o w).2 = log w ++ more.
Proof.
  unfold getProvider.
  destruct (match provider o with None => true | Some _ => force end);
    [|split; [done|]; exists []; by rewrite app_nil_r].
  destruct (net (Endpoint o)); simpl; (split; [done|]); by eexists.
Qed.

Lemma step_world url_Parse e o w :
  sched (oidc_life.step url_Parse e (o, w)).2 = sched w
  ∧ ∃ more, log (oidc_life.step url_Parse e (o, w)).2 = log w ++ more.
Proof.
  assert (sched w = sched w ∧ ∃ more, log w = log w ++ more) as Hrefl.
  { split; [done|]. exists []. by rewrite app_nil_r. }
  unfold oidc_life.step. destruct (oidc_life.does e) as [|http ctx|name ctx|token ctx].
  - unfold refresh. pose proof (getProvider_world (oidc_life.network e) true o w) as H.
    by destruct (getProvider _ true o w) as [[? ?] ?].
  - unfold Call. destruct (GetCredentialsFromReq _ _) as [token|err]; [|done].
    unfold decodeAndVerifyToken. destruct (CheckContext ctx); [done|].
    unfold verifyToken. pose proof (getProvider_world (oidc_life.network e) false o w) as H.
    destruct (getProvider _ false o w) as [[[p|] o'] w']; simpl in *; [|done].
    destruct (Provider_Verify p token) as [t|]; [|done].
    by destruct (IDToken_Claims t).
  - unfold GetURL. pose proof (getProvider_world (oidc_life.network e) false o w) as H.
    destruct (getProvider _ false o w) as [[[p|] o'] w']; simpl in *; [|done].
    destruct (_ !! name) as [[]|]; try done. by destruct (url_Parse _).
  - unfold verifyToken. pose proof (getProvider_world (oidc_life.network e) false o w) as H.
    destruct (getProvider _ false o w) as [[[p|] o'] w']; simpl in *; [|done].
    by destruct (Provider_Verify p token).
Qed.

(** X4.  Whatever the refresher and the pipeline do to an evaluator, its
    endpoint, its credentials and its refresher stay those it was built
    with, and the provider it holds is either the one it started with or
    one that a discovery at its endpoint returned.  No worker is started
    or stopped on the way, and the log only grows. *)
Theorem run_provider_provenance url_Parse events o w :
  let o' := (oidc_life.run url_Parse events (o, w)).1 in
  let w' := (oidc_life.run url_Parse events (o, w)).2 in
  Endpoint o' = Endpoint o ∧ creds o' = creds o ∧ refresher o' = refresher o
  ∧ (provider o' = provider o
     ∨ ∃ e p, e ∈ events ∧ oidc_life.network e (Endpoint o) = Ok p
              ∧ provider o' = Some p)
  ∧ sched w' = sched w
  ∧ ∃ more, log w' = log w ++ more.
Proof.
  revert o w. induction events as [|e events IH]; intros o w.
  { cbn. repeat split; auto. exists []. by rewrite app_nil_r. }
  rewrite run_cons. pose proof (step_provenance url_Parse e o w) as Hstep.
  pose proof (step_world url_Parse e o w) as Hworld.
  destruct (oidc_life.step url_Parse e (o, w)) as [o1 w1]. simpl in Hstep, Hworld.
  destruct Hstep as (He & Hc & Hr & Hp). destruct Hworld as (Hs & more1 & Hl).
  destruct (IH o1 w1) as (He' & Hc' & Hr' & Hp' & Hs' & more & Hl'). cbn zeta.
  split; [congruence|]. split; [congruence|]. split; [congruence|].
  split; [|split; [congruence|exists (more1 ++ more); by rewrite Hl', Hl, app_assoc]].
  destruct Hp' as [Hsame|(e' & p & Hin & Hnet & Hp')].
  - destruct Hp as [Hp|(p & Hnet & Hp)]; [left; congruence|].
    right. exists e, p. split; [apply list_elem_of_here|]. split; [done|congruence].
  - right. exists e', p. split; [by apply list_elem_of_further|]. split; [congruence|done].
Qed.

(** X5.  [NewOIDC] returns an evaluator whether or not the issuer can be
    reached: it holds the given endpoint and credentials, and the
    provider of the one discovery it attempts, nil when that failed; the
    refresher is configured all the same (it is set exactly when the
    interval is accepted), and its first tick that reaches the issuer
    stores the provider. *)
Theorem NewOIDC_tolerates_failed_discovery net accepts endpoint authCred ttl w :
  let built := NewOIDC net accepts endpoint authCred ttl w in
  Endpoint built.1 = endpoint
  ∧ creds built.1 = authCred
  ∧ provider built.1 = match net endpoint with Ok p => Some p | Err _ => None end
  ∧ (is_Some (refresher built.1) ↔ accepts ttl = true)
  ∧ ∀ net' p, net' endpoint = Ok p -> provider (refresh net' built.1 built.2).1 = Some p.
Proof.
  unfold NewOIDC, getProvider. simpl.
  assert (∀ o w1, let built := configureProviderRefresh accepts ttl o w1 in
                  Endpoint built.1 = Endpoint o ∧ creds built.1 = creds o
                  ∧ provider built.1 = provider o
                  ∧ (is_Some (refresher built.1) ↔ accepts ttl = true)) as Hcfg.
  { intros o w1. unfold configureProviderRefresh, cron.StartWorker.
    destruct (accepts ttl); simpl; repeat split; try done; by intros [? ?]. }
  assert (∀ o w1 net' p, net' (Endpoint o) = Ok p -> provider (refresh net' o w1).1 = Some p)
    as Hrefresh.
  { intros o w1 net' p H. unfold refresh, getProvider. rewrite H.
    by destruct (provider o). }
  destruct (net endpoint) as [p|err];
    match goal with |- context [configureProviderRefresh accepts ttl ?o ?w1] =>
      destruct (Hcfg o w1) as (He & Hc & Hp & Hr)
    end;
    (split; [exact He|]; split; [exact Hc|]; split; [exact Hp|]; split; [exact Hr|]);
    intros net' p' Hn; apply Hrefresh; by rewrite He.
Qed.
Lemma NewOIDC_tolerates_failed_discovery_witness :
  let built := NewOIDC sample.unreachable (λ ttl, bool_decide (0 < ttl)%Z)
                       "https://idp.example.com" sample.bearer 60 sample.quiet in
  provider built.1 = None
  ∧ provider (refresh (λ _, Ok sample.provider) built.1 built.2).1 = Some sample.provider.
Proof.
  pose proof (NewOIDC_tolerates_failed_discovery sample.unreachable
                (λ ttl, bool_decide (0 < ttl)%Z) "https://idp.example.com" sample.bearer 60
                sample.quiet) as (_ & _ & Hp & _ & Hr).
  split; [exact Hp|]. exact (Hr (λ _, Ok sample.provider) sample.provider eq_refl).
Defined.

(** X6.  [GetURL] returns (it does not panic) exactly when, after the
    discovery it may trigger, there is a provider whose discovery
    document holds a string under the requested name, a document that
    cannot be decoded counting as empty; what it returns then is what
    [url.Parse] makes of that string, its error included. *)
Theorem GetURL_returns_iff net url_Parse name ctx o w :
  let document (p : Provider) : gmap string JSON :=
    match Provider_Claims p with Ok m => m | Err _ => ∅ end in
  ((∃ r, (GetURL net url_Parse name ctx o w).1.1 = Returns r)
   ↔ ∃ p s, (getProvider net false o w).1.1 = Some p ∧ document p !! name = Some (JString s))
  ∧ ∀ p s, (getProvider net false o w).1.1 = Some p ->
           document p !! name = Some (JString s) ->
           (GetURL net url_Parse name ctx o w).1.1 = Returns (url_Parse s).
Proof.
  intros document. unfold GetURL.
  destruct (getProvider net false o w) as [[[p|] o'] w']; simpl.
  - fold (document p). destruct (document p !! name) as [[| | |s| |]|] eqn:E; simpl;
      try (split; [split; [by intros [? ?]|intros (? & ? & [= <-] & H); congruence]
                  |intros ? ? [= <-] H; congruence]).
    split.
    + split; [intros _; by exists p, s|intros _].
      destruct (url_Parse s); by eexists.
    + intros p' s' [= <-] H. rewrite E in H. injection H as <-. by destruct (url_Parse s).
  - split; [split; [by intros [? ?]|by intros (? & ? & ? & _)]|done].
Qed.
End OIDCCalls.

(** ** The API key identity evaluator: the authorized set *)

Section APIKeySet.
Import api_key.

Lemma parseSecrets_snoc items secret :
  parseSecrets (items ++ [secret])
  = <[v1.datum secret apiKeySelector := secret]> (parseSecrets items).
Proof. unfold parseSecrets. by rewrite foldl_app. Qed.

(** The entries of the parsed map: under each key, the last listed secret
    that has it. *)
Lemma parseSecrets_lookup items key secret :
  parseSecrets items !! key = Some secret
  ↔ v1.datum secret apiKeySelector = key
    ∧ ∃ before after,
        items = before ++ secret :: after
        ∧ ∀ s, s ∈ after -> v1.datum s apiKeySelector ≠ v1.datum secret apiKeySelector.
Proof.
  split.
  - revert secret. induction items as [|x items IH] using rev_ind; intros secret.
    + unfold parseSecrets. simpl. by rewrite lookup_empty.
    + rewrite parseSecrets_snoc.
      destruct (decide (v1.datum x apiKeySelector = key)) as [<-|Hne].
      * rewrite lookup_insert_eq. intros [= ->]. split; [done|].
        exists items, []. split; [done|]. by intros s ?%elem_of_nil.
      * rewrite lookup_insert_ne by done. intros (Hk & before & after & -> & Hafter)%IH.
        split; [done|]. exists before, (after ++ [x]).
        split; [by rewrite <- app_assoc|].
        intros s [Hs|Hs%list_elem_of_singleton]%elem_of_app; [by apply Hafter|].
        subst s. congruence.
  - intros (<- & before & after & -> & Hafter). by apply parseSecrets_last.
Qed.

(** X7.  [GetCredentialsFromCluster] replaces the authorized set by what
    the cluster lists now: afterwards a secret is authorized exactly when
    it is listed and no secret listed after it has the same [api_key]
    datum, whatever was authorized before.  When the listing fails, the
    error is returned and the evaluator keeps the set it had. *)
Theorem GetCredentialsFromCluster_replaces apiKey :
  match client.List (k8sClient apiKey) (listOptions apiKey) with
  | Err err => GetCredentialsFromCluster apiKey = (Some err, apiKey)
  | Ok items =>
      (GetCredentialsFromCluster apiKey).1 = None
      ∧ ∀ secret,
          authorized (GetCredentialsFromCluster apiKey).2 secret
          ↔ ∃ before after,
              items = before ++ secret :: after
              ∧ ∀ s, s ∈ after ->
                     v1.datum s apiKeySelector ≠ v1.datum secret apiKeySelector
  end.
Proof.
  unfold GetCredentialsFromCluster.
  destruct (client.List (k8sClient apiKey) (listOptions apiKey)) as [items|err]; [|done].
  split; [done|]. intros secret. unfold authorized. simpl. split.
  - by intros [key (_ & H)%parseSecrets_lookup].
  - intros H. exists (v1.datum secret apiKeySelector). by apply parseSecrets_lookup.
Qed.

(** X8.  A listed secret without [api_key] datum is filed under the empty
    key: a request whose credential is the empty string is then accepted,
    and answered with a secret that has no (or an empty) [api_key]. *)
Theorem Call_accepts_empty_credential name labelSelectors namespace authCred k8sClient
    http order items secret :
  let apiKey := (NewApiKeyIdentity name labelSelectors namespace authCred k8sClient).1 in
  client.List k8sClient (listOptions apiKey) = Ok items ->
  secret ∈ items ->
  v1.Data secret !! apiKeySelector = None ->
  GetCredentialsFromReq authCred http = Ok "" ->
  visits (authorizedCredentials apiKey) order ->
  ∃ secret', Call http order apiKey = Ok secret'
             ∧ secret' ∈ items ∧ v1.datum secret' apiKeySelector = "".
Proof.
  intros apiKey Hlist Hin Hdata Hreq Hvisit.
  destruct (NewApiKeyIdentity_credentials name labelSelectors namespace authCred k8sClient)
    as (Hc & _ & _ & Ha). fold apiKey in Hc, Ha. rewrite Hlist in Ha.
  assert (∃ secret', parseSecrets items !! "" = Some secret') as [secret' Hs].
  { assert (∀ l, (∃ s, s ∈ l ∧ v1.datum s apiKeySelector = "") ->
                 is_Some (parseSecrets l !! "")) as Hcov.
    { induction l as [|x l IH] using rev_ind.
      - by intros (s & ?%elem_of_nil & _).
      - rewrite parseSecrets_snoc. intros (s & Hs & Hk).
        destruct (decide (v1.datum x apiKeySelector = "")) as [->|Hne].
        + rewrite lookup_insert_eq. by eexists.
        + rewrite lookup_insert_ne by done. apply IH. exists s. split; [|done].
          apply elem_of_app in Hs as [Hs|Hs%list_elem_of_singleton]; [done|congruence]. }
    apply Hcov. exists secret. split; [done|]. unfold v1.datum. by rewrite Hdata. }
  exists secret'. apply parseSecrets_keyed in Hs as Hk. destruct Hk as [Hk Hin'].
  split; [|done].
  unfold Call. rewrite Hc, Hreq, (range_find_lookup _ _ _ Hvisit), Ha. by rewrite Hs.
Qed.
Lemma Call_accepts_empty_credential_witness :
  ∃ secret',
    Call (sample.request "")
         (map_to_list
            (authorizedCredentials
               (NewApiKeyIdentity "friends" {[ "group" := "friends" ]} "red" sample.bearer
                  (client.cluster (sample.keyless :: sample.secrets))).1))
         (NewApiKeyIdentity "friends" {[ "group" := "friends" ]} "red" sample.bearer
            (client.cluster (sample.keyless :: sample.secrets))).1
    = Ok secret'
    ∧ v1.datum secret' apiKeySelector = "".
Proof.
  assert (client.List (client.cluster (sample.keyless :: sample.secrets))
            (listOptions
               (NewApiKeyIdentity "friends" {[ "group" := "friends" ]} "red" sample.bearer
                  (client.cluster (sample.keyless :: sample.secrets))).1)
          = Ok [sample.keyless; sample.secret "red" "alice" "k1";
                sample.secret "red" "bob" "k2"]) as Hlist
    by (vm_compute; reflexivity).
  assert (sample.keyless ∈ [sample.keyless; sample.secret "red" "alice" "k1";
                            sample.secret "red" "bob" "k2"]) as Hin
    by apply list_elem_of_here.
  destruct (Call_accepts_empty_credential "friends" {[ "group" := "friends" ]} "red"
              sample.bearer (client.cluster (sample.keyless :: sample.secrets))
              (sample.request "") _ _ sample.keyless Hlist Hin eq_refl eq_refl
              (reflexivity _))
    as (secret' & H1 & _ & H2).
  exists secret'. split; [exact H1|exact H2].
Defined.

(** X9.  [FindSecretByName] returns an authorized secret of the namespace
    and name asked for, and nil exactly when no authorized secret has
    them, whatever the order in which the range visits the set; when no
    two authorized secrets have the same namespace and name, as in a
    cluster, the secret returned is the one that has them, in every
    order. *)
Theorem FindSecretByName_authorized apiKey order lookup :
  visits (authorizedCredentials apiKey) order ->
  let named (secret : v1.Secret) :=
    v1.Namespace secret = types.Namespace lookup ∧ v1.Name secret = types.Name lookup in
  (∀ secret, FindSecretByName lookup order = Some secret ->
     authorized apiKey secret ∧ named secret)
  ∧ (FindSecretByName lookup order = None
     ↔ ∀ secret, authorized apiKey secret -> ¬ named secret)
  ∧ ((∀ s1 s2, authorized apiKey s1 -> authorized apiKey s2 ->
        v1.Namespace s1 = v1.Namespace s2 -> v1.Name s1 = v1.Name s2 -> s1 = s2) ->
     ∀ secret, authorized apiKey secret -> named secret ->
               FindSecretByName lookup order = Some secret).
Proof.
  intros Hv named. unfold visits in Hv. unfold authorized.
  assert (∀ secret, (∃ key, authorizedCredentials apiKey !! key = Some secret)
                    ↔ ∃ key, (key, secret) ∈ order) as Hin.
  { intros secret. split; intros [key H]; exists key.
    - rewrite Hv. by apply elem_of_map_to_list.
    - rewrite Hv in H. by apply elem_of_map_to_list in H. }
  clear Hv.
  assert (∀ secret, FindSecretByName lookup order = Some secret ->
                    (∃ key, authorizedCredentials apiKey !! key = Some secret)
                    ∧ named secret) as Hsome.
  { intros secret H. rewrite Hin. clear Hin.
    induction order as [|[key s] order IH]; simpl in H; [done|].
    case_decide as Hd.
    - injection H as ->. split; [|done]. exists key. apply list_elem_of_here.
    - destruct (IH H) as ([key' Hk] & ?). split; [|done].
      exists key'. by apply list_elem_of_further. }
  assert (FindSecretByName lookup order = None
          ↔ ∀ secret, (∃ key, authorizedCredentials apiKey !! key = Some secret) ->
                      ¬ named secret) as Hnone.
  { assert (FindSecretByName lookup order = None
            ↔ ∀ key secret, (key, secret) ∈ order -> ¬ named secret) as ->.
    { clear Hin Hsome. induction order as [|[key s] order IH]; simpl.
      - split; [|done]. by intros _ ? ? ?%elem_of_nil.
      - case_decide as Hd.
        + split; [done|]. intros H. exfalso. by apply (H key s); [apply list_elem_of_here|].
        + rewrite IH. split.
          * intros H k x [[= -> ->]|Hx]%elem_of_cons; [done|by eapply H].
          * intros H k x Hx. apply (H k). by apply list_elem_of_further. }
    split.
    - intros H secret [key Hk]%Hin. by apply (H key).
    - intros H key secret Hk. apply H, Hin. by exists key. }
  split; [done|]. split; [done|].
  intros Hunique secret Hauth Hnamed.
  destruct (FindSecretByName lookup order) as [found|] eqn:E.
  - destruct (Hsome found eq_refl) as [Hfa [Hfns Hfn]]. destruct Hnamed as [Hns Hn].
    f_equal. apply Hunique; [done..|congruence|congruence].
  - exfalso. by apply (proj1 Hnone eq_refl secret).
Qed.
Lemma FindSecretByName_authorized_witness :
  FindSecretByName {| types.Namespace := "red"; types.Name := "bob" |}
                   (map_to_list (authorizedCredentials sample.friends))
  = Some (sample.secret "red" "bob" "k2")
  ∧ authorized sample.friends (sample.secret "red" "bob" "k2").
Proof.
  split; [vm_compute; reflexivity|].
  refine (proj1 (proj1 (FindSecretByName_authorized sample.friends
                          (map_to_list (authorizedCredentials sample.friends))
                          {| types.Namespace := "red"; types.Name := "bob" |} _)
                       (sample.secret "red" "bob" "k2") _)).
  - unfold visits. reflexivity.
  - vm_compute. reflexivity.
Defined.

(** X10.  Against a cluster that holds [secrets], every secret that the
    constructed evaluator authorizes is one of them, carries every label
    of the selector, and lies in the namespace of the evaluator unless
    that is empty. *)
Theorem authorized_secrets_are_selected name labelSelectors namespace authCred secrets secret :
  let apiKey := (NewApiKeyIdentity name labelSelectors namespace authCred
                   (client.cluster secrets)).1 in
  authorized apiKey secret ->
  secret ∈ secrets
  ∧ labelSelectors ⊆ v1.Labels secret
  ∧ (namespace ≠ "" -> v1.Namespace secret = namespace).
Proof.
  intros apiKey [key H].
  destruct (NewApiKeyIdentity_credentials name labelSelectors namespace authCred
              (client.cluster secrets)) as (_ & Hl & Hn & Ha).
  fold apiKey in Hl, Hn, Ha. rewrite Ha in H. simpl in H.
  apply parseSecrets_keyed in H as [_ H].
  apply list_elem_of_In, filter_In in H as [H Hsel]. apply list_elem_of_In in H.
  split; [done|]. unfold client.selects, listOptions in Hsel. rewrite Hl, Hn in Hsel.
  case_decide as Hns; simpl in Hsel.
  - apply andb_prop in Hsel as [H1 H2]. apply andb_prop in H2 as [H2 _].
    apply bool_decide_eq_true in H1, H2. done.
  - apply andb_prop in Hsel as [H1 _]. apply bool_decide_eq_true in H1. done.
Qed.
Lemma authorized_secrets_are_selected_witness :
  v1.Namespace (sample.secret "red" "alice" "k1") = "red".
Proof.
  refine (proj2 (proj2 (authorized_secrets_are_selected "friends" {[ "group" := "friends" ]}
                          "red" sample.bearer sample.secrets
                          (sample.secret "red" "alice" "k1") _)) _).
  - exists "k1". vm_compute. reflexivity.
  - discriminate.
Defined.
End APIKeySet.

(** ** The translation: what it builds, and when it fails *)

Section TranslationShape.
Import controllers translation.

Lemma buildJSONProperties_map properties :
  buildJSONProperties properties = toJSONProperty <$> properties.
Proof. exact (append_each toJSONProperty properties []). Qed.

(** X11.  [findIdentityConfigByName] returns the first identity config of
    the list that has the name, and the error "missing identity config"
    followed by the name exactly when none has it. *)
Theorem findIdentityConfigByName_first identityConfigs name :
  match findIdentityConfigByName identityConfigs name with
  | Ok id =>
      config.id_Name id = name
      ∧ ∃ before after,
          identityConfigs = before ++ id :: after
          ∧ Forall (λ c, config.id_Name c ≠ name) before
  | Err err =>
      err = "missing identity config " +:+ name
      ∧ Forall (λ c, config.id_Name c ≠ name) identityConfigs
  end.
Proof.
  induction identityConfigs as [|c cs IH]; simpl; [done|].
  case_decide as Hc.
  - split; [done|]. by exists [], cs.
  - destruct (findIdentityConfigByName cs name) as [id|err].
    + destruct IH as (Hn & before & after & -> & Hb). split; [done|].
      exists (c :: before), after. split; [done|]. by constructor.
    + destruct IH as [-> Hall]. split; [done|]. by constructor.
Qed.

(** X12.  [buildAuthorinoDenyWithValues] returns nil for nil and values
    otherwise; the values have the message of the spec, one header per
    header of the spec, in order, and a code that fits 32 bits and is the
    code of the spec whenever that one does. *)
Theorem buildAuthorinoDenyWithValues_values denyWithSpec :
  match denyWithSpec, buildAuthorinoDenyWithValues denyWithSpec with
  | None, None => True
  | Some spec, Some values =>
      config.dv_Message values = api.dw_Message spec
      ∧ config.dv_Headers values = toJSONProperty <$> api.dw_Headers spec
      ∧ (- 2 ^ 31 ≤ config.dv_Code values < 2 ^ 31)%Z
      ∧ ((- 2 ^ 31 ≤ api.dw_Code spec < 2 ^ 31)%Z -> config.dv_Code values = api.dw_Code spec)
  | _, _ => False
  end.
Proof.
  destruct denyWithSpec as [spec|]; simpl; [|done].
  split; [done|]. split; [apply buildJSONProperties_map|]. unfold int32.
  change (2 ^ 31)%Z with 2147483648%Z. change (2 ^ 32)%Z with 4294967296%Z.
  pose proof (Z.mod_pos_bound (api.dw_Code spec + 2147483648) 4294967296 eq_refl).
  split; [lia|]. intros H'. rewrite Z.mod_small; lia.
Qed.

Lemma translateIdentity_same r env authConfig identity s cfg s' :
  translateIdentity r env authConfig identity s = (Ok cfg, s') ->
  same_identity authConfig identity cfg.
Proof.
  unfold translateIdentity, bind, new, ret, fail, getSecret, try, in_world, logs.
  intros H. repeat (case_match; simplify_eq/=);
    (repeat split; [apply buildJSONProperties_map|]);
    match goal with Hm : api.id_Method _ = _ |- _ => by rewrite Hm end.
Qed.

Lemma translateMetadata_same env authConfig identityConfigs metadata s cfg s' :
  translateMetadata env authConfig identityConfigs metadata s = (Ok cfg, s') ->
  same_metadata authConfig metadata cfg.
Proof.
  unfold translateMetadata, bind, new, ret, fail, getSecret, try.
  intros H. repeat (case_match; simplify_eq/=); repeat split;
    match goal with Hm : api.md_Method _ = _ |- _ => by rewrite Hm end.
Qed.

Lemma translateAuthorization_same env authConfig index authorization s cfg s' :
  translateAuthorization env authConfig index authorization s = (Ok cfg, s') ->
  same_authorization authConfig authorization cfg.
Proof.
  unfold translateAuthorization, bind, new, ret, fail, getSecret, try.
  intros H. repeat (case_match; simplify_eq/=); repeat split;
    match goal with Hm : api.az_Method _ = _ |- _ => by rewrite Hm end.
Qed.

Lemma translateResponse_same env authConfig response s cfg s' :
  translateResponse env authConfig response s = (Ok cfg, s') ->
  same_response authConfig response cfg.
Proof.
  unfold translateResponse, bind, new, ret, fail, try.
  intros H. repeat (case_match; simplify_eq/=); repeat split;
    match goal with Hm : api.rs_Method _ = _ |- _ => by rewrite Hm end.
Qed.

Lemma range_append_from_nil {A B} (R : A -> B -> Prop) (body : nat -> A -> T B) l s out s' :
  (∀ i x s y s', body i x s = (Ok y, s') -> R x y) ->
  range_append body 0 l [] s = (Ok out, s') -> Forall2 R l out.
Proof.
  intros Hb H. by apply (range_append_Forall2 R body l Hb) in H as (ys & -> & Hys).
Qed.

(** X13.  A translation that succeeds returns a map with one entry per
    host of the AuthConfig, all holding the same APIConfig.  Phase by
    phase, that APIConfig has one evaluator per entry of the spec, in the
    order of the spec, with the name, priority and metrics flag of the
    entry, its conditions expanded, and the method field of its kind set
    and no other; its conditions are those of the spec expanded, and its
    labels name the AuthConfig.  The host index and the record of cleaned
    evaluators are left as they were. *)
Theorem translateAuthConfig_shape r env authConfig s byHost s' :
  translateAuthConfig r env authConfig s = (Ok byHost, s') ->
  let spec := api.Spec authConfig in
  ∃ apiConfig,
    (∀ host, byHost !! host = if decide (host ∈ api.Hosts spec) then Some apiConfig else None)
    ∧ Forall2 (same_identity authConfig) (api.Identity_ spec) (config.IdentityConfigs apiConfig)
    ∧ Forall2 (same_metadata authConfig) (api.Metadata_ spec) (config.MetadataConfigs apiConfig)
    ∧ Forall2 (same_authorization authConfig) (api.Authorization_ spec)
              (config.AuthorizationConfigs apiConfig)
    ∧ Forall2 (same_response authConfig) (api.Response_ spec) (config.ResponseConfigs apiConfig)
    ∧ config.Conditions apiConfig = buildJSONPatternExpressions authConfig (api.Conditions spec)
    ∧ config.Labels apiConfig
      = {[ "namespace" := api.Namespace authConfig; "name" := api.Name authConfig ]}
    ∧ Cache s' = Cache s ∧ cleaned s' = cleaned s.
Proof.
  intros Ht spec.
  destruct (keeps_translateAuthConfig r env authConfig s) as [Hcache Hcleaned].
  rewrite Ht in Hcache, Hcleaned. simpl in Hcache, Hcleaned.
  revert Ht. unfold translateAuthConfig. fold spec. unfold bind at 1.
  destruct (range_append _ 0 (api.Identity_ _) [] s) as [[ids|?] s1] eqn:Eid; [|done].
  unfold bind at 1.
  destruct (range_append _ 0 (api.Metadata_ _) [] s1) as [[mds|?] s2] eqn:Emd; [|done].
  unfold bind at 1.
  destruct (range_append _ 0 (api.Authorization_ _) [] s2) as [[azs|?] s3] eqn:Eaz; [|done].
  unfold bind at 1.
  destruct (range_append _ 0 (api.Response_ _) [] s3) as [[rss|?] s4] eqn:Ers; [|done].
  intros [= <- <-]. eexists. split.
  { intros host. rewrite hosts_map_from. by rewrite lookup_empty. }
  simpl. repeat split; try done.
  - eapply range_append_from_nil, Eid. intros ? ? ? ? ?. apply translateIdentity_same.
  - eapply range_append_from_nil, Emd. intros ? ? ? ? ?. apply translateMetadata_same.
  - eapply range_append_from_nil, Eaz. intros ? ? ? ? ?. apply translateAuthorization_same.
  - eapply range_append_from_nil, Ers. intros ? ? ? ? ?. apply translateResponse_same.
Qed.
Lemma translateAuthConfig_shape_witness :
  ∃ apiConfig,
    Forall2 (same_identity (sample.authConfig "red" "a" ["h1.com"]
                              [sample.identity "anyone" api.Anonymous] []))
            [sample.identity "anyone" api.Anonymous] (config.IdentityConfigs apiConfig)
    ∧ config.Labels apiConfig = {[ "namespace" := "red"; "name" := "a" ]}.
Proof.
  destruct (translateAuthConfig sample.clusterWide (sample.env (NotFound "gone"))
              (sample.authConfig "red" "a" ["h1.com"]
                 [sample.identity "anyone" api.Anonymous] []) init)
    as [[byHost|err] s'] eqn:E; [|by vm_compute in E].
  destruct (translateAuthConfig_shape _ _ _ _ _ _ E)
    as (apiConfig & _ & H1 & _ & _ & _ & _ & H2 & _).
  exists apiConfig. split; [exact H1|exact H2].
Defined.

(** X14.  A UserInfo metadata takes the OIDC evaluator of the first
    identity config that has the name it refers to, whatever the kind of
    that identity: when it is not an OIDC identity the translation still
    succeeds, and the UserInfo evaluator holds a nil OIDC evaluator. *)
Theorem userInfo_takes_first_identity env authConfig before idConfig after metadata
    IdentitySource s :
  api.md_Method metadata = api.UserInfo IdentitySource ->
  config.id_Name idConfig = IdentitySource ->
  Forall (λ c, config.id_Name c ≠ IdentitySource) before ->
  ∃ cfg,
    (translateMetadata env authConfig (before ++ idConfig :: after) metadata s).1 = Ok cfg
    ∧ config.md_UserInfo cfg = Some {| config.ui_OIDC := config.id_OIDC idConfig |}
    ∧ config.md_UMA cfg = None ∧ config.md_GenericHTTP cfg = None.
Proof.
  intros Hm Hn Hb.
  assert (findIdentityConfigByName (before ++ idConfig :: after) IdentitySource = Ok idConfig)
    as Hfind.
  { induction Hb as [|c cs Hc _ IH]; simpl.
    - by rewrite decide_True.
    - by rewrite decide_False. }
  unfold translateMetadata, bind, new. simpl. rewrite Hm, Hfind. simpl.
  eexists. split; [reflexivity|]. by simpl.
Qed.

Lemma userInfo_takes_first_identity_witness :
  ∃ cfg,
    (translateMetadata (sample.env (NotFound "gone"))
       (sample.authConfig "red" "a" ["h1.com"] [sample.identity "anyone" api.Anonymous] [])
       ([] ++ sample.anyone :: [])
       (sample.metadata "userinfo" (api.UserInfo "anyone")) init).1 = Ok cfg
    ∧ config.md_UserInfo cfg = Some {| config.ui_OIDC := None |}.
Proof.
  destruct (userInfo_takes_first_identity (sample.env (NotFound "gone"))
              (sample.authConfig "red" "a" ["h1.com"]
                 [sample.identity "anyone" api.Anonymous] [])
              [] sample.anyone [] (sample.metadata "userinfo" (api.UserInfo "anyone"))
              "anyone" init eq_refl eq_refl (Forall_nil_2 _))
    as (cfg & H1 & H2 & _).
  exists cfg. split; [exact H1|exact H2].
Defined.

Lemma findIdentityConfigByName_Err identityConfigs name err :
  findIdentityConfigByName identityConfigs name = Err err ->
  Forall (λ c, config.id_Name c ≠ name) identityConfigs.
Proof.
  induction identityConfigs as [|c cs IH]; simpl; [done|].
  case_decide as Hc; [done|]. intros Hrest. constructor; [done|by apply IH].
Qed.

Lemma range_append_Err {A B} (body : nat -> A -> T B) l i acc s err s' :
  range_append body i l acc s = (Err err, s') ->
  ∃ x j s1 s2, x ∈ l ∧ body j x s1 = (Err err, s2).
Proof.
  revert i acc s. induction l as [|x l IH]; intros i acc s; simpl; [done|].
  unfold bind at 1. destruct (body i x s) as [[y|e] s1] eqn:E.
  - intros (x' & j & s2 & s3 & Hin & H)%IH. exists x', j, s2, s3.
    split; [by apply list_elem_of_further|done].
  - intros [= <- <-]. exists x, i, s, s1. split; [apply list_elem_of_here|done].
Qed.

Ltac unreliable :=
  match goal with
  | R : reliable _ |- _ =>
      destruct R as (R1 & R2 & R3 & R4 & R5 & R6);
      match goal with
      | H : NewKubernetesAuthIdentity _ ?a ?b = Err _ |- _ =>
          destruct (R1 a b); congruence
      | H : NewUMAMetadata _ ?a ?b ?c = Err _ |- _ =>
          destruct (R2 a b c); congruence
      | H : NewOPAAuthorization _ ?a ?b ?c ?d ?e = Err _ |- _ =>
          destruct (R3 a b c d e); congruence
      | H : NewKubernetesAuthz _ ?a ?b ?c = Err _ |- _ =>
          destruct (R4 a b c); congruence
      | H : NewSigningKey _ ?a ?b ?c = Err _ |- _ =>
          destruct (R5 a b c); congruence
      | H : NewWristbandConfig _ ?a ?b ?c ?d = Err _ |- _ =>
          destruct (R6 a b c d); congruence
      end
  end.

Lemma translateIdentity_Err r env authConfig identity s err s' :
  reliable env ->
  translateIdentity r env authConfig identity s = (Err err, s') ->
  bad_identity env authConfig identity.
Proof.
  unfold translateIdentity, bind, new, ret, fail, getSecret, try, in_world, logs.
  unfold bad_identity, identity_secrets, unfetchable.
  intros Hrel H. repeat (case_match; simplify_eq/=); try unreliable; try by left.
  right. eexists. split; [apply list_elem_of_here|by eexists].
Qed.

Lemma translateMetadata_Err env authConfig identityConfigs metadata s err s' :
  reliable env ->
  config.id_Name <$> identityConfigs = api.id_Name <$> api.Identity_ (api.Spec authConfig) ->
  translateMetadata env authConfig identityConfigs metadata s = (Err err, s') ->
  bad_metadata env authConfig metadata.
Proof.
  unfold translateMetadata, bind, new, ret, fail, getSecret, try.
  unfold bad_metadata, metadata_secrets, unfetchable.
  intros Hrel Hnames H. repeat (case_match; simplify_eq/=); try unreliable; try by left.
  - right. left. eexists. split; [apply list_elem_of_here|by eexists].
  - right. right. eexists. split; [done|]. intros identity Hin Hn.
    match goal with
    | Hf : findIdentityConfigByName identityConfigs ?src = Err _ |- _ =>
        pose proof (findIdentityConfigByName_Err _ _ _ Hf) as Hall
    end.
    assert (api.id_Name identity ∈ config.id_Name <$> identityConfigs) as Hc.
    { rewrite Hnames. apply list_elem_of_fmap. by exists identity. }
    apply list_elem_of_fmap in Hc as (c & Hc & Hcin).
    rewrite Forall_forall in Hall. apply (Hall c Hcin). congruence.
  - right. left. eexists. split; [apply list_elem_of_here|by eexists].
Qed.

Lemma translateAuthorization_Err env authConfig index authorization s err s' :
  reliable env ->
  translateAuthorization env authConfig index authorization s = (Err err, s') ->
  bad_authorization env authConfig authorization.
Proof.
  unfold translateAuthorization, bind, new, ret, fail, getSecret, try.
  unfold bad_authorization, authorization_secrets, unfetchable.
  intros Hrel H. repeat (case_match; simplify_eq/=); try unreliable; try by left.
  right. eexists. split; [apply list_elem_of_here|by eexists].
Qed.

Lemma translateResponse_Err env authConfig response s err s' :
  reliable env ->
  translateResponse env authConfig response s = (Err err, s') ->
  bad_response env authConfig response.
Proof.
  unfold translateResponse, bind, new, ret, fail, try.
  unfold bad_response, response_secrets, unfetchable.
  intros Hrel H. repeat (case_match; simplify_eq/=); try unreliable; try by left.
  right.
  match goal with
  | Hl : range_append _ _ _ _ _ = (Err _, _) |- _ =>
      apply range_append_Err in Hl as (ref & j & s1 & s2 & Hin & Hkey)
  end.
  unfold translateSigningKey, bind, getSecret, try, ret, fail in Hkey.
  repeat (case_match; simplify_eq/=); try unreliable.
  exists (api.sk_Name ref). split; [|by eexists].
  apply list_elem_of_fmap. by exists ref.
Qed.

(** X15.  With evaluator constructors that do not fail, a translation
    fails exactly when the AuthConfig refers to a secret that cannot be
    fetched, has an entry of unknown kind, or has a UserInfo metadata that
    names no identity of the AuthConfig.  In particular an unreachable
    OIDC issuer and a failed listing of API key secrets do not fail it. *)
Theorem translation_fails_iff_invalid r env authConfig s :
  reliable env ->
  (∃ err, (translateAuthConfig r env authConfig s).1 = Err err) ↔ invalid env authConfig.
Proof.
  intros Hrel. split; [|intros H; by apply fails_translateAuthConfig].
  intros [err H]. revert H. unfold translateAuthConfig, invalid. unfold bind at 1.
  destruct (range_append _ 0 (api.Identity_ _) [] s) as [[ids|?] s1] eqn:Eid; simpl.
  2: { intros [= ->]. left. apply range_append_Err in Eid as (x & j & s2 & s3 & Hin & Hx).
       exists x. split; [done|]. by eapply translateIdentity_Err. }
  apply identity_loop_names in Eid as Hnames.
  unfold bind at 1.
  destruct (range_append _ 0 (api.Metadata_ _) [] s1) as [[mds|?] s2] eqn:Emd; simpl.
  2: { intros [= ->]. right. left.
       apply range_append_Err in Emd as (x & j & s3 & s4 & Hin & Hx).
       exists x. split; [done|]. by eapply translateMetadata_Err. }
  unfold bind at 1.
  destruct (range_append _ 0 (api.Authorization_ _) [] s2) as [[azs|?] s3] eqn:Eaz; simpl.
  2: { intros [= ->]. right. right. left.
       apply range_append_Err in Eaz as (x & j & s4 & s5 & Hin & Hx).
       exists x. split; [done|]. by eapply translateAuthorization_Err. }
  unfold bind at 1.
  destruct (range_append _ 0 (api.Response_ _) [] s3) as [[rss|?] s4] eqn:Ers; simpl.
  2: { intros [= ->]. right. right. right.
       apply range_append_Err in Ers as (x & j & s5 & s6 & Hin & Hx).
       exists x. split; [done|]. by eapply translateResponse_Err. }
  done.
Qed.
Lemma translation_fails_iff_invalid_witness :
  invalid (sample.env (NotFound "gone"))
          (sample.authConfig "red" "a" ["h1.com"] [sample.identity "anyone" api.Anonymous]
             [sample.metadata "userinfo" (api.UserInfo "nobody")]).
Proof.
  apply (translation_fails_iff_invalid sample.clusterWide (sample.env (NotFound "gone"))
           (sample.authConfig "red" "a" ["h1.com"] [sample.identity "anyone" api.Anonymous]
              [sample.metadata "userinfo" (api.UserInfo "nobody")]) init).
  - repeat split; intros; by eexists.
  - exists "missing identity config nobody". vm_compute. reflexivity.
Defined.
End TranslationShape.

(** ** The reconciliation: bindings, evictions and errors *)

Section ReconcileBinds.
Import controllers translation.

Lemma split_head_fixed s :
  cache.split_head s = s ↔ ¬ In cache.Separator (list_ascii_of_string s).
Proof.
  induction s as [|c s IH]; simpl; [by split; [intros _ []|]|].
  case_decide as Hc.
  - subst c. split; [done|]. intros H. exfalso. apply H. by left.
  - split.
    + intros [= H]. apply IH in H. by intros [?|?].
    + intros H. f_equal. apply IH. intros Hin. apply H. by right.
Qed.

(** X16.  The configId of a request is its namespace, the separator and
    its name, and the collision check reads the namespace back as what
    precedes the first separator: it reads the namespace of the request
    exactly when that namespace holds no separator, whatever the name. *)
Theorem cacheId_namespace_round_trip req :
  cache.split_head (NamespacedName_String req) = nn_Namespace req
  ↔ ¬ In cache.Separator (list_ascii_of_string (nn_Namespace req)).
Proof. unfold NamespacedName_String. rewrite split_head_join. apply split_head_fixed. Qed.

Lemma Set_binds {V} id host (v : V) override c :
  (cache.Set_ id host v override c).1 = None ->
  cache.entries (cache.Set_ id host v override c).2 !! host = Some (id, v).
Proof.
  unfold cache.Set_, cache.install.
  destruct (cache.entries c !! host) as [[id' v']|]; simpl; [|by rewrite lookup_insert_eq].
  case_decide; simpl; [by rewrite lookup_insert_eq|].
  destruct (override && _); simpl; [by rewrite lookup_insert_eq|done].
Qed.

Lemma taken_entries req host c c' :
  cache.entries c' !! host = cache.entries c !! host -> taken req host c' = taken req host c.
Proof. unfold taken, cache.FindId. by intros ->. Qed.

(** The loop over the hosts when none of them is taken: it runs to its
    end, binds every host it visits, and touches no other host. *)
Lemma bindHosts_binds req byHost order s :
  cache.split_head (nn_Namespace req) = nn_Namespace req ->
  (∀ host, is_Some (byHost !! host) -> taken req host (Cache s) = false) ->
  (bindHosts req (NamespacedName_String req) byHost order s).1 = None
  ∧ ∀ host,
      cache.entries (Cache (bindHosts req (NamespacedName_String req) byHost order s).2) !! host
      = match byHost !! host with
        | Some apiConfig =>
            if decide (host ∈ order) then Some (NamespacedName_String req, apiConfig)
            else cache.entries (Cache s) !! host
        | None => cache.entries (Cache s) !! host
        end.
Proof.
  intros Hreq. revert s. induction order as [|h order IH]; intros s Hfree; cbn [bindHosts].
  { split; [done|]. intros host. destruct (byHost !! host); [|done].
    by rewrite decide_False by apply not_elem_of_nil. }
  destruct (byHost !! h) as [apiConfig|] eqn:Hb.
  - rewrite (Hfree h) by (by rewrite Hb).
    pose proof (Set_after_check req h apiConfig (Cache s) Hreq
                  (Hfree h ltac:(by rewrite Hb))) as Hok.
    pose proof (Set_binds (NamespacedName_String req) h apiConfig true (Cache s) Hok) as Hh.
    pose proof (Set_other (NamespacedName_String req) h apiConfig true (Cache s)) as Hothers.
    destruct (cache.Set_ _ h apiConfig true (Cache s)) as [[err|] c]; simpl in *; [done|].
    destruct (IH (set_Cache c s)) as [Hnone Hentries].
    { intros host Hhost. simpl. destruct (decide (h = host)) as [<-|Hne].
      - unfold taken, cache.FindId. rewrite Hh. simpl.
        apply bool_decide_eq_false_2. intros Hns. apply Hns.
        unfold NamespacedName_String. by rewrite split_head_join.
      - rewrite (taken_entries req host (Cache s) c) by (by apply Hothers). by apply Hfree. }
    split; [done|]. intros host. rewrite Hentries. simpl.
    destruct (byHost !! host) as [apiConfig'|] eqn:Hb'.
    + destruct (decide (h = host)) as [<-|Hne].
      * rewrite (decide_True (P := h ∈ h :: order)) by apply list_elem_of_here.
        simplify_eq. by destruct (decide (h ∈ order)).
      * rewrite (Hothers host Hne).
        destruct (decide (host ∈ order)) as [Hin|Hnin].
        -- by rewrite decide_True by (by apply list_elem_of_further).
        -- rewrite decide_False; [done|]. by intros [?|?]%elem_of_cons.
    + apply Hothers. intros <-. congruence.
  - destruct (IH s Hfree) as [Hnone Hentries]. split; [done|].
    intros host. rewrite Hentries. destruct (byHost !! host) as [apiConfig'|] eqn:Hb'; [|done].
    assert (h ≠ host) as Hne by (intros <-; congruence).
    destruct (decide (host ∈ order)) as [Hin|Hnin].
    + by rewrite decide_True by (by apply list_elem_of_further).
    + rewrite decide_False; [done|]. by intros [?|?]%elem_of_cons.
Qed.

(** X17.  The reconciliation of a watched AuthConfig whose translation
    succeeds and none of whose hosts is bound to a configId of another
    namespace returns nil; afterwards every host of the AuthConfig
    resolves to the configId of the request and to the APIConfig just
    translated, a host that was bound to another AuthConfig of the same
    namespace included, and the binding of every other host is what it
    was, a host that the AuthConfig listed before and lists no more
    included. *)
Theorem Reconcile_binds_hosts r env order req s authConfig byHost s1 :
  GetAuthConfig env req = Found authConfig ->
  Watched (api.Labels authConfig) (LabelSelector r) = true ->
  translateAuthConfig r env authConfig (cleanAndLog (NamespacedName_String req) s)
  = (Ok byHost, s1) ->
  cache.split_head (nn_Namespace req) = nn_Namespace req ->
  (∀ host, host ∈ api.Hosts (api.Spec authConfig) ->
     host ∈ order ∧ taken req host (Cache s) = false) ->
  let after := Reconcile r env order req s in
  after.1 = None
  ∧ (∀ host, host ∈ api.Hosts (api.Spec authConfig) ->
       cache.FindId host (Cache after.2) = Some (NamespacedName_String req)
       ∧ cache.Get host (Cache after.2) = byHost !! host)
  ∧ (∀ host, host ∉ api.Hosts (api.Spec authConfig) ->
       cache.entries (Cache after.2) !! host = cache.entries (Cache s) !! host).
Proof.
  intros Hget Hw Ht Hreq Hhosts after.
  destruct (translateAuthConfig_returns _ _ _ _ _ _ Ht) as (apiConfig & HbyHost & _).
  assert (Cache s1 = Cache s) as Hc1.
  { destruct (keeps_translateAuthConfig r env authConfig
                (cleanAndLog (NamespacedName_String req) s)) as [Hc _].
    rewrite Ht in Hc. simpl in Hc. by rewrite Hc, cleanAndLog_Cache. }
  destruct (bindHosts_binds req byHost order s1 Hreq) as [Hnone Hentries].
  { intros host [? Hb]. rewrite HbyHost in Hb. case_decide; [|done].
    rewrite Hc1. by apply Hhosts. }
  subst after. unfold Reconcile. rewrite Hget, Hw. simpl. rewrite Ht.
  destruct (bindHosts req _ byHost order s1) as [[returned|] s2]; simpl in *; [done|].
  split; [done|]. split.
  - intros host Hin. unfold cache.FindId, cache.Get. rewrite Hentries, HbyHost.
    rewrite decide_True by done. by rewrite decide_True by (by apply Hhosts).
  - intros host Hnin. rewrite Hentries, HbyHost, Hc1. by rewrite decide_False.
Qed.
Lemma Reconcile_binds_hosts_witness :
  (sample.reconcile "red" "a" ["h1.com"] [sample.identity "anyone" api.Anonymous] [] init).1
  = None
  ∧ cache.FindId "h1.com"
      (Cache (sample.reconcile "red" "a" ["h1.com"]
                [sample.identity "anyone" api.Anonymous] [] init).2)
    = Some "red/a".
Proof.
  destruct (translateAuthConfig sample.clusterWide
              (sample.env (Found (sample.authConfig "red" "a" ["h1.com"]
                                    [sample.identity "anyone" api.Anonymous] [])))
              (sample.authConfig "red" "a" ["h1.com"]
                 [sample.identity "anyone" api.Anonymous] [])
              (cleanAndLog (NamespacedName_String (sample.named "red" "a")) init))
    as [[byHost|err] s1] eqn:E; [|by vm_compute in E].
  destruct (Reconcile_binds_hosts sample.clusterWide
              (sample.env (Found (sample.authConfig "red" "a" ["h1.com"]
                                    [sample.identity "anyone" api.Anonymous] [])))
              ["h1.com"] (sample.named "red" "a") init
              (sample.authConfig "red" "a" ["h1.com"]
                 [sample.identity "anyone" api.Anonymous] [])
              byHost s1 eq_refl eq_refl E eq_refl) as (H1 & H2 & _).
  { intros host ->%list_elem_of_singleton. split; [apply list_elem_of_here|reflexivity]. }
  split; [exact H1|]. exact (proj1 (H2 "h1.com" (list_elem_of_here _ _))).
Defined.

Lemma lookup_foldr_delete_hosts {V} (m : gmap string V) hosts host :
  foldr delete m hosts !! host = if decide (host ∈ hosts) then None else m !! host.
Proof.
  induction hosts as [|h hosts IH]; simpl; [done|].
  destruct (decide (h = host)) as [->|Hne].
  - rewrite lookup_delete_eq. by rewrite decide_True by apply list_elem_of_here.
  - rewrite lookup_delete_ne by done. rewrite IH.
    destruct (decide (host ∈ hosts)) as [Hin|Hnin].
    + by rewrite decide_True by (by apply list_elem_of_further).
    + rewrite decide_False; [done|]. by intros [?|?]%elem_of_cons.
Qed.

Lemma cleanAndLog_next_handle cacheId s : next_handle (cleanAndLog cacheId s) = next_handle s.
Proof.
  unfold cleanAndLog, cleanConfigs. destruct (cache.FindKeys _ _) as [|host0 ?]; [done|].
  destruct (cache.Get host0 _) as [c|]; [|done]. done.
Qed.

(** X18.  A reconciliation that finds the AuthConfig gone, and one that
    finds it without the labels that the reconciler watches, end alike:
    nothing is translated, nil is returned, the configId is left without
    hosts, the hosts it had resolve to nothing, and every other host is
    bound as before. *)
Theorem Reconcile_evicts r env order req s :
  (∃ err, GetAuthConfig env req = NotFound err)
  ∨ (∃ authConfig, GetAuthConfig env req = Found authConfig
                   ∧ Watched (api.Labels authConfig) (LabelSelector r) = false) ->
  let cacheId := NamespacedName_String req in
  let after := Reconcile r env order req s in
  after.1 = None
  ∧ next_handle after.2 = next_handle s
  ∧ cache.FindKeys cacheId (Cache after.2) = []
  ∧ (∀ host, host ∈ cache.FindKeys cacheId (Cache s) ->
       cache.Get host (Cache after.2) = None ∧ cache.FindId host (Cache after.2) = None)
  ∧ (∀ host, host ∉ cache.FindKeys cacheId (Cache s) ->
       cache.entries (Cache after.2) !! host = cache.entries (Cache s) !! host).
Proof.
  intros Hgone cacheId after.
  assert (after = (None, logger_Info "resource reconciled"
                           (set_Cache (cache.Delete cacheId (Cache (cleanAndLog cacheId s)))
                                      (cleanAndLog cacheId s)))) as ->.
  { subst after. unfold Reconcile.
    destruct Hgone as [[err ->]|(authConfig & -> & ->)]; done. }
  simpl. rewrite cleanAndLog_Cache, cleanAndLog_next_handle.
  split; [done|]. split; [done|]. split.
  { unfold cache.FindKeys at 1, cache.Delete. simpl. by rewrite lookup_delete_eq. }
  split.
  - intros host Hin. unfold cache.Get, cache.FindId, cache.Delete. simpl.
    rewrite lookup_foldr_delete_hosts. by rewrite decide_True.
  - intros host Hnin. unfold cache.Delete. simpl.
    rewrite lookup_foldr_delete_hosts. by rewrite decide_False.
Qed.
Lemma Reconcile_evicts_witness :
  let anyone := [sample.identity "anyone" api.Anonymous] in
  let bound := (sample.reconcile "red" "a" ["h1.com"] anyone [] init).2 in
  cache.FindId "h1.com" (Cache bound) = Some "red/a"
  ∧ cache.FindId "h1.com"
      (Cache (Reconcile sample.clusterWide (sample.env (NotFound "gone")) []
                (sample.named "red" "a") bound).2)
    = None.
Proof.
  intros anyone bound. split; [vm_compute; reflexivity|].
  destruct (Reconcile_evicts sample.clusterWide (sample.env (NotFound "gone")) []
              (sample.named "red" "a") bound) as (_ & _ & _ & Hhosts & _).
  { left. by exists "gone". }
  apply (Hhosts "h1.com"). vm_compute. apply list_elem_of_here.
Defined.

(** Past the collision check the index takes every binding, so the loop
    over the hosts never returns an error. *)
Lemma bindHosts_no_error req byHost order s err :
  cache.split_head (nn_Namespace req) = nn_Namespace req ->
  (bindHosts req (NamespacedName_String req) byHost order s).1 ≠ Some (Some err).
Proof.
  intros Hreq. revert s. induction order as [|h order IH]; intros s; cbn [bindHosts]; [done|].
  destruct (byHost !! h) as [apiConfig|]; [|apply IH].
  destruct (taken req h (Cache s)) eqn:Ht; [done|].
  pose proof (Set_after_check req h apiConfig (Cache s) Hreq Ht) as Hok.
  destruct (cache.Set_ _ h apiConfig true (Cache s)) as [[err'|] c]; [done|]. apply IH.
Qed.

(** X19.  The errors of a reconciliation (its namespace holding no
    separator) are the error of a failed Get of the AuthConfig, other than
    not found, and the error of a failed translation of a watched
    AuthConfig, and no other: cleaning, evicting and binding the hosts
    return none, a host taken in another namespace included. *)
Theorem Reconcile_error_sources r env order req s err :
  cache.split_head (nn_Namespace req) = nn_Namespace req ->
  (Reconcile r env order req s).1 = Some err ->
  GetAuthConfig env req = GetFailed err
  ∨ ∃ authConfig,
      GetAuthConfig env req = Found authConfig
      ∧ Watched (api.Labels authConfig) (LabelSelector r) = true
      ∧ (translateAuthConfig r env authConfig (cleanAndLog (NamespacedName_String req) s)).1
        = Err err.
Proof.
  intros Hreq. unfold Reconcile.
  destruct (GetAuthConfig env req) as [authConfig|err'|err']; simpl;
    [|done|by intros [= ->]; left].
  destruct (Watched (api.Labels authConfig) (LabelSelector r)) eqn:Hw; [|done]. simpl.
  destruct (translateAuthConfig r env authConfig _) as [[byHost|err'] s1] eqn:Et.
  - pose proof (bindHosts_no_error req byHost order s1) as Hloop.
    destruct (bindHosts req _ byHost order s1) as [[returned|] s2]; simpl in *; [|done].
    intros ->. by destruct (Hloop err Hreq).
  - simpl. intros [= ->]. right. exists authConfig. by rewrite Et.
Qed.
Lemma Reconcile_error_sources_witness :
  let dangling :=
    sample.authConfig "red" "a" ["h1.com"] [sample.identity "anyone" api.Anonymous]
      [sample.metadata "userinfo" (api.UserInfo "nobody")] in
  GetAuthConfig (sample.env (Found dangling)) (sample.named "red" "a")
  = GetFailed "missing identity config nobody"
  ∨ ∃ authConfig,
      GetAuthConfig (sample.env (Found dangling)) (sample.named "red" "a") = Found authConfig
      ∧ Watched (api.Labels authConfig) (LabelSelector sample.clusterWide) = true
      ∧ (translateAuthConfig sample.clusterWide (sample.env (Found dangling)) authConfig
           (cleanAndLog (NamespacedName_String (sample.named "red" "a")) init)).1
        = Err "missing identity config nobody".
Proof.
  intros dangling.
  apply (Reconcile_error_sources sample.clusterWide (sample.env (Found dangling)) ["h1.com"]
           (sample.named "red" "a") init "missing identity config nobody" eq_refl).
  vm_compute. reflexivity.
Defined.
End ReconcileBinds.

(** ** The generated deep copies *)

Import v1beta1.

Lemma node_induction (P : node -> Prop) :
  (∀ s, P (NScalar s)) -> P NNil ->
  (∀ fields, Forall P fields -> P (NStruct fields)) ->
  (∀ k a contents, Forall P contents -> P (NRef k a contents)) ->
  ∀ x, P x.
Proof.
  intros Hs Hn Hf Hr.
  fix go 1. intros [s|fields| |k a contents].
  - apply Hs.
  - apply Hf. induction fields as [|y l IH]; constructor; [apply go|apply IH].
  - apply Hn.
  - apply Hr. induction contents as [|y l IH]; constructor; [apply go|apply IH].
Qed.

Lemma flat_map_nil_Forall {A B} (f : A -> list B) l :
  Forall (λ x, f x = []) l -> flat_map f l = [].
Proof. induction 1 as [|x l Hx _ IH]; simpl; [done|]. by rewrite Hx, IH. Qed.

(** A write to a cell that a value does not reach leaves the value as it
    is. *)
Lemma write_unreached a contents' x : a ∉ addrs x -> write a contents' x = x.
Proof.
  induction x as [s| |fields IH|k b contents IH] using node_induction; simpl; intros Ha;
    try done.
  - f_equal. induction IH as [|y l Hy _ IHl]; simpl in *; [done|].
    rewrite elem_of_app in Ha. f_equal; [apply Hy|apply IHl]; tauto.
  - rewrite elem_of_cons in Ha. case_decide as Hb; [subst; tauto|].
    f_equal. assert (a ∉ flat_map addrs contents) as Ha' by tauto. clear Ha.
    induction IH as [|y l Hy _ IHl]; simpl in *; [done|].
    rewrite elem_of_app in Ha'. f_equal; [apply Hy|apply IHl]; tauto.
Qed.

Lemma within_mono n1 n2 n1' n2' l :
  (n1' ≤ n1)%nat -> (n2 ≤ n2')%nat -> within n1 n2 l -> within n1' n2' l.
Proof.
  unfold within. intros ? ? H. eapply Forall_impl; [exact H|]. intros a ?. simpl in *. lia.
Qed.

Lemma within_nil n n' : within n n' [].
Proof. constructor. Qed.

Lemma within_app n n' l1 l2 : within n n' l1 -> within n n' l2 -> within n n' (l1 ++ l2).
Proof. intros. by apply Forall_app. Qed.

Lemma within_cons n n' a l : (n ≤ a < n')%nat -> within n n' l -> within n n' (a :: l).
Proof. intros. by constructor. Qed.

#[global] Instance plain_string : Plain string.
Proof. done. Qed.

#[global] Instance plain_Z : Plain Z.
Proof. done. Qed.

#[global] Instance plain_bool : Plain bool.
Proof. done. Qed.

Lemma addrs_scalars (l : list scalar) : flat_map addrs (map NScalar l) = [].
Proof. apply flat_map_nil_Forall, Forall_map, Forall_forall. done. Qed.

#[global] Instance plain_scalars : Plain (list scalar).
Proof. intros l. apply addrs_scalars. Qed.

Lemma plain_struct fields : Forall (λ x, addrs x = []) fields -> addrs (NStruct fields) = [].
Proof. apply flat_map_nil_Forall. Qed.

#[global] Instance deep_plain `{Plain A} : Deep (@ret A).
Proof.
  intros x n. simpl. rewrite plain. split; [done|]. split; [done|]. apply within_nil.
Qed.

Lemma each_deep_at `{Reify A} (f : A -> M A) (l : list A) :
  Forall (DeepAt f) l ->
  ∀ n : addr,
    (n ≤ (each f l n).2)%nat
    ∧ map erase (map reify (each f l n).1) = map erase (map reify l)
    ∧ within n (each f l n).2 (flat_map addrs (map reify (each f l n).1)).
Proof.
  induction 1 as [|x l Hx _ IH]; intros n; simpl; [by auto using within_nil|].
  unfold bind. destruct (Hx n) as (H1 & H2 & H3). destruct (f x n) as [y n1]. simpl in *.
  destruct (IH n1) as (I1 & I2 & I3). destruct (each f l n1) as [l' n2]. simpl in *.
  split; [lia|]. split; [by rewrite H2, I2|].
  apply within_app; [eapply within_mono, H3|eapply within_mono, I3]; lia.
Qed.

Lemma each_deep `{Reify A} (f : A -> M A) :
  Deep f ->
  ∀ (l : list A) (n : addr),
    (n ≤ (each f l n).2)%nat
    ∧ map erase (map reify (each f l n).1) = map erase (map reify l)
    ∧ within n (each f l n).2 (flat_map addrs (map reify (each f l n).1)).
Proof. intros Hf l. apply each_deep_at, Forall_forall. intros x _. apply Hf. Qed.

#[global] Instance deep_copy_slice `{Plain A} : Deep (@copy_slice A).
Proof.
  intros [|a elems] n; simpl; [by auto using within_nil|]. split; [lia|]. split; [done|].
  apply within_cons; [lia|]. rewrite flat_map_nil_Forall; [apply within_nil|].
  apply Forall_map, Forall_forall. intros x _. apply plain.
Qed.

#[global] Instance deep_deepcopy_slice `{Reify A} (f : A -> M A) :
  Deep f -> Deep (deepcopy_slice f).
Proof.
  intros Hf [|a elems] n; simpl; [by auto using within_nil|]. unfold bind. simpl.
  destruct (each_deep f Hf elems (S n)) as (H1 & H2 & H3).
  destruct (each f elems (S n)) as [elems' n1]. simpl in *.
  split; [lia|]. split; [by rewrite H2|].
  apply within_cons; [lia|]. eapply within_mono, H3; lia.
Qed.

#[global] Instance deep_copy_ptr `{Plain A} : Deep (@copy_ptr A).
Proof.
  intros [|a x] n; simpl; [by auto using within_nil|]. split; [lia|]. split; [done|].
  apply within_cons; [lia|]. rewrite plain. apply within_nil.
Qed.

#[global] Instance deep_deepcopy_ptr `{Reify A} (f : A -> M A) :
  Deep f -> Deep (deepcopy_ptr f).
Proof.
  intros Hf [|a x] n; simpl; [by auto using within_nil|]. unfold bind. simpl.
  destruct (Hf x (S n)) as (H1 & H2 & H3). destruct (f x (S n)) as [y n1]. simpl in *.
  split; [lia|]. split; [by rewrite H2|].
  apply within_cons; [lia|]. rewrite app_nil_r. eapply within_mono, H3; lia.
Qed.

#[global] Instance deep_copy_entry `{Reify A} (f : A -> M A) :
  Deep f -> Deep (copy_entry f).
Proof.
  intros Hf [key val] n. unfold copy_entry, bind. simpl.
  destruct (Hf val n) as (H1 & H2 & H3). destruct (f val n) as [val' n1]. simpl in *.
  split; [done|]. split; [by rewrite H2|]. by rewrite app_nil_r.
Qed.

#[global] Instance deep_deepcopy_map `{Reify A} (f : A -> M A) :
  Deep f -> Deep (deepcopy_map f).
Proof.
  intros Hf [|a entries] n; simpl; [by auto using within_nil|]. unfold bind. simpl.
  destruct (each_deep (copy_entry f) _ entries (S n)) as (H1 & H2 & H3).
  destruct (each (copy_entry f) entries (S n)) as [entries' n1]. simpl in *.
  split; [lia|]. split; [by rewrite H2|].
  apply within_cons; [lia|]. eapply within_mono, H3; lia.
Qed.

#[global] Instance deep_external : Deep external_DeepCopyInto.
Proof.
  intros x. induction x as [s| |fields IH|k a contents IH] using node_induction; intros n;
    try (simpl; by auto using within_nil).
  - simpl. unfold bind.
    destruct (each_deep_at external_DeepCopyInto fields IH n) as (H1 & H2 & H3).
    destruct (each external_DeepCopyInto fields n) as [fields' n1]. simpl in *.
    unfold reify, reify_node in *. rewrite !map_id in *.
    split; [done|]. split; [by rewrite H2|done].
  - simpl. unfold bind. simpl.
    destruct (each_deep_at external_DeepCopyInto contents IH (S n)) as (H1 & H2 & H3).
    destruct (each external_DeepCopyInto contents (S n)) as [contents' n1]. simpl in *.
    unfold reify, reify_node in *. rewrite !map_id in *.
    split; [lia|]. split; [by rewrite H2|].
    apply within_cons; [lia|]. eapply within_mono, H3; lia.
Qed.

Ltac plain_record := intros ?; apply plain_struct; repeat constructor; apply plain.

Lemma struct_copied n n' olds news :
  Forall2 (λ o w, erase w = erase o ∧ within n n' (addrs w)) olds news ->
  erase (NStruct news) = erase (NStruct olds) ∧ within n n' (addrs (NStruct news)).
Proof.
  induction 1 as [|o w olds news [He Hf] _ [IH1 IH2]]; simpl; [by auto using within_nil|].
  split; [injection IH1 as IH1; by rewrite He, IH1|]. by apply within_app.
Qed.

#[local] Arguments erase : simpl never.
#[local] Arguments addrs : simpl never.

(** A field of the result against the same field of the argument: either
    it was assigned as it is and holds no reference, or it was copied. *)
Ltac deep_field :=
  simpl;
  first
    [ split; [reflexivity|rewrite plain; apply within_nil]
    | split; [assumption|eapply within_mono; [| |eassumption]; lia] ].

(** The proof for a struct: one step per copied field, then the fields of
    the result are compared one by one with those of the argument. *)
Ltac deep_record F :=
  let x := fresh "x" in
  let n := fresh "n" in
  let E := fresh "E" in
  intros x n; destruct (F x n) as [? ?] eqn:E; unfold F, bind, ret in E;
  repeat match type of E with
         | context [match ?c with _ => _ end] =>
             match c with
             | ?f ?v ?m =>
                 let H := fresh "H" in
                 pose proof ((_ : Deep f) v m) as H;
                 destruct (f v m) as [? ?]; cbn [fst snd] in H; destruct H as (? & ? & ?)
             end
         end;
  injection E as <- <-; cbn [fst snd];
  split; [lia|]; apply struct_copied;
  repeat (constructor; [deep_field|]); constructor.

#[global] Instance plain_StaticOrDynamicValue : Plain StaticOrDynamicValue.
Proof. plain_record. Qed.

#[global] Instance deep_StaticOrDynamicValue : Deep StaticOrDynamicValue_DeepCopyInto.
Proof. apply deep_plain. Qed.

#[global] Instance plain_JSONPattern : Plain JSONPattern.
Proof. plain_record. Qed.

#[global] Instance deep_JSONPattern : Deep JSONPattern_DeepCopyInto.
Proof. apply deep_plain. Qed.

#[global] Instance plain_EvaluatorCaching : Plain EvaluatorCaching.
Proof. plain_record. Qed.

#[global] Instance deep_EvaluatorCaching : Deep EvaluatorCaching_DeepCopyInto.
Proof. apply deep_plain. Qed.

#[global] Instance deep_JsonProperty : Deep JsonProperty_DeepCopyInto.
Proof. deep_record JsonProperty_DeepCopyInto. Qed.

#[global] Instance deep_Identity_OAuth2Config : Deep Identity_OAuth2Config_DeepCopyInto.
Proof. deep_record Identity_OAuth2Config_DeepCopyInto. Qed.

#[global] Instance deep_Identity_APIKey : Deep Identity_APIKey_DeepCopyInto.
Proof. deep_record Identity_APIKey_DeepCopyInto. Qed.

#[global] Instance deep_Identity_MTLS : Deep Identity_MTLS_DeepCopyInto.
Proof. deep_record Identity_MTLS_DeepCopyInto. Qed.

#[global] Instance deep_Identity_KubernetesAuth : Deep Identity_KubernetesAuth_DeepCopyInto.
Proof. deep_record Identity_KubernetesAuth_DeepCopyInto. Qed.

#[global] Instance deep_Identity : Deep Identity_DeepCopyInto.
Proof. deep_record Identity_DeepCopyInto. Qed.

#[global] Instance deep_Metadata_UMA : Deep Metadata_UMA_DeepCopyInto.
Proof. deep_record Metadata_UMA_DeepCopyInto. Qed.

#[global] Instance deep_OAuth2ClientAuthentication : Deep OAuth2ClientAuthentication_DeepCopyInto.
Proof. deep_record OAuth2ClientAuthentication_DeepCopyInto. Qed.

#[global] Instance deep_Metadata_GenericHTTP : Deep Metadata_GenericHTTP_DeepCopyInto.
Proof. deep_record Metadata_GenericHTTP_DeepCopyInto. Qed.

#[global] Instance deep_Metadata : Deep Metadata_DeepCopyInto.
Proof. deep_record Metadata_DeepCopyInto. Qed.

#[global] Instance deep_ExternalRegistry : Deep ExternalRegistry_DeepCopyInto.
Proof. deep_record ExternalRegistry_DeepCopyInto. Qed.

#[global] Instance deep_Authorization_OPA : Deep Authorization_OPA_DeepCopyInto.
Proof. deep_record Authorization_OPA_DeepCopyInto. Qed.

#[global] Instance deep_Authorization_JSONPatternMatching :
  Deep Authorization_JSONPatternMatching_DeepCopyInto.
Proof. deep_record Authorization_JSONPatternMatching_DeepCopyInto. Qed.

#[global] Instance plain_Authorization_KubernetesAuthz_ResourceAttributes :
  Plain Authorization_KubernetesAuthz_ResourceAttributes.
Proof. plain_record. Qed.

#[global] Instance deep_Authorization_KubernetesAuthz_ResourceAttributes :
  Deep Authorization_KubernetesAuthz_ResourceAttributes_DeepCopyInto.
Proof. apply deep_plain. Qed.

#[global] Instance deep_Authorization_KubernetesAuthz :
  Deep Authorization_KubernetesAuthz_DeepCopyInto.
Proof. deep_record Authorization_KubernetesAuthz_DeepCopyInto. Qed.

#[global] Instance plain_AuthzedObject : Plain AuthzedObject.
Proof. plain_record. Qed.

#[global] Instance deep_AuthzedObject : Deep AuthzedObject_DeepCopyInto.
Proof. apply deep_plain. Qed.

#[global] Instance deep_Authorization_Authzed : Deep Authorization_Authzed_DeepCopyInto.
Proof. deep_record Authorization_Authzed_DeepCopyInto. Qed.

#[global] Instance deep_Authorization : Deep Authorization_DeepCopyInto.
Proof. deep_record Authorization_DeepCopyInto. Qed.

#[global] Instance deep_Response_Wristband : Deep Response_Wristband_DeepCopyInto.
Proof. deep_record Response_Wristband_DeepCopyInto. Qed.

#[global] Instance deep_Response_DynamicJSON : Deep Response_DynamicJSON_DeepCopyInto.
Proof. deep_record Response_DynamicJSON_DeepCopyInto. Qed.

#[global] Instance plain_Response_Plain : Plain Response_Plain.
Proof. plain_record. Qed.

#[global] Instance deep_Response_Plain : Deep Response_Plain_DeepCopyInto.
Proof. apply deep_plain. Qed.

#[global] Instance deep_Response : Deep Response_DeepCopyInto.
Proof. deep_record Response_DeepCopyInto. Qed.

#[global] Instance deep_Callback : Deep Callback_DeepCopyInto.
Proof. deep_record Callback_DeepCopyInto. Qed.

#[global] Instance deep_DenyWithSpec : Deep DenyWithSpec_DeepCopyInto.
Proof. deep_record DenyWithSpec_DeepCopyInto. Qed.

#[global] Instance deep_DenyWith : Deep DenyWith_DeepCopyInto.
Proof. deep_record DenyWith_DeepCopyInto. Qed.

#[global] Instance deep_AuthConfigSpec : Deep AuthConfigSpec_DeepCopyInto.
Proof. deep_record AuthConfigSpec_DeepCopyInto. Qed.

#[global] Instance deep_Summary : Deep Summary_DeepCopyInto.
Proof. deep_record Summary_DeepCopyInto. Qed.

#[global] Instance deep_Condition : Deep Condition_DeepCopyInto.
Proof. deep_record Condition_DeepCopyInto. Qed.

#[global] Instance deep_AuthConfigStatus : Deep AuthConfigStatus_DeepCopyInto.
Proof. deep_record AuthConfigStatus_DeepCopyInto. Qed.

#[global] Instance deep_AuthConfig : Deep AuthConfig_DeepCopyInto.
Proof. deep_record AuthConfig_DeepCopyInto. Qed.

#[local] Arguments erase : simpl nomatch.
#[local] Arguments addrs : simpl nomatch.

Lemma ptr_cell_reached `{Reify A} (p : ptr A) a : a ∈ ptr_cell p -> a ∈ addrs (reify p).
Proof. destruct p; simpl; [done|]. intros ->%list_elem_of_singleton. apply list_elem_of_here. Qed.

Lemma slice_cell_reached `{Reify A} (s : slice A) a : a ∈ slice_cell s -> a ∈ addrs (reify s).
Proof. destruct s; simpl; [done|]. intros ->%list_elem_of_singleton. apply list_elem_of_here. Qed.

Lemma map_cell_reached `{Reify A} (m : gomap A) a : a ∈ map_cell m -> a ∈ addrs (reify m).
Proof. destruct m; simpl; [done|]. intros ->%list_elem_of_singleton. apply list_elem_of_here. Qed.

(** The slices, the map and the pointer of a spec are among the cells it
    reaches. *)
Lemma AuthConfigSpec_cells_reached (spec : AuthConfigSpec) a :
  a ∈ AuthConfigSpec_cells spec -> a ∈ addrs (reify spec).
Proof.
  unfold AuthConfigSpec_cells. unfold reify at 1, reify_AuthConfigSpec. simpl.
  rewrite !elem_of_app.
  intuition auto using ptr_cell_reached, slice_cell_reached, map_cell_reached.
Qed.

(** A deep copy of a value that lives below the next unused address is
    structurally equal to it and shares no cell with it, so a write through
    any reference of the one leaves the other as it is. *)
Lemma deep_copy_independent `{Reify A} (f : A -> M A) (x : A) (n : addr) :
  Deep f -> within 0 n (addrs (reify x)) ->
  erase (reify (f x n).1) = erase (reify x)
  ∧ (∀ a, a ∈ addrs (reify (f x n).1) -> a ∉ addrs (reify x))
  ∧ (∀ a contents', a ∈ addrs (reify (f x n).1) -> write a contents' (reify x) = reify x)
  ∧ (∀ a contents', a ∈ addrs (reify x) ->
       write a contents' (reify (f x n).1) = reify (f x n).1).
Proof.
  intros Hf Hx. destruct (Hf x n) as (Hn & He & Hy).
  assert (∀ a, a ∈ addrs (reify (f x n).1) -> a ∉ addrs (reify x)) as Hdisjoint.
  { intros a Ha Ha'. unfold within in *. rewrite Forall_forall in Hx, Hy.
    specialize (Hx a Ha'). specialize (Hy a Ha). lia. }
  split; [done|]. split; [done|]. split.
  - intros a contents' Ha. by apply write_unreached, Hdisjoint.
  - intros a contents' Ha. apply write_unreached. intros Ha'. by apply (Hdisjoint a).
Qed.

(** C9.  [DeepCopy] of a non-nil AuthConfig, and of a non-nil
    AuthConfigSpec, returns a non-nil value that is structurally equal to
    the original and reaches none of its cells: a write through any slice,
    map or pointer of the copy (among them Hosts, Patterns, Conditions, the
    four phase lists, Callbacks and DenyWith) leaves the original
    unchanged, and the other way round. *)
Theorem DeepCopy_shares_nothing (a b : addr) (authConfig : AuthConfig) (spec : AuthConfigSpec)
    (n : addr) :
  within 0 n (addrs (reify (Ptr a authConfig))) ->
  within 0 n (addrs (reify (Ptr b spec))) ->
  (∃ a' authConfig',
     (AuthConfig_DeepCopy (Ptr a authConfig) n).1 = Ptr a' authConfig'
     ∧ erase (reify (Ptr a' authConfig')) = erase (reify (Ptr a authConfig))
     ∧ (∀ c, c ∈ addrs (reify (Ptr a' authConfig')) -> c ∉ addrs (reify (Ptr a authConfig)))
     ∧ (∀ c contents', c ∈ addrs (reify (Ptr a' authConfig')) ->
          write c contents' (reify (Ptr a authConfig)) = reify (Ptr a authConfig))
     ∧ (∀ c contents', c ∈ addrs (reify (Ptr a authConfig)) ->
          write c contents' (reify (Ptr a' authConfig')) = reify (Ptr a' authConfig')))
  ∧ (∃ b' spec',
       (AuthConfigSpec_DeepCopy (Ptr b spec) n).1 = Ptr b' spec'
       ∧ erase (reify (Ptr b' spec')) = erase (reify (Ptr b spec))
       ∧ (∀ c, c ∈ addrs (reify (Ptr b' spec')) -> c ∉ addrs (reify (Ptr b spec)))
       ∧ (∀ c contents', c ∈ b' :: AuthConfigSpec_cells spec' ->
            write c contents' (reify (Ptr b spec)) = reify (Ptr b spec))
       ∧ (∀ c contents', c ∈ addrs (reify (Ptr b' spec')) ->
            write c contents' (reify (Ptr b spec)) = reify (Ptr b spec))
       ∧ (∀ c contents', c ∈ addrs (reify (Ptr b spec)) ->
            write c contents' (reify (Ptr b' spec')) = reify (Ptr b' spec'))).
Proof.
  intros Ha Hb. split.
  - destruct (deep_copy_independent AuthConfig_DeepCopy (Ptr a authConfig) n _ Ha)
      as (H1 & H2 & H3 & H4).
    destruct (AuthConfig_DeepCopy (Ptr a authConfig) n) as [[|a' authConfig'] n'] eqn:E;
      [by inversion E|].
    exists a', authConfig'. simpl in *. auto.
  - destruct (deep_copy_independent AuthConfigSpec_DeepCopy (Ptr b spec) n _ Hb)
      as (H1 & H2 & H3 & H4).
    destruct (AuthConfigSpec_DeepCopy (Ptr b spec) n) as [[|b' spec'] n'] eqn:E;
      [by inversion E|].
    exists b', spec'. simpl in *. repeat split; auto.
    intros c contents' Hc. apply H3.
    apply elem_of_cons in Hc as [->|Hc]; [apply list_elem_of_here|].
    apply list_elem_of_further. rewrite app_nil_r. by apply AuthConfigSpec_cells_reached.
Qed.

Lemma DeepCopy_shares_nothing_witness :
  within 0 7 (addrs (reify (Ptr 0 sample.object)))
  ∧ ∃ a' authConfig',
      (AuthConfig_DeepCopy (Ptr 0 sample.object) 7).1 = Ptr a' authConfig'
      ∧ erase (reify (Ptr a' authConfig')) = erase (reify (Ptr 0 sample.object)).
Proof.
  assert (within 0 7 (addrs (reify (Ptr 0 sample.object)))) as Ha.
  { unfold within. vm_compute. repeat constructor. }
  assert (within 0 7 (addrs (reify (Ptr 0 sample.spec)))) as Hb.
  { unfold within. vm_compute. repeat constructor. }
  split; [exact Ha|].
  destruct (proj1 (DeepCopy_shares_nothing 0 0 sample.object sample.spec 7 Ha Hb))
    as (a' & authConfig' & H1 & H2 & _).
  exists a', authConfig'. split; [exact H1|exact H2].
Defined.

(** ** The other generated copies *)

#[local] Arguments erase : simpl never.
#[local] Arguments addrs : simpl never.

#[global] Instance deep_AuthConfigList : Deep AuthConfigList_DeepCopyInto.
Proof. deep_record AuthConfigList_DeepCopyInto. Qed.

#[local] Arguments erase : simpl nomatch.
#[local] Arguments addrs : simpl nomatch.

Lemma deep_copies_independently `{Reify A} (f : A -> M A) :
  Deep f -> copies_independently (deepcopy_ptr f).
Proof.
  intros Hf n. split; [done|]. intros a x Hx.
  pose proof (deep_copy_independent (deepcopy_ptr f) (Ptr a x) n _ Hx) as Hcopy.
  destruct (deepcopy_ptr f (Ptr a x) n) as [[|a' x'] n'].
  - destruct Hcopy as [Hcopy _]. simpl in Hcopy. discriminate.
  - by exists a', x'.
Qed.

(** X20.  The [DeepCopy] of an Identity, a Metadata, an Authorization, a
    Response, a Callback, a DenyWith and an AuthConfigStatus returns nil
    for nil, and for every other receiver a pointer to a new value that is
    equal to the receiver's up to addresses and shares no cell with it. *)
Theorem DeepCopy_methods_copy_independently :
  copies_independently Identity_DeepCopy
  ∧ copies_independently Metadata_DeepCopy
  ∧ copies_independently Authorization_DeepCopy
  ∧ copies_independently Response_DeepCopy
  ∧ copies_independently Callback_DeepCopy
  ∧ copies_independently DenyWith_DeepCopy
  ∧ copies_independently AuthConfigStatus_DeepCopy.
Proof.
  split; [|split; [|split; [|split; [|split; [|split]]]]];
    apply deep_copies_independently; apply _.
Qed.

(** X21.  [DeepCopyObject] of an AuthConfig and of an AuthConfigList
    returns the nil interface for a nil receiver, never an interface that
    holds a nil pointer, and for every other receiver an object that holds
    a pointer to an independent copy, the items of a list being copied one
    by one. *)
Theorem DeepCopyObject_shares_nothing (n : addr) :
  AuthConfig_DeepCopyObject nil_ptr n = (nil_Object, n)
  ∧ AuthConfigList_DeepCopyObject nil_ptr n = (nil_Object, n)
  ∧ (∀ a authConfig,
       within 0 n (addrs (reify (Ptr a authConfig))) ->
       ∃ a' authConfig',
         (AuthConfig_DeepCopyObject (Ptr a authConfig) n).1
         = Object_AuthConfig (Ptr a' authConfig')
         ∧ independent (reify (Ptr a authConfig)) (reify (Ptr a' authConfig')))
  ∧ (∀ a items,
       within 0 n (addrs (reify (Ptr a items))) ->
       ∃ a' items',
         (AuthConfigList_DeepCopyObject (Ptr a items) n).1
         = Object_AuthConfigList (Ptr a' items')
         ∧ independent (reify (Ptr a items)) (reify (Ptr a' items'))).
Proof.
  split; [done|]. split; [done|]. split.
  - intros a authConfig Hx.
    destruct (deep_copies_independently AuthConfig_DeepCopyInto _ n) as [_ Hcopy].
    destruct (Hcopy a authConfig Hx) as (a' & authConfig' & E & Hind).
    exists a', authConfig'. split; [|done].
    unfold AuthConfig_DeepCopyObject, AuthConfig_DeepCopy, bind.
    destruct (deepcopy_ptr AuthConfig_DeepCopyInto (Ptr a authConfig) n) as [c n'].
    simpl in E. by subst c.
  - intros a items Hx.
    destruct (deep_copies_independently AuthConfigList_DeepCopyInto _ n) as [_ Hcopy].
    destruct (Hcopy a items Hx) as (a' & items' & E & Hind).
    exists a', items'. split; [|done].
    unfold AuthConfigList_DeepCopyObject, AuthConfigList_DeepCopy, bind.
    destruct (deepcopy_ptr AuthConfigList_DeepCopyInto (Ptr a items) n) as [c n'].
    simpl in E. by subst c.
Qed.

Lemma each_length {A B} (f : A -> M B) (l : list A) (n : addr) :
  length (each f l n).1 = length l.
Proof.
  revert n. induction l as [|x l IH]; intros n; simpl; [done|]. unfold bind.
  destruct (f x n) as [y n1]. specialize (IH n1).
  destruct (each f l n1) as [l' n2]. simpl in *. by rewrite IH.
Qed.

#[global] Instance deep_AuthConfigSlice_DeepCopy : Deep AuthConfigSlice_DeepCopy.
Proof.
  intros [|a elems] n; simpl; [by auto using within_nil|].
  unfold AuthConfigSlice_DeepCopyInto, bind. simpl.
  destruct (each_deep AuthConfig_DeepCopyInto _ elems (S (S n))) as (H1 & H2 & H3).
  destruct (each AuthConfig_DeepCopyInto elems (S (S n))) as [elems' n1]. simpl in *.
  split; [lia|]. split; [by rewrite H2|].
  apply within_cons; [lia|]. eapply within_mono, H3; lia.
Qed.

#[global] Instance deep_JSONPatternExpressions_DeepCopy : Deep JSONPatternExpressions_DeepCopy.
Proof.
  intros [|a elems] n; simpl; [by auto using within_nil|].
  split; [lia|]. split; [done|].
  apply within_cons; [lia|]. rewrite flat_map_nil_Forall; [apply within_nil|].
  apply Forall_map, Forall_forall. intros x _. apply plain.
Qed.

(** X22.  The copies of the two slice types tell the nil slice from the
    empty one in different ways.  [DeepCopy] returns nil for nil, and for
    any other slice an independent copy; [DeepCopyInto], which has no
    test for nil, always makes a slice, of the length of the receiver: of
    the nil slice it makes an empty slice that is not nil. *)
Theorem slice_copies_and_nil (n : addr) :
  (AuthConfigSlice_DeepCopy nil_slice n = (nil_slice, n)
   ∧ JSONPatternExpressions_DeepCopy nil_slice n = (nil_slice, n))
  ∧ (∀ s, ∃ elems,
       (AuthConfigSlice_DeepCopyInto s n).1 = Slice n elems
       ∧ length elems = length (elems_of s))
  ∧ (∀ s, JSONPatternExpressions_DeepCopyInto s n = (Slice n (elems_of s), S n))
  ∧ (∀ a elems,
       within 0 n (addrs (reify (Slice a elems))) ->
       independent (reify (Slice a elems))
                   (reify (AuthConfigSlice_DeepCopy (Slice a elems) n).1))
  ∧ (∀ a elems,
       within 0 n (addrs (reify (Slice a elems))) ->
       independent (reify (Slice a elems))
                   (reify (JSONPatternExpressions_DeepCopy (Slice a elems) n).1)).
Proof.
  split; [done|]. split; [|split; [done|split]].
  - intros s. unfold AuthConfigSlice_DeepCopyInto, bind. simpl.
    pose proof (each_length AuthConfig_DeepCopyInto (elems_of s) (S n)) as Hlen.
    destruct (each AuthConfig_DeepCopyInto (elems_of s) (S n)) as [elems' n1].
    by exists elems'.
  - intros a elems Hx. by apply deep_copy_independent; [apply _|].
  - intros a elems Hx. by apply deep_copy_independent; [apply _|].
Qed.

(** ** Counting the allocations of a copy *)

#[global] Instance exact_plain `{Plain A} : Exact (@ret A).
Proof. intros x n. simpl. rewrite plain. simpl. split; [done|lia]. Qed.

Lemma each_exact_at `{Reify A} (f : A -> M A) (l : list A) :
  Forall (ExactAt f) l ->
  ∀ n : addr,
    flat_map addrs (map reify (each f l n).1)
    = seq n (length (flat_map addrs (map reify l)))
    ∧ (each f l n).2 = (n + length (flat_map addrs (map reify l)))%nat.
Proof.
  induction 1 as [|x l Hx _ IH]; intros n; simpl; [split; [done|lia]|].
  unfold bind. destruct (Hx n) as (H1 & H2). destruct (f x n) as [y n1]. simpl in *.
  destruct (IH n1) as (I1 & I2). destruct (each f l n1) as [l' n2]. simpl in *.
  rewrite length_app, seq_app, H1, I1, H2. split; [done|lia].
Qed.

Lemma each_exact `{Reify A} (f : A -> M A) :
  Exact f ->
  ∀ (l : list A) (n : addr),
    flat_map addrs (map reify (each f l n).1)
    = seq n (length (flat_map addrs (map reify l)))
    ∧ (each f l n).2 = (n + length (flat_map addrs (map reify l)))%nat.
Proof. intros Hf l. apply each_exact_at, Forall_forall. intros x _. apply Hf. Qed.

Lemma plain_elems `{Plain A} (elems : list A) : flat_map addrs (map reify elems) = [].
Proof. apply flat_map_nil_Forall, Forall_map, Forall_forall. intros x _. apply plain. Qed.

#[global] Instance exact_copy_slice `{Plain A} : Exact (@copy_slice A).
Proof.
  intros [|a elems] n; simpl; [split; [done|lia]|].
  rewrite plain_elems. simpl. split; [done|lia].
Qed.

#[global] Instance exact_deepcopy_slice `{Reify A} (f : A -> M A) :
  Exact f -> Exact (deepcopy_slice f).
Proof.
  intros Hf [|a elems] n; simpl; [split; [done|lia]|]. unfold bind. simpl.
  destruct (each_exact f Hf elems (S n)) as (H1 & H2).
  destruct (each f elems (S n)) as [elems' n1]. simpl in *.
  rewrite H1, H2. split; [done|lia].
Qed.

#[global] Instance exact_copy_ptr `{Plain A} : Exact (@copy_ptr A).
Proof.
  intros [|a x] n; simpl; [split; [done|lia]|].
  rewrite plain. simpl. split; [done|lia].
Qed.

#[global] Instance exact_deepcopy_ptr `{Reify A} (f : A -> M A) :
  Exact f -> Exact (deepcopy_ptr f).
Proof.
  intros Hf [|a x] n; simpl; [split; [done|lia]|]. unfold bind. simpl.
  destruct (Hf x (S n)) as (H1 & H2). destruct (f x (S n)) as [y n1]. simpl in *.
  rewrite !app_nil_r, H1, H2. split; [done|lia].
Qed.

#[global] Instance exact_copy_entry `{Reify A} (f : A -> M A) :
  Exact f -> Exact (copy_entry f).
Proof.
  intros Hf [key val] n. unfold copy_entry, bind. simpl.
  destruct (Hf val n) as (H1 & H2). destruct (f val n) as [val' n1]. simpl in *.
  by rewrite !app_nil_r.
Qed.

#[global] Instance exact_deepcopy_map `{Reify A} (f : A -> M A) :
  Exact f -> Exact (deepcopy_map f).
Proof.
  intros Hf [|a entries] n; simpl; [split; [done|lia]|]. unfold bind. simpl.
  destruct (each_exact (copy_entry f) _ entries (S n)) as (H1 & H2).
  destruct (each (copy_entry f) entries (S n)) as [entries' n1]. simpl in *.
  rewrite H1, H2. split; [done|lia].
Qed.

#[global] Instance exact_external : Exact external_DeepCopyInto.
Proof.
  intros x. induction x as [s| |fields IH|k a contents IH] using node_induction; intros n;
    try (simpl; split; [done|lia]).
  - simpl. unfold bind.
    destruct (each_exact_at external_DeepCopyInto fields IH n) as (H1 & H2).
    destruct (each external_DeepCopyInto fields n) as [fields' n1]. simpl in *.
    unfold reify, reify_node in *. rewrite !map_id in *. by rewrite H1.
  - simpl. unfold bind. simpl.
    destruct (each_exact_at external_DeepCopyInto contents IH (S n)) as (H1 & H2).
    destruct (each external_DeepCopyInto contents (S n)) as [contents' n1]. simpl in *.
    unfold reify, reify_node in *. rewrite !map_id in *.
    rewrite H1, H2. split; [done|lia].
Qed.

Lemma struct_exact n olds news n' :
  chain n olds news n' ->
  addrs (NStruct news) = seq n (length (addrs (NStruct olds)))
  ∧ n' = (n + length (addrs (NStruct olds)))%nat.
Proof.
  revert n news. induction olds as [|o olds IH]; intros n [|w news]; simpl; try done.
  - intros ->. split; [done|lia].
  - intros [Hw Hc]. destruct (IH _ _ Hc) as [H1 H2]. simpl in H1, H2.
    rewrite length_app, seq_app, Hw, H1. split; [done|lia].
Qed.

#[local] Arguments erase : simpl never.
#[local] Arguments addrs : simpl never.

(** A field of the result against the same field of the argument: either
    it was assigned as it is and holds no reference, or it was copied and
    takes the next cells. *)
Ltac exact_field :=
  first
    [ match goal with
      | |- addrs ?w = seq _ (length (addrs ?w)) ∧ _ =>
          let P := fresh "P" in
          assert (addrs w = []) as P by apply plain;
          rewrite !P; cbn [length]; split; [reflexivity|]
      end
    | match goal with
      | H : addrs ?w = seq _ _ |- addrs ?w = seq _ _ ∧ _ =>
          split; [rewrite H; f_equal; lia|]
      end ].

Ltac exact_record F :=
  let x := fresh "x" in
  let n := fresh "n" in
  let E := fresh "E" in
  intros x n; destruct (F x n) as [? ?] eqn:E; unfold F, bind, ret in E;
  repeat match type of E with
         | context [match ?c with _ => _ end] =>
             match c with
             | ?f ?v ?m =>
                 let H := fresh "H" in
                 pose proof ((_ : Exact f) v m) as H;
                 destruct (f v m) as [? ?]; cbn [fst snd] in H; destruct H as (? & ?)
             end
         end;
  injection E as <- <-; cbn [fst snd];
  apply struct_exact; cbn [chain]; simpl in *;
  repeat exact_field; lia.

#[global] Instance exact_StaticOrDynamicValue : Exact StaticOrDynamicValue_DeepCopyInto.
Proof. apply exact_plain. Qed.

#[global] Instance exact_JSONPattern : Exact JSONPattern_DeepCopyInto.
Proof. apply exact_plain. Qed.

#[global] Instance exact_EvaluatorCaching : Exact EvaluatorCaching_DeepCopyInto.
Proof. apply exact_plain. Qed.

#[global] Instance exact_JsonProperty : Exact JsonProperty_DeepCopyInto.
Proof. exact_record JsonProperty_DeepCopyInto. Qed.

#[global] Instance exact_Identity_OAuth2Config : Exact Identity_OAuth2Config_DeepCopyInto.
Proof. exact_record Identity_OAuth2Config_DeepCopyInto. Qed.

#[global] Instance exact_Identity_APIKey : Exact Identity_APIKey_DeepCopyInto.
Proof. exact_record Identity_APIKey_DeepCopyInto. Qed.

#[global] Instance exact_Identity_MTLS : Exact Identity_MTLS_DeepCopyInto.
Proof. exact_record Identity_MTLS_DeepCopyInto. Qed.

#[global] Instance exact_Identity_KubernetesAuth : Exact Identity_KubernetesAuth_DeepCopyInto.
Proof. exact_record Identity_KubernetesAuth_DeepCopyInto. Qed.

#[global] Instance exact_Identity : Exact Identity_DeepCopyInto.
Proof. exact_record Identity_DeepCopyInto. Qed.

#[global] Instance exact_Metadata_UMA : Exact Metadata_UMA_DeepCopyInto.
Proof. exact_record Metadata_UMA_DeepCopyInto. Qed.

#[global] Instance exact_OAuth2ClientAuthentication : Exact OAuth2ClientAuthentication_DeepCopyInto.
Proof. exact_record OAuth2ClientAuthentication_DeepCopyInto. Qed.

#[global] Instance exact_Metadata_GenericHTTP : Exact Metadata_GenericHTTP_DeepCopyInto.
Proof. exact_record Metadata_GenericHTTP_DeepCopyInto. Qed.

#[global] Instance exact_Metadata : Exact Metadata_DeepCopyInto.
Proof. exact_record Metadata_DeepCopyInto. Qed.

#[global] Instance exact_ExternalRegistry : Exact ExternalRegistry_DeepCopyInto.
Proof. exact_record ExternalRegistry_DeepCopyInto. Qed.

#[global] Instance exact_Authorization_OPA : Exact Authorization_OPA_DeepCopyInto.
Proof. exact_record Authorization_OPA_DeepCopyInto. Qed.

#[global] Instance exact_Authorization_JSONPatternMatching :
  Exact Authorization_JSONPatternMatching_DeepCopyInto.
Proof. exact_record Authorization_JSONPatternMatching_DeepCopyInto. Qed.

#[global] Instance exact_Authorization_KubernetesAuthz_ResourceAttributes :
  Exact Authorization_KubernetesAuthz_ResourceAttributes_DeepCopyInto.
Proof. apply exact_plain. Qed.

#[global] Instance exact_Authorization_KubernetesAuthz :
  Exact Authorization_KubernetesAuthz_DeepCopyInto.
Proof. exact_record Authorization_KubernetesAuthz_DeepCopyInto. Qed.

#[global] Instance exact_AuthzedObject : Exact AuthzedObject_DeepCopyInto.
Proof. apply exact_plain. Qed.

#[global] Instance exact_Authorization_Authzed : Exact Authorization_Authzed_DeepCopyInto.
Proof. exact_record Authorization_Authzed_DeepCopyInto. Qed.

#[global] Instance exact_Authorization : Exact Authorization_DeepCopyInto.
Proof. exact_record Authorization_DeepCopyInto. Qed.

#[global] Instance exact_Response_Wristband : Exact Response_Wristband_DeepCopyInto.
Proof. exact_record Response_Wristband_DeepCopyInto. Qed.

#[global] Instance exact_Response_DynamicJSON : Exact Response_DynamicJSON_DeepCopyInto.
Proof. exact_record Response_DynamicJSON_DeepCopyInto. Qed.

#[global] Instance exact_Response_Plain : Exact Response_Plain_DeepCopyInto.
Proof. apply exact_plain. Qed.

#[global] Instance exact_Response : Exact Response_DeepCopyInto.
Proof. exact_record Response_DeepCopyInto. Qed.

#[global] Instance exact_Callback : Exact Callback_DeepCopyInto.
Proof. exact_record Callback_DeepCopyInto. Qed.

#[global] Instance exact_DenyWithSpec : Exact DenyWithSpec_DeepCopyInto.
Proof. exact_record DenyWithSpec_DeepCopyInto. Qed.

#[global] Instance exact_DenyWith : Exact DenyWith_DeepCopyInto.
Proof. exact_record DenyWith_DeepCopyInto. Qed.

#[global] Instance exact_AuthConfigSpec : Exact AuthConfigSpec_DeepCopyInto.
Proof. exact_record AuthConfigSpec_DeepCopyInto. Qed.

#[global] Instance exact_Summary : Exact Summary_DeepCopyInto.
Proof. exact_record Summary_DeepCopyInto. Qed.

#[global] Instance exact_Condition : Exact Condition_DeepCopyInto.
Proof. exact_record Condition_DeepCopyInto. Qed.

#[global] Instance exact_AuthConfigStatus : Exact AuthConfigStatus_DeepCopyInto.
Proof. exact_record AuthConfigStatus_DeepCopyInto. Qed.

#[global] Instance exact_AuthConfig : Exact AuthConfig_DeepCopyInto.
Proof. exact_record AuthConfig_DeepCopyInto. Qed.

#[local] Arguments erase : simpl nomatch.
#[local] Arguments addrs : simpl nomatch.

(** X23.  [DeepCopy] of an AuthConfig takes exactly one new cell for
    every pointer, slice and map that the original holds, in the order in
    which the original reaches them, starting with the cell of the new
    AuthConfig itself.  The cells of the copy are therefore pairwise
    distinct: where two references of the original lead to one cell, the
    copy has a cell for each. *)
Theorem AuthConfig_DeepCopy_allocates (a : addr) (authConfig : AuthConfig) (n : addr) :
  let copy := AuthConfig_DeepCopy (Ptr a authConfig) n in
  let cells := length (addrs (reify (Ptr a authConfig))) in
  addrs (reify copy.1) = seq n cells
  ∧ copy.2 = (n + cells)%nat
  ∧ NoDup (addrs (reify copy.1)).
Proof.
  unfold AuthConfig_DeepCopy. cbn zeta.
  destruct (exact_deepcopy_ptr AuthConfig_DeepCopyInto _ (Ptr a authConfig) n) as [H1 H2].
  split; [exact H1|]. split; [exact H2|].
  rewrite H1. apply NoDup_ListNoDup, List.seq_NoDup.
Qed.
